(** * The proxy pool's scoring, penalty and selection engine

    A shallow embedding of [core/proxy_pool.py]: failure classification,
    the name-based logistic score, the penalty ledger with its idle reset,
    the preflight prober, the ensure-reachable loop, [on_failure], and the
    fingerprint de-duplication of [fetch_provider]; further on, the
    configuration read by [from_config], the control flow of
    [fetch_provider], and the retry loop of [_register_one] in
    [core/register_service.py], which drives the pool.

    Modelling conventions.
    - A Python [str] is the list of its Unicode code points ([N]).
    - A Python [float] is a real number: binary64 rounding is idealised
      away, [math.exp] is [exp].
    - A [dict] or [set] built at run time is a [gmap] or [gset]; the three
      literal weight tables are association lists.
    - Everything outside the process (the controller's HTTP API, the probes,
      the clock, the child process) is an [environment]: each call is
      answered as a function of the calls made so far, which the state
      records in [log].
    - [threading.Lock] is one boolean: the model is single-threaded, so
      acquiring a held lock never returns.
    - [logger] calls and [time.sleep] pauses change nothing the engine
      reads and are left out, except the log line of an idle reset. *)

From Stdlib Require Import Reals Lra Lia ZArith NArith List String Ascii Bool DecimalString.
From stdpp Require Import gmap.

(* ================================================================== *)
(** * Python strings *)
(* ================================================================== *)

Abbreviation pystr := (list N).

(** Decoder for the UTF-8 bytes of a literal of this file. *)
Fixpoint utf8_decode (bs : list N) : pystr :=
  match bs with
  | [] => []
  | b :: r =>
    if (b <? 128)%N then b :: utf8_decode r
    else if (b <? 224)%N then
      match r with
      | c1 :: r1 => ((b - 192) * 64 + (c1 - 128))%N :: utf8_decode r1
      | _ => []
      end
    else if (b <? 240)%N then
      match r with
      | c1 :: c2 :: r2 =>
        ((b - 224) * 4096 + (c1 - 128) * 64 + (c2 - 128))%N :: utf8_decode r2
      | _ => []
      end
    else
      match r with
      | c1 :: c2 :: c3 :: r3 =>
        ((b - 240) * 262144 + (c1 - 128) * 4096 + (c2 - 128) * 64 + (c3 - 128))%N
          :: utf8_decode r3
      | _ => []
      end
  end.

(** [py "..."] is the Python string written with that literal. *)
Definition py (s : string) : pystr :=
  utf8_decode (map N_of_ascii (list_ascii_of_string s)).

(** [str.isspace] on one character, the table of CPython's
    [_PyUnicode_IsWhitespace]. *)
Definition is_space (c : N) : bool :=
  ((9 <=? c) && (c <=? 13) || (28 <=? c) && (c <=? 32)
   || (c =? 133) || (c =? 160) || (c =? 5760)
   || (8192 <=? c) && (c <=? 8202)
   || (c =? 8232) || (c =? 8233) || (c =? 8239) || (c =? 8287)
   || (c =? 12288))%N.

Fixpoint lstrip (s : pystr) : pystr :=
  match s with
  | c :: r => if is_space c then lstrip r else s
  | [] => []
  end.

(** [s.rstrip()] *)
Definition rstrip (s : pystr) : pystr := rev (lstrip (rev s)).

(** [s.strip()] *)
Definition strip (s : pystr) : pystr := rstrip (lstrip s).

(** Lower-casing of one code point, on A-Z. [str.lower] also maps letters
    outside ASCII; of those only U+0130 and U+212A give text with an ASCII
    letter in it (i followed by U+0307, and k). The strings searched for in
    a lower-cased string below are ASCII, contain no k and do not end in i,
    so no match involves such a character and leaving the code points
    outside A-Z alone changes no result. *)
Definition lower_cp (c : N) : N :=
  if ((65 <=? c) && (c <=? 90))%N then (c + 32)%N else c.

(** [s.lower()] *)
Definition lower (s : pystr) : pystr := map lower_cp s.

Definition upper_cp (c : N) : N :=
  if ((97 <=? c) && (c <=? 122))%N then (c - 32)%N else c.

(** [s.upper()], on a-z. *)
Definition upper (s : pystr) : pystr := map upper_cp s.

(** A code point that is no ASCII letter. *)
Definition caseless (c : N) : bool :=
  negb ((65 <=? c) && (c <=? 90) || (97 <=? c) && (c <=? 122))%N.

(** [a == b] *)
Definition str_eqb (a b : pystr) : bool := bool_decide (a = b).

Fixpoint starts_with (p s : pystr) : bool :=
  match p, s with
  | [], _ => true
  | _ :: _, [] => false
  | a :: p', b :: s' => (a =? b)%N && starts_with p' s'
  end.

(** [needle in hay] *)
Fixpoint contains (needle hay : pystr) : bool :=
  starts_with needle hay ||
  match hay with
  | [] => false
  | _ :: t => contains needle t
  end.

(** [s.split(sep)] for a separator of one character: the source splits on
    the full-width bar and on the opening parenthesis only. *)
Fixpoint split_on (sep : N) (s : pystr) : list pystr :=
  match s with
  | [] => [[]]
  | c :: r =>
    if (c =? sep)%N then [] :: split_on sep r
    else match split_on sep r with
         | p :: ps => (c :: p) :: ps
         | [] => [[c]]
         end
  end.

(** [a > b]: code points compared from the left, a proper prefix is
    smaller. *)
Fixpoint str_gtb (a b : pystr) : bool :=
  match a, b with
  | [], _ => false
  | _ :: _, [] => true
  | x :: a', y :: b' =>
    if (x =? y)%N then str_gtb a' b' else (y <? x)%N
  end.

(** [x or "unknown"]-style default for an empty string. *)
Definition or_str (s d : pystr) : pystr :=
  match s with [] => d | _ => s end.

(** [str(n)] for a natural number. *)
Definition str_of_nat (n : nat) : pystr :=
  py (NilEmpty.string_of_uint (Nat.to_uint n)).

(** [str(z)] for an integer. *)
Definition str_of_Z (z : Z) : pystr :=
  py (NilEmpty.string_of_int (Z.to_int z)).

(* ================================================================== *)
(** * Failure classification *)
(* ================================================================== *)

Definition risk_markers : list pystr :=
  [ py "signin-error";
    py "let's try something else";
    py "we had trouble retrieving the email address";
    py "recaptcha challenge";
    py "send code button not found";
    py "code input not found";
    py "verification code submission failed";
    py "url parameters not found";
    py "cid not found" ].

Definition proxy_markers : list pystr :=
  [ py "err_proxy_connection_failed";
    py "err_tunnel_connection_failed";
    py "proxyerror";
    py "cannot connect to proxy";
    py "connection refused";
    py "connect timeout";
    py "read timed out";
    py "timed out";
    py "ssl";
    py "net::err_" ].

(** [for m in markers: if m in low: return m] *)
Definition first_marker (markers : list pystr) (low : pystr) : option pystr :=
  find (fun m => contains m low) markers.

(** The test of the mail branch. *)
Definition mail_hit (raw low : pystr) : bool :=
  contains (py "verification code timeout") low
  || contains (py "验证码超时") raw
  || contains (py "otp_timeout") low.

Definition classify_failure (error : pystr) : pystr * pystr :=
  let raw := strip error in
  let low := lower raw in
  match raw with
  | [] => (py "other", py "empty")
  | _ =>
    if mail_hit raw low then (py "mail", py "otp_timeout")
    else match first_marker risk_markers low with
         | Some m => (py "risk", m)
         | None =>
           match first_marker proxy_markers low with
           | Some m => (py "proxy", m)
           | None => (py "other", py "unknown")
           end
         end
  end.

(* ================================================================== *)
(** * Node scoring model *)
(* ================================================================== *)

(** Comparisons of floats as booleans. *)
Definition Rltb (a b : R) : bool := if Rlt_dec a b then true else false.
Definition Rgeb (a b : R) : bool := if Rge_dec a b then true else false.
Definition Rgtb (a b : R) : bool := if Rgt_dec a b then true else false.
Definition Reqb (a b : R) : bool := if Req_dec_T a b then true else false.

Definition SCORE_THRESHOLD : R := 10.
Definition REFRESH_IDLE_SECONDS : R := 21600.

Definition PENALTY_PREFLIGHT : R := 100.
Definition PENALTY_RISK : R := 60.
Definition PENALTY_PROXY : R := 30.
Definition PENALTY_MAIL : R := 5.

Definition BASE_BIAS : R := (-1.711)%R.

(** The literal weight tables, in the order they are written. *)
Definition KIND_W : list (pystr * R) :=
  [ (py "speednode", 1.874%R);
    (py "tagged", 1.102%R);
    (py "other", (-2.281)%R);
    (py "garbage", (-2.406)%R) ].

Definition LINE_W : list (pystr * R) :=
  [ (py "商宽", 1.889%R);
    (py "原生/疑似家宽", 0.452%R);
    (py "家宽", 0.295%R);
    (py "机房", (-1.534)%R) ].

Definition RISK_W : list (pystr * R) :=
  [ (py "高风险", (-1.281)%R);
    (py "低风险", 0.831%R);
    (py "非常安全", 1.552%R) ].

(** [table.get(key, dflt)] on a literal table. *)
Definition table_get (table : list (pystr * R)) (key : pystr) (dflt : R) : R :=
  match find (fun kv => str_eqb (fst kv) key) table with
  | Some kv => snd kv
  | None => dflt
  end.

Definition sigmoid (z : R) : R :=
  if Rge_dec z 0 then (1 / (1 + exp (- z)))%R
  else (exp z / (1 + exp z))%R.

(** U+FF5C, the delimiter of name segments, and the opening parenthesis. *)
Definition FULLWIDTH_BAR : N := 65372.
Definition LPAREN : N := 40.

(** [_parse_name]: node name to (kind, line, risk). *)
Definition parse_name (name : pystr) : pystr * pystr * pystr :=
  if contains (py "防范境外势力渗透") name then
    (py "garbage", py "garbage", py "garbage")
  else if contains (py "speednode") (lower name) then
    (py "speednode", py "speednode", py "unknown")
  else
    match split_on FULLWIDTH_BAR name with
    | _ :: p1 :: p2 :: _ =>
      let line := or_str (strip p1) (py "unknown") in
      let risk :=
        or_str (strip (hd [] (split_on LPAREN (strip p2)))) (py "unknown") in
      (py "tagged", line, risk)
    | _ => (py "other", py "unknown", py "unknown")
    end.

(** The argument of the logistic function for a parsed name. *)
Definition logit_of (tags : pystr * pystr * pystr) : R :=
  let '(kind, line, risk) := tags in
  let z := (BASE_BIAS + table_get KIND_W kind 0)%R in
  if str_eqb kind (py "tagged") then
    (z + table_get LINE_W line 0 + table_get RISK_W risk 0)%R
  else z.

(** [_base_score] *)
Definition base_score (name : pystr) : R :=
  (100 * sigmoid (logit_of (parse_name name)))%R.

(** [self._dyn_penalty.get(name, 0.0)] *)
Definition penalty_of (ledger : gmap pystr R) (name : pystr) : R :=
  default 0%R (ledger !! name).

(** [_score], on the ledger it reads. *)
Definition score_in (ledger : gmap pystr R) (name : pystr) : R :=
  (base_score name - penalty_of ledger name)%R.

(** The fixed penalty of a failure kind ([_apply_penalty]'s chain of tests). *)
Definition penalty_amount (kind : pystr) : R :=
  if str_eqb kind (py "preflight") then PENALTY_PREFLIGHT
  else if str_eqb kind (py "risk") then PENALTY_RISK
  else if str_eqb kind (py "proxy") then PENALTY_PROXY
  else if str_eqb kind (py "mail") then PENALTY_MAIL
  else PENALTY_RISK.

(* ================================================================== *)
(** * The world outside and the pool object *)
(* ================================================================== *)

#[local] Set Warnings "-register-all".

(** A decoded JSON document ([r.json()]). *)
Inductive json : Type :=
| JNull
| JBool (b : bool)
| JNum (r : R)
| JStr (s : pystr)
| JArr (items : list json)
| JObj (fields : gmap pystr json).

(** Calls that leave the process, in the order they were made (newest
    first). [EvPut] carries, besides the name sent, the score the caller
    holds for that name when it sends it; [EvRefresh] is the log line of
    an idle reset. *)
Inductive event : Type :=
| EvClock
| EvInit
| EvGetProxies
| EvPut (name : pystr) (score_then : R)
| EvProbe (url : pystr)
| EvRefresh.

(** How the outside answers a call, given the calls made before it. *)
Record environment : Type := {
  (** [time.monotonic()] *)
  env_monotonic : list event -> R;
  (** [fetch_provider(); start_mihomo()]: [Some e] when an exception
      escapes them. *)
  env_init : list event -> option pystr;
  (** [GET /proxies] with [raise_for_status] and [r.json()]: an exception
      or the decoded document. *)
  env_get_proxies : list event -> pystr + json;
  (** [PUT /proxies/POOL_ACTIVE] with [raise_for_status]. *)
  env_put : list event -> pystr -> option pystr;
  (** One probe of [url] through the proxy: an exception (type name and
      message) or the response's status code. *)
  env_probe : list event -> pystr -> (pystr * pystr) + Z
}.

(** [ProxyPoolSettings] *)
Record settings : Type := {
  enabled : bool;
  required : bool;
  chromego_ip : Z
}.

Inductive exn : Type :=
| NoCandidates                    (* "no proxy candidates in group" *)
| PoolExhausted (best_score : R)  (* "proxy pool exhausted: ..." *)
| UnexpectedResponse              (* "unexpected /proxies response" *)
| MissingProxiesObject            (* "unexpected /proxies format: ..." *)
| GroupNotFound                   (* "group not found: POOL_ACTIVE" *)
| BadGroupFormat                  (* "unexpected group format ..." *)
| MaxOfEmpty                      (* ValueError of max() on an empty list *)
| External (what : pystr).        (* raised by requests, subprocess, yaml *)

(** The mutable fields of a [ProxyPool], with the calls made so far. *)
Record pool : Type := {
  dyn_penalty : gmap pystr R;
  last_switch_ts : R;
  lock_held : bool;
  log : list event
}.

Definition set_ledger (m : gmap pystr R) (s : pool) : pool :=
  {| dyn_penalty := m; last_switch_ts := last_switch_ts s;
     lock_held := lock_held s; log := log s |}.

Definition set_switch_ts (t : R) (s : pool) : pool :=
  {| dyn_penalty := dyn_penalty s; last_switch_ts := t;
     lock_held := lock_held s; log := log s |}.

Definition set_lock (b : bool) (s : pool) : pool :=
  {| dyn_penalty := dyn_penalty s; last_switch_ts := last_switch_ts s;
     lock_held := b; log := log s |}.

Definition record_event (e : event) (s : pool) : pool :=
  {| dyn_penalty := dyn_penalty s; last_switch_ts := last_switch_ts s;
     lock_held := lock_held s; log := e :: log s |}.

(** [_score] *)
Definition score (s : pool) (name : pystr) : R := score_in (dyn_penalty s) name.

(** How a method call ends: it returns, an exception escapes, it waits
    for ever on the lock, or the loop bound of the model is reached. *)
Inductive result (A : Type) : Type :=
| Ret (a : A) (s : pool)
| Raise (e : exn) (s : pool)
| Blocked (s : pool)
| Fuel (s : pool).

Arguments Ret {A} a s.
Arguments Raise {A} e s.
Arguments Blocked {A} s.
Arguments Fuel {A} s.

Definition M (A : Type) : Type := pool -> result A.

Definition ret {A} (a : A) : M A := fun s => Ret a s.

Definition raise {A} (e : exn) : M A := fun s => Raise e s.

Definition bind {A B} (m : M A) (k : A -> M B) : M B :=
  fun s =>
    match m s with
    | Ret a s' => k a s'
    | Raise e s' => Raise e s'
    | Blocked s' => Blocked s'
    | Fuel s' => Fuel s'
    end.

Declare Scope pool_scope.
Delimit Scope pool_scope with pool.
Notation "x <- m ;; k" := (bind m (fun x => k))
  (at level 20, m at level 99, k at level 200, only parsing) : pool_scope.
Notation "m ;; k" := (bind m (fun _ => k))
  (at level 100, k at level 200, only parsing, right associativity) : pool_scope.
Local Open Scope pool_scope.

(** The pool a call leaves behind, however it ends. *)
Definition final {A} (r : result A) : pool :=
  match r with
  | Ret _ s | Raise _ s | Blocked s | Fuel s => s
  end.

(** [with self._lock: body]. The lock is not reentrant. *)
Definition with_lock {A} (body : M A) : M A :=
  fun s =>
    if lock_held s then Blocked s
    else
      match body (set_lock true s) with
      | Ret a s' => Ret a (set_lock false s')
      | Raise e s' => Raise e (set_lock false s')
      | Blocked s' => Blocked s'
      | Fuel s' => Fuel s'
      end.

Definition GROUP_NAME : pystr := py "POOL_ACTIVE".

Definition PREFLIGHT_URLS : list pystr :=
  [ py "https://www.gstatic.com/generate_204";
    py "https://auth.business.gemini.google/login?continueUrl=https://business.gemini.google/" ].

(** [all(isinstance(x, str) for x in items)], with the strings. *)
Fixpoint all_strings (items : list json) : option (list pystr) :=
  match items with
  | [] => Some []
  | JStr s :: r =>
    match all_strings r with
    | Some l => Some (s :: l)
    | None => None
    end
  | _ :: _ => None
  end.

(** The [alive] flag the controller reports for a node, if any. *)
Definition alive_of (proxies : gmap pystr json) (n : pystr) : option bool :=
  match proxies !! n with
  | Some (JObj obj) =>
    match obj !! py "alive" with
    | Some (JBool b) => Some b
    | _ => None
    end
  | _ => None
  end.

Definition is_sentinel (n : pystr) : bool :=
  str_eqb n (py "DIRECT") || str_eqb n (py "REJECT").

(** [alive_map.get(n)] *)
Definition alive_get (alive_map : gmap pystr (option bool)) (n : pystr) : option bool :=
  default None (alive_map !! n).

(** The part of [_get_group] after the document is fetched. *)
Definition parse_group (proxies_json : gmap pystr json)
  : exn + (option pystr * list pystr * gmap pystr (option bool)) :=
  match default (JObj ∅) (proxies_json !! py "proxies") with
  | JObj proxies =>
    match proxies !! GROUP_NAME with
    | Some (JObj g) =>
      let now := match g !! py "now" with Some (JStr n) => Some n | _ => None end in
      match default (JArr []) (g !! py "all") with
      | JArr items =>
        match all_strings items with
        | Some all_list =>
          let candidates := List.filter (fun n => negb (is_sentinel n)) all_list in
          let alive_map :=
            fold_left (fun m n => <[n := alive_of proxies n]> m) candidates ∅ in
          inr (now, candidates, alive_map)
        | None => inl BadGroupFormat
        end
      | _ => inl BadGroupFormat
      end
    | _ => inl GroupNotFound
    end
  | _ => inl MissingProxiesObject
  end.

(** [usable = [n for n in candidates if alive_map.get(n) is not False]],
    kept when it is not empty. *)
Definition restrict_usable (candidates : list pystr)
    (alive_map : gmap pystr (option bool)) : list pystr :=
  match List.filter (fun n => negb (bool_decide (alive_get alive_map n = Some false)))
                    candidates with
  | [] => candidates
  | usable => usable
  end.

Definition alive_rank (v : option bool) : Z :=
  match v with Some true => 2%Z | _ => 1%Z end.

(** [k1 > k2] on the tuples (rank, score, name): the first component that
    differs decides. *)
Definition key_gtb (k1 k2 : Z * R * pystr) : bool :=
  let '(r1, s1, n1) := k1 in
  let '(r2, s2, n2) := k2 in
  if negb (r1 =? r2)%Z then (r2 <? r1)%Z
  else if negb (Reqb s1 s2) then Rgtb s1 s2
  else str_gtb n1 n2.

(** The key of the best pick. *)
Definition rank_key (ledger : gmap pystr R) (alive_map : gmap pystr (option bool))
    (n : pystr) : Z * R * pystr :=
  (alive_rank (alive_get alive_map n), score_in ledger n, n).

(** [max(items, key=key)]: the first item no later one beats. *)
Fixpoint max_from (key : pystr -> Z * R * pystr) (best : pystr) (rest : list pystr) : pystr :=
  match rest with
  | [] => best
  | x :: r => max_from key (if key_gtb (key x) (key best) then x else best) r
  end.

Definition py_max (key : pystr -> Z * R * pystr) (items : list pystr) : option pystr :=
  match items with
  | [] => None
  | x :: r => Some (max_from key x r)
  end.

(** [best = max(candidates, key=...)] *)
Definition best_candidate (ledger : gmap pystr R) (alive_map : gmap pystr (option bool))
    (candidates : list pystr) : option pystr :=
  py_max (rank_key ledger alive_map) candidates.

(** [d.setdefault(n, 0.0)] *)
Definition setdefault (n : pystr) (m : gmap pystr R) : gmap pystr R :=
  match m !! n with
  | Some _ => m
  | None => <[n := 0%R]> m
  end.

(** [any(v > 0 for v in d.values())] *)
Definition any_positive (m : gmap pystr R) : bool :=
  existsb (fun kv => Rgtb (snd kv) 0) (map_to_list m).

(** [bool(now)] for the current selection. *)
Definition truthy (now : option pystr) : bool :=
  match now with
  | Some (_ :: _) => true
  | _ => false
  end.

Definition in_list (n : pystr) (l : list pystr) : bool := existsb (str_eqb n) l.

(* ================================================================== *)
(** * The engine *)
(* ================================================================== *)

Section Engine.

Variable E : environment.
Variable cfg : settings.

(** [self._last_switch_ts = time.monotonic()] *)
Definition touch_switch_ts : M unit :=
  fun s => Ret tt (set_switch_ts (env_monotonic E (log s)) (record_event EvClock s)).

(** [_maybe_refresh_dynamic] *)
Definition maybe_refresh_dynamic : M unit :=
  fun s =>
    let idle := (env_monotonic E (log s) - last_switch_ts s)%R in
    let s1 := record_event EvClock s in
    if Rltb idle REFRESH_IDLE_SECONDS then Ret tt s1
    else if negb (any_positive (dyn_penalty s1)) then touch_switch_ts s1
    else
      (touch_switch_ts ;; (fun s3 => Ret tt (record_event EvRefresh s3)))
        (set_ledger ((fun _ => 0%R) <$> dyn_penalty s1) s1).

(** [ensure_started]; what [fetch_provider] and [start_mihomo] do to the
    file system and the child process is the environment's. *)
Definition ensure_started : M unit :=
  if negb (enabled cfg) then ret tt
  else
    with_lock (fun s =>
      let s' := record_event EvInit s in
      match env_init E (log s) with
      | None => Ret tt s'
      | Some e => if required cfg then Raise (External e) s' else Ret tt s'
      end).

(** [_get_proxies] *)
Definition get_proxies : M (gmap pystr json) :=
  fun s =>
    let s' := record_event EvGetProxies s in
    match env_get_proxies E (log s) with
    | inl e => Raise (External e) s'
    | inr (JObj obj) => Ret obj s'
    | inr _ => Raise UnexpectedResponse s'
    end.

(** [_get_group] *)
Definition get_group : M (option pystr * list pystr * gmap pystr (option bool)) :=
  proxies_json <- get_proxies ;;
  match parse_group proxies_json with
  | inl e => raise e
  | inr g => ret g
  end.

(** [_select_group] *)
Definition select_group (name : pystr) : M unit :=
  fun s =>
    let s' := record_event (EvPut name (score s name)) s in
    match env_put E (log s) name with
    | None => Ret tt s'
    | Some e => Raise (External e) s'
    end.

(** Whether a probe's answer counts as reachable. *)
Definition status_ok (status : Z) : bool :=
  negb (status =? 407)%Z && (200 <=? status)%Z && (status <? 400)%Z.

(** The detail string of a probe's answer. *)
Definition probe_detail (url : pystr) (answer : (pystr * pystr) + Z) : pystr :=
  match answer with
  | inl (ty, msg) => url ++ py ": " ++ ty ++ py ": " ++ msg
  | inr status =>
    if (status =? 407)%Z then url ++ py ": proxy auth required (407)"
    else url ++ py ": " ++ str_of_Z status
  end.

(** Whether a probe's answer passes. *)
Definition probe_passes (answer : (pystr * pystr) + Z) : bool :=
  match answer with
  | inl _ => false
  | inr status => status_ok status
  end.

(** [_probe_once] *)
Definition probe_once (url : pystr) : M (bool * pystr) :=
  fun s =>
    let answer := env_probe E (log s) url in
    Ret (probe_passes answer, probe_detail url answer) (record_event (EvProbe url) s).

(** The loop of [_preflight] over the URLs still to probe. *)
Fixpoint preflight_from (urls : list pystr) (details : list pystr)
  : M (bool * list pystr) :=
  match urls with
  | [] => ret (true, details)
  | u :: rest =>
    r <- probe_once u ;;
    let details := details ++ [snd r] in
    if fst r then preflight_from rest details else ret (false, details)
  end.

(** [_preflight] *)
Definition preflight : M (bool * list pystr) := preflight_from PREFLIGHT_URLS [].

(** [_apply_penalty] *)
Definition apply_penalty (name kind detail : pystr) : M unit :=
  fun s =>
    Ret tt (set_ledger
              (<[name := (penalty_of (dyn_penalty s) name + penalty_amount kind)%R]>
                 (dyn_penalty s)) s).

(** [for n in candidates: self._dyn_penalty.setdefault(n, 0.0)] *)
Definition setdefault_all (candidates : list pystr) : M unit :=
  fun s =>
    Ret tt (set_ledger (fold_left (fun m n => setdefault n m) candidates (dyn_penalty s)) s).

(** The sticky check of one round. [true]: the method returns. *)
Definition sticky_check (now : option pystr) (candidates : list pystr) : M bool :=
  fun s =>
    match now with
    | Some n =>
      if truthy now && in_list n candidates && Rgeb (score s n) SCORE_THRESHOLD then
        (r <- preflight ;;
         if fst r then ret true
         else apply_penalty n (py "preflight") (hd [] (snd r)) ;; ret false) s
      else Ret false s
    | None => Ret false s
    end.

(** The rest of a round: best pick, threshold, switch, preflight.
    [Some now]: the method returns holding [now]; [None]: next round. *)
Definition switch_and_probe (now : option pystr) (candidates : list pystr)
    (alive_map : gmap pystr (option bool)) : M (option (option pystr)) :=
  fun s =>
    match best_candidate (dyn_penalty s) alive_map candidates with
    | None => Raise MaxOfEmpty s
    | Some best =>
      let best_score := score s best in
      if Rltb best_score SCORE_THRESHOLD then Raise (PoolExhausted best_score) s
      else
        (now' <- (if bool_decide (Some best = now) then ret now
                  else select_group best ;; touch_switch_ts ;; ret (Some best)) ;;
         r <- preflight ;;
         if fst r then ret (Some now')
         else
           match now' with
           | Some n =>
             if truthy now' then apply_penalty n (py "preflight") (hd [] (snd r)) ;; ret None
             else ret None
           | None => ret None
           end) s
    end.

(** The [while True] of [ensure_proxy_reachable], at most [fuel] rounds.
    It returns the selection it holds when the method returns. *)
Fixpoint ensure_loop (fuel : nat) : M (option pystr) :=
  match fuel with
  | O => fun s => Fuel s
  | S fuel' =>
    g <- get_group ;;
    let '(now, candidates, alive_map) := g in
    match candidates with
    | [] => raise NoCandidates
    | _ :: _ =>
      setdefault_all candidates ;;
      let candidates := restrict_usable candidates alive_map in
      stuck <- sticky_check now candidates ;;
      if (stuck : bool) then ret now
      else
        r <- switch_and_probe now candidates alive_map ;;
        match r with
        | Some held => ret held
        | None => ensure_loop fuel'
        end
    end
  end.

(** [ensure_proxy_reachable] *)
Definition ensure_proxy_reachable (fuel : nat) : M unit :=
  if negb (enabled cfg) then ret tt
  else
    ensure_started ;;
    with_lock (maybe_refresh_dynamic ;; _ <- ensure_loop fuel ;; ret tt).

(** [on_failure] *)
Definition on_failure (fuel : nat) (kind detail : pystr) : M unit :=
  if negb (enabled cfg) then ret tt
  else
    ensure_started ;;
    returned <- with_lock
      (g <- get_group ;;
       let '(now, _, _) := g in
       match now with
       | Some n =>
         if truthy now then apply_penalty n kind detail ;; ret false
         else ensure_proxy_reachable fuel ;; ret true
       | None => ensure_proxy_reachable fuel ;; ret true
       end) ;;
    if (returned : bool) then ret tt else ensure_proxy_reachable fuel.

End Engine.

(* ================================================================== *)
(** * Provider ingestion: the de-duplication of [fetch_provider] *)
(* ================================================================== *)

(** The values [yaml.safe_load] produces, with the Python built-ins the
    loop applies to them. A node configuration is a [dict] from keys to
    such values. *)
Class YamlValue (yval : Type) : Type := {
  (** [bool(v)] *)
  yval_truthy : yval -> bool;
  (** [str(v)] *)
  yval_str : yval -> pystr;
  (** The value that is the string [s]. *)
  yval_of_str : pystr -> yval;
  (** [json.dumps(cfg, sort_keys=True, ensure_ascii=True, separators=...)];
      [None] when it raises. *)
  json_dumps : gmap pystr yval -> option pystr
}.

Section Ingestion.

Context {yval : Type} `{YamlValue yval}.

(** [str(cfg.get("name") or "").rstrip()] *)
Definition entry_name (p : gmap pystr yval) : pystr :=
  rstrip match p !! py "name" with
         | Some v => if yval_truthy v then yval_str v else []
         | None => []
         end.

(** The fingerprint of an entry: its configuration without the name. *)
Definition fingerprint (p : gmap pystr yval) : option pystr :=
  json_dumps (delete (py "name") p).

Record dedup_acc : Type := {
  seen_fp : gset pystr;
  name_seen : gmap pystr nat;
  out : list (gmap pystr yval)
}.

Definition dedup_init : dedup_acc :=
  {| seen_fp := ∅; name_seen := ∅; out := [] |}.

(** One round of [for p in merged]. *)
Definition dedup_step (acc : dedup_acc) (p : gmap pystr yval) : option dedup_acc :=
  let name := entry_name p in
  match name with
  | [] => Some acc
  | _ :: _ =>
    match fingerprint p with
    | None => None
    | Some fp =>
      if bool_decide (fp ∈ seen_fp acc) then Some acc
      else
        let seen := {[ fp ]} ∪ seen_fp acc in
        match name_seen acc !! name with
        | Some k =>
          let k' := S k in
          let name' := name ++ py "__dup" ++ str_of_nat k' in
          Some {| seen_fp := seen;
                  name_seen := <[name := k']> (name_seen acc);
                  out := out acc ++ [<[py "name" := yval_of_str name']> p] |}
        | None =>
          Some {| seen_fp := seen;
                  name_seen := <[name := O]> (name_seen acc);
                  out := out acc ++ [<[py "name" := yval_of_str name]> p] |}
        end
    end
  end.

Fixpoint dedup_from (acc : dedup_acc) (merged : list (gmap pystr yval)) : option dedup_acc :=
  match merged with
  | [] => Some acc
  | p :: rest =>
    match dedup_step acc p with
    | Some acc' => dedup_from acc' rest
    | None => None
    end
  end.

(** The list written under [proxies], [None] when [json.dumps] raised. *)
Definition dedup (merged : list (gmap pystr yval)) : option (list (gmap pystr yval)) :=
  out <$> dedup_from dedup_init merged.

(** The [name] fields of a list of entries. *)
Definition names_of (entries : list (gmap pystr yval)) : list (option yval) :=
  map (fun p => p !! py "name") entries.

End Ingestion.

(* ================================================================== *)
(** * Rational enclosures of the exponential *)
(* ================================================================== *)

(** Fixed-point numbers with thirty decimals, to bracket [exp] by repeated
    squaring of [1 - y <= exp (- y) <= 1 / (1 + y)]. *)
Definition FX : Z := (10 ^ 30)%Z.

Definition sq_down (a : Z) : Z := (a * a / FX)%Z.

Definition sq_up (b : Z) : Z := ((b * b + FX - 1) / FX)%Z.

Fixpoint iter_sq (f : Z -> Z) (k : nat) (a : Z) : Z :=
  match k with
  | O => a
  | S k' => iter_sq f k' (f a)
  end.

(** A lower and an upper bound of [FX * exp (- num / den)], by [k]
    squarings. *)
Definition exp_neg_lo (num den : Z) (k : nat) : Z :=
  let d := (den * 2 ^ Z.of_nat k)%Z in
  iter_sq sq_down k (FX * (d - num) / d)%Z.

Definition exp_neg_hi (num den : Z) (k : nat) : Z :=
  let d := (den * 2 ^ Z.of_nat k)%Z in
  iter_sq sq_up k ((FX * d + (d + num) - 1) / (d + num))%Z.

(* ================================================================== *)
(** * Predicates and instances used in the statements *)
(* ================================================================== *)

(** No entry of the ledger is negative. *)
Definition ledger_nonneg (m : gmap pystr R) : Prop :=
  forall k v, m !! k = Some v -> (0 <= v)%R.

(** Every entry of the ledger is exactly zero. *)
Definition ledger_all_zero (m : gmap pystr R) : Prop :=
  forall k v, m !! k = Some v -> v = 0%R.

(** The number of idle resets among the calls made. *)
Definition count_refresh (l : list event) : nat :=
  List.length (List.filter (fun e => match e with EvRefresh => true | _ => false end) l).

(** The switch calls among the calls made, oldest first, each with the
    score held for its target. *)
Definition puts_of (l : list event) : list (pystr * R) :=
  rev (flat_map (fun e => match e with EvPut n sc => [(n, sc)] | _ => [] end) l).

(** The URLs probed among the calls made, oldest first. *)
Definition probes_of (l : list event) : list pystr :=
  rev (flat_map (fun e => match e with EvProbe u => [u] | _ => [] end) l).

(** A pool as [__init__] leaves it, with the clock value it read. *)
Definition new_pool (t0 : R) : pool :=
  {| dyn_penalty := ∅; last_switch_ts := t0; lock_held := false; log := [] |}.

(** The [/proxies] document of a controller whose group holds [all] with
    [now] selected, and that reports the given liveness flags. *)
Definition group_doc (now : option pystr) (all : list pystr)
    (flags : list (pystr * bool)) : json :=
  let group :=
    JObj (<[py "all" := JArr (map JStr all)]>
            (match now with
             | Some n => {[ py "now" := JStr n ]}
             | None => {[ py "now" := JNull ]}
             end)) in
  let nodes :=
    fold_right (fun nb m => <[fst nb := JObj {[ py "alive" := JBool (snd nb) ]}]> m)
               ∅ flags in
  JObj {[ py "proxies" := JObj (<[GROUP_NAME := group]> nodes) ]}.

(** An environment whose controller always answers with [doc], whose
    probes all answer [status], whose switch calls succeed, whose start-up
    succeeds, and whose clock reads [clock]. *)
Definition steady_env (clock : list event -> R) (doc : json) (status : Z) : environment :=
  {| env_monotonic := clock;
     env_init := fun _ => None;
     env_get_proxies := fun _ => inr doc;
     env_put := fun _ _ => None;
     env_probe := fun _ _ => inr status |}.

Definition pool_on : settings :=
  {| enabled := true; required := true; chromego_ip := 0 |}.

(** The calls made once the first [i] of [urls] have been probed, starting
    from the calls [h]. *)
Definition probe_hist (urls : list pystr) (i : nat) (h : list event) : list event :=
  rev (map EvProbe (take i urls)) ++ h.

(** A relation between the pool before and the pool after that every step
    of the engine respects: it is a preorder; it holds across recording a
    call (a switch call only for a target at or above the threshold),
    across setting the timer or the lock, across a ledger update that
    lowers no penalty, and across an idle reset with its log line. *)
Record step_relation (Rel : pool -> pool -> Prop) : Prop := {
  sr_refl : forall s, Rel s s;
  sr_trans : forall s1 s2 s3, Rel s1 s2 -> Rel s2 s3 -> Rel s1 s3;
  sr_event : forall s e,
    (forall n sc, e <> EvPut n sc) -> e <> EvRefresh -> Rel s (record_event e s);
  sr_put : forall s n sc,
    (SCORE_THRESHOLD <= sc)%R -> Rel s (record_event (EvPut n sc) s);
  sr_ts : forall s t, Rel s (set_switch_ts t s);
  sr_lock : forall s b, Rel s (set_lock b s);
  sr_grow : forall s m',
    (forall n, (penalty_of (dyn_penalty s) n <= penalty_of m' n)%R) ->
    Rel s (set_ledger m' s);
  sr_reset : forall s t,
    Rel s (record_event EvRefresh
             (set_switch_ts t
                (record_event EvClock
                   (set_ledger ((fun _ => 0%R) <$> dyn_penalty s) s))))
}.

(** No penalty is lower afterwards, unless an idle reset was logged in
    between. *)
Definition penalties_grow (s s' : pool) : Prop :=
  (count_refresh (log s) <= count_refresh (log s'))%nat
  /\ (count_refresh (log s) = count_refresh (log s') ->
      forall n, (penalty_of (dyn_penalty s) n <= penalty_of (dyn_penalty s') n)%R).

(** A switch call is acceptable when its target scored at least the
    threshold when it was made. *)
Definition event_ok (e : event) : Prop :=
  match e with
  | EvPut _ sc => (SCORE_THRESHOLD <= sc)%R
  | _ => True
  end.

(** The calls made in between are all acceptable. *)
Definition switches_ok (s s' : pool) : Prop :=
  exists new, log s' = new ++ log s /\ Forall event_ok new.

(** Non-negativity of the ledger is kept. *)
Definition keeps_nonneg (s s' : pool) : Prop :=
  ledger_nonneg (dyn_penalty s) -> ledger_nonneg (dyn_penalty s').

(** The calls a client makes on the pool. *)
Inductive call : Type :=
| CallOnFailure (kind detail : pystr)
| CallApplyPenalty (name kind detail : pystr)
| CallEnsureReachable.

Definition run_call (E : environment) (cfg : settings) (fuel : nat) (c : call) : M unit :=
  match c with
  | CallOnFailure kind detail => on_failure E cfg fuel kind detail
  | CallApplyPenalty name kind detail => apply_penalty name kind detail
  | CallEnsureReachable => ensure_proxy_reachable E cfg fuel
  end.

(** The pool after a sequence of calls; a caller goes on after a call
    that returned or raised. *)
Fixpoint run_calls (E : environment) (cfg : settings) (fuel : nat)
    (calls : list call) (s : pool) : pool :=
  match calls with
  | [] => s
  | c :: rest =>
    match run_call E cfg fuel c s with
    | Ret _ s' | Raise _ s' => run_calls E cfg fuel rest s'
    | Blocked s' | Fuel s' => s'
    end
  end.

(** Every run of [m] relates the pool it starts from to the one it
    leaves. *)
Definition preserves {A} (Rel : pool -> pool -> Prop) (m : M A) : Prop :=
  forall s, Rel s (final (m s)).

(** The fields of a JSON object. *)
Definition doc_fields (j : json) : gmap pystr json :=
  match j with
  | JObj m => m
  | _ => ∅
  end.

(** Two node names for the examples: a tagged 商宽 / 低风险 node and a
    tagged 机房 / 高风险 node. *)
Definition node_A : pystr := py "A｜商宽｜低风险".
Definition node_B : pystr := py "B｜机房｜高风险".

(** A controller with [node_A] selected among [node_A] and [node_B], the
    first reported alive; every probe answers 204. *)
Definition env_A_selected : environment :=
  steady_env (fun _ => 0%R)
    (group_doc (Some node_A) [node_A; node_B] [(node_A, true)]) 204.

(** A controller with nothing selected and [node_A] as its one candidate;
    every probe answers 204. *)
Definition env_none_selected : environment :=
  steady_env (fun _ => 0%R) (group_doc None [node_A] []) 204.

(** An instance of the ingestion model in which every value is a string:
    [bool(v)] is non-emptiness, [str(v)] the string itself, and the
    serialisation lists the items in key order. *)
Definition text_truthy (v : pystr) : bool :=
  match v with [] => false | _ :: _ => true end.

Definition text_dumps (cfg : gmap pystr pystr) : option pystr :=
  Some (flat_map (fun kv => fst kv ++ py ":" ++ snd kv ++ py ",") (map_to_list cfg)).

#[export] Instance text_yaml : YamlValue pystr :=
  {| yval_truthy := text_truthy;
     yval_str := fun v => v;
     yval_of_str := fun s => s;
     json_dumps := text_dumps |}.

(** A node configuration named "X". *)
Definition entry_X : gmap pystr pystr :=
  <[py "name" := py "X"]> (<[py "server" := py "198.51.100.7"]> (<[py "port" := py "443"]> ∅)).

(** The same server under the name "X" on another port. *)
Definition entry_X_other : gmap pystr pystr :=
  <[py "name" := py "X"]> (<[py "server" := py "198.51.100.7"]> (<[py "port" := py "8443"]> ∅)).

(* ================================================================== *)
(** * Further definitions: the code around the claims *)
(* ================================================================== *)

(** The number of occurrences of one character in a string. *)
Definition count_cp (c : N) (s : pystr) : nat :=
  List.length (List.filter (fun x => (x =? c)%N) s).

(** The marker of banned-content node names. *)
Definition GARBAGE_MARK : pystr := py "防范境外势力渗透".

(** The names of [u] that score at least the threshold. *)
Definition eligible (ledger : gmap pystr R) (u : list pystr) : nat :=
  List.length (List.filter (fun n => Rgeb (score_in ledger n) SCORE_THRESHOLD) u).

(** The call returned or raised: it neither waits on the lock nor is cut
    by the round bound. *)
Definition settles {A} (r : result A) : Prop :=
  match r with
  | Ret _ _ | Raise _ _ => True
  | Blocked _ | Fuel _ => False
  end.

(** Every group the controller reports draws its candidates from [u]. *)
Definition reports_within (E : environment) (u : list pystr) : Prop :=
  forall l obj now cands am,
    env_get_proxies E l = inr (JObj obj) ->
    parse_group obj = inr (now, cands, am) ->
    incl cands u.

(** The calls [l] end with a complete preflight, every probe of which was
    answered with a status from 200 to 399. *)
Definition ends_with_passed_preflight (E : environment) (l : list event) : Prop :=
  exists h,
    l = probe_hist PREFLIGHT_URLS (length PREFLIGHT_URLS) h
    /\ forall i u, PREFLIGHT_URLS !! i = Some u ->
         exists status,
           env_probe E (probe_hist PREFLIGHT_URLS i h) u = inr status
           /\ (200 <= status < 400)%Z.

(** The sum of a list of floats. *)
Definition sum_R (l : list R) : R := fold_right Rplus 0%R l.

(** The failure branch of the loop of [_register_one], on an enabled
    pool: [err = str(result.get("error") or "automation failed")], then
    [classify_failure(err)] and [pool.on_failure(kind, detail)]. *)
Definition report_failure (E : environment) (cfg : settings) (fuel : nat)
    (error : pystr) : M unit :=
  let err := or_str error (py "automation failed") in
  let '(kind, detail) := classify_failure err in
  on_failure E cfg fuel kind detail.

(** The name under which an entry is written when [k] entries of its
    name [x] were written before it. *)
Definition dup_name (x : pystr) (k : nat) : pystr :=
  match k with
  | O => x
  | S _ => x ++ py "__dup" ++ str_of_nat k
  end.

Section IngestionStatements.

Context {yval : Type} `{YamlValue yval}.

(** How many entries of [l] carry the name [x]. *)
Definition count_named (x : pystr) (l : list (gmap pystr yval)) : nat :=
  length (List.filter (fun q => bool_decide (entry_name q = x)) l).

(** What the loop of the de-duplication maintains, with [kept] the entries
    written so far as they were fetched. *)
Definition dedup_inv (acc : dedup_acc) (kept : list (gmap pystr yval)) : Prop :=
  length (out acc) = length kept
  /\ (forall i p, kept !! i = Some p ->
        out acc !! i
        = Some (<[py "name" :=
                    yval_of_str (dup_name (entry_name p)
                                   (count_named (entry_name p) (take i kept)))]> p))
  /\ (forall x, name_seen acc !! x
                = match count_named x kept with O => None | S k => Some k end)
  /\ (forall p, p ∈ kept -> entry_name p <> [])
  /\ exists fps,
       fingerprint <$> kept = Some <$> fps
       /\ NoDup fps
       /\ forall fp, fp ∈ seen_fp acc <-> fp ∈ fps.

End IngestionStatements.

(** A third server, fetched under the name "X__dup1". *)
Definition entry_X_dup1 : gmap pystr pystr :=
  <[py "name" := py "X__dup1"]>
    (<[py "server" := py "198.51.100.7"]> (<[py "port" := py "9443"]> ∅)).

(* ================================================================== *)
(** * Further definitions: configuration and the provider fetch *)
(* ================================================================== *)

(** [ProxyPool.from_config], on the three attributes of [config.basic]
    ([None]: the attribute is missing), which hold a bool, a bool and an
    int. *)
Definition from_config (enabled_attr required_attr : option bool)
    (ip_attr : option Z) : settings :=
  let ip := default 0%Z ip_attr in
  {| enabled := default false enabled_attr;
     required := default true required_attr;
     chromego_ip := if (ip <? 0)%Z || (6 <? ip)%Z then 0%Z else ip |}.

(** The sources [fetch_provider] merges. *)
Definition provider_ips (cfg : settings) : list Z :=
  if (chromego_ip cfg =? 0)%Z then [1; 2; 3; 4; 5; 6]%Z else [chromego_ip cfg].

Definition PROVIDER_REFRESH_MIN_SECONDS : R := 21600.

(** The type tests the fetch applies to what [yaml.safe_load] returns. *)
Class YamlShape (yval : Type) : Type := {
  (** [v] as a mapping, when [isinstance(v, dict)] *)
  yval_as_dict : yval -> option (gmap pystr yval);
  (** [v] as a sequence, when [isinstance(v, list)] *)
  yval_as_list : yval -> option (list yval)
}.

Section ProviderFetch.

Context {yval : Type} `{YamlValue yval} `{YamlShape yval}.

(** What [fetch_provider] meets outside the process. *)
Record provider_env : Type := {
  (** [_ensure_dirs()]: [Some e] when it raises. *)
  pe_ensure_dirs : option pystr;
  (** The cache check: [None] when the provider file does not exist,
      [Some None] when looking at it raises, [Some (Some age)] with
      [age = time.time() - st_mtime] otherwise. *)
  pe_cache : option (option R);
  (** [_run_cgpool_fetch(ip, ...)] and the [yaml.safe_load] of what it
      wrote: an exception or the loaded document. *)
  pe_fetch : Z -> pystr + yval;
  (** [out_path.exists()] in the exception handler. *)
  pe_cached_after : bool;
  (** Writing the provider file: [Some e] when it raises. *)
  pe_write : list (gmap pystr yval) -> option pystr
}.

Inductive provider_exn : Type :=
| ProviderError (e : pystr)   (* raised outside: file system, subprocess, yaml *)
| NoProxiesFetched            (* "no proxies fetched from chromego sources" *)
| DumpsError.                 (* raised by json.dumps *)

(** How [fetch_provider] ends. *)
Inductive provider_outcome : Type :=
| CacheHit                              (* the fresh provider file is kept, nothing fetched *)
| KeptCache (e : pystr)                 (* a fetch failed, the existing file is kept *)
| ProviderRaised (e : provider_exn)
| Written (entries : list (gmap pystr yval)).

(** [age >= 0 and age < PROVIDER_REFRESH_MIN_SECONDS], inside its
    [try ... except: pass]. *)
Definition cache_is_fresh (pe : provider_env) : bool :=
  match pe_cache pe with
  | Some (Some age) => Rgeb age 0 && Rltb age PROVIDER_REFRESH_MIN_SECONDS
  | _ => false
  end.

(** The entries one loaded document adds to [merged]. *)
Definition provider_entries (data : yval) : list (gmap pystr yval) :=
  (* data = yaml.safe_load(f) or {} *)
  match (if yval_truthy data then yval_as_dict data else Some ∅) with
  | Some d =>
    match d !! py "proxies" with
    | Some v =>
      match yval_as_list v with
      | Some items => omap yval_as_dict items
      | None => []
      end
    | None => []
    end
  | None => []
  end.

(** [for ip in ips] inside the [try]: the sources fetched, with the
    merged entries or the exception that ended the loop. *)
Fixpoint fetch_sources (pe : provider_env) (ips : list Z)
    (merged : list (gmap pystr yval))
  : list Z * (pystr + list (gmap pystr yval)) :=
  match ips with
  | [] => ([], inr merged)
  | ip :: rest =>
    match pe_fetch pe ip with
    | inl e => ([ip], inl e)
    | inr data =>
      let '(fetched, r) := fetch_sources pe rest (merged ++ provider_entries data) in
      (ip :: fetched, r)
    end
  end.

(** [fetch_provider]: the sources fetched and the outcome. *)
Definition fetch_provider (cfg : settings) (pe : provider_env)
  : list Z * provider_outcome :=
  match pe_ensure_dirs pe with
  | Some e => ([], ProviderRaised (ProviderError e))
  | None =>
    if cache_is_fresh pe then ([], CacheHit)
    else
      let '(fetched, r) := fetch_sources pe (provider_ips cfg) [] in
      (fetched,
       match r with
       | inl e =>
         if pe_cached_after pe then KeptCache e else ProviderRaised (ProviderError e)
       | inr [] => ProviderRaised NoProxiesFetched
       | inr merged =>
         match dedup merged with
         | None => ProviderRaised DumpsError
         | Some entries =>
           match pe_write pe entries with
           | Some e => ProviderRaised (ProviderError e)
           | None => Written entries
           end
         end
       end)
  end.

(** The entries source [ip] contributes. *)
Definition source_entries (pe : provider_env) (ip : Z) : list (gmap pystr yval) :=
  match pe_fetch pe ip with
  | inr data => provider_entries data
  | inl _ => []
  end.

End ProviderFetch.

(* ================================================================== *)
(** * Further definitions: the registration loop that drives the pool *)
(* ================================================================== *)

(** What [_register_one] meets besides the pool, given the calls made so
    far. *)
Record register_env : Type := {
  (** [client.register_account(domain=domain)] *)
  re_mail : list event -> bool;
  (** One automation attempt: [None] when [result.get("success")],
      otherwise the text of [result.get("error")], empty when there is
      none. *)
  re_automation : list event -> option pystr
}.

(** The dictionaries [_register_one] returns, up to the pool's part. *)
Inductive register_result : Type :=
| RegSuccess
| RegMailFailed                    (* "duckmail register failed" *)
| RegAutomationFailed (err : pystr)
| RegPoolUnavailable (e : exn)     (* "proxy pool unavailable: ..." *)
| RegPoolExhausted (e : exn).      (* "proxy pool exhausted: ..." *)

(** The [while True] of [_register_one] with a pool, at most [attempts]
    automation attempts. *)
Fixpoint register_loop (E : environment) (cfg : settings) (W : register_env)
    (fuel attempts : nat) : M register_result :=
  match attempts with
  | O => fun s => Fuel s
  | S attempts' =>
    fun s =>
      match ensure_proxy_reachable E cfg fuel s with
      | Raise e s1 => Ret (RegPoolUnavailable e) s1
      | Blocked s1 => Blocked s1
      | Fuel s1 => Fuel s1
      | Ret _ s1 =>
        match re_automation W (log s1) with
        | None => Ret RegSuccess s1
        | Some err =>
          match report_failure E cfg fuel err s1 with
          | Raise e s2 => Ret (RegPoolExhausted e) s2
          | Blocked s2 => Blocked s2
          | Fuel s2 => Fuel s2
          | Ret _ s2 => register_loop E cfg W fuel attempts' s2
          end
        end
      end
  end.

(** [_register_one], up to the first success of the automation. *)
Definition register_one (E : environment) (cfg : settings) (W : register_env)
    (fuel attempts : nat) : M register_result :=
  fun s =>
    if enabled cfg then
      match ensure_proxy_reachable E cfg fuel s with
      | Raise e s1 => Ret (RegPoolUnavailable e) s1
      | Blocked s1 => Blocked s1
      | Fuel s1 => Fuel s1
      | Ret _ s1 =>
        if re_mail W (log s1) then register_loop E cfg W fuel attempts s1
        else Ret RegMailFailed s1
      end
    else if re_mail W (log s) then
      match re_automation W (log s) with
      | None => Ret RegSuccess s
      | Some err => Ret (RegAutomationFailed (or_str err (py "automation failed"))) s
      end
    else Ret RegMailFailed s.

(** The node a controller holds selected after the calls [l], when it
    started with [now0] and follows the switch calls it accepts. *)
Fixpoint reported_now (E : environment) (now0 : option pystr) (l : list event)
  : option pystr :=
  match l with
  | [] => now0
  | EvPut n _ :: l' =>
    match env_put E l' n with
    | None => Some n
    | Some _ => reported_now E now0 l'
    end
  | _ :: l' => reported_now E now0 l'
  end.

(** The controller follows the switch calls: whenever it answers with a
    group, the group's [now] is the target of the last switch call it
    accepted, and its candidates are names of [u]. *)
Definition controller_follows (E : environment) (now0 : option pystr)
    (u : list pystr) : Prop :=
  forall l obj now cands am,
    env_get_proxies E l = inr (JObj obj) ->
    parse_group obj = inr (now, cands, am) ->
    now = reported_now E now0 l /\ incl cands u.

(** The clock stays within one idle period after [t0]. *)
Definition clock_within (E : environment) (t0 : R) : Prop :=
  forall l, (t0 <= env_monotonic E l < t0 + REFRESH_IDLE_SECONDS)%R.

(** How many penalties of the smallest amount a name takes before it
    scores below the threshold. *)
Definition headroom (ledger : gmap pystr R) (n : pystr) : nat :=
  if Rgeb (score_in ledger n) SCORE_THRESHOLD
  then Z.to_nat (up ((score_in ledger n - SCORE_THRESHOLD) / PENALTY_MAIL))
  else O.

Definition total_headroom (ledger : gmap pystr R) (u : list pystr) : nat :=
  list_sum (map (headroom ledger) u).

(** A controller that accepts every switch call and reports the last
    target as [now], among the candidates [all]; every probe answers
    [status]. *)
Definition last_put (now0 : option pystr) (l : list event) : option pystr :=
  reported_now {| env_monotonic := fun _ => 0%R; env_init := fun _ => None;
                  env_get_proxies := fun _ => inr JNull;
                  env_put := fun _ _ => None;
                  env_probe := fun _ _ => inr 0%Z |} now0 l.

Definition following_env (now0 : option pystr) (all : list pystr) (status : Z)
  : environment :=
  {| env_monotonic := fun _ => 0%R;
     env_init := fun _ => None;
     env_get_proxies := fun l => inr (group_doc (last_put now0 l) all []);
     env_put := fun _ _ => None;
     env_probe := fun _ _ => inr status |}.

(* ================================================================== *)
(** * Further controllers for the examples *)
(* ================================================================== *)

(** The liveness map of a group of [node_A] and [node_B] in which only
    [node_B] is reported alive. *)
Definition only_B_alive : gmap pystr (option bool) :=
  <[node_B := Some true]> (<[node_A := None]> ∅).

(** A controller with [node_A] selected, its liveness unknown, beside
    [node_B], reported alive; every probe answers 204. *)
Definition env_A_held_B_alive : environment :=
  steady_env (fun _ => 0%R)
    (group_doc (Some node_A) [node_A; node_B] [(node_B, true)]) 204.

(** The same candidates with nothing selected. *)
Definition env_none_B_alive : environment :=
  steady_env (fun _ => 0%R)
    (group_doc None [node_A; node_B] [(node_B, true)]) 204.

(** A controller with nothing selected and [node_B] as its one
    candidate. *)
Definition env_only_B : environment :=
  steady_env (fun _ => 0%R) (group_doc None [node_B] []) 204.

(* ================================================================== *)
(** * Properties of the string functions *)
(* ================================================================== *)

Lemma is_space_lower_cp (c : N) : is_space (lower_cp c) = is_space c.
Proof.
  unfold lower_cp. destruct ((65 <=? c) && (c <=? 90))%N eqn:Hc; [|reflexivity].
  apply andb_true_iff in Hc as [H1 H2].
  apply N.leb_le in H1, H2.
  unfold is_space.
  repeat match goal with
         | |- context [(?a <=? ?b)%N] => destruct (N.leb_spec a b); try lia
         | |- context [(?a =? ?b)%N] => destruct (N.eqb_spec a b); try lia
         end; reflexivity.
Qed.

Lemma lstrip_lower (s : pystr) : lstrip (lower s) = lower (lstrip s).
Proof.
  induction s as [|c r IH]; [reflexivity|].
  cbn [lower map lstrip]. rewrite is_space_lower_cp.
  destruct (is_space c); [exact IH | reflexivity].
Qed.

Lemma strip_lower (s : pystr) : strip (lower s) = lower (strip s).
Proof.
  unfold strip, rstrip. rewrite lstrip_lower.
  unfold lower at 1. rewrite <- map_rev.
  fold (lower (rev (lstrip s))). rewrite lstrip_lower.
  unfold lower. rewrite map_rev. reflexivity.
Qed.

Lemma lower_cp_idem (c : N) : lower_cp (lower_cp c) = lower_cp c.
Proof.
  unfold lower_cp.
  destruct ((65 <=? c) && (c <=? 90))%N eqn:Hc; [|rewrite Hc; reflexivity].
  apply andb_true_iff in Hc as [H1 H2]. apply N.leb_le in H1, H2.
  destruct ((65 <=? c + 32) && (c + 32 <=? 90))%N eqn:Hd; [|reflexivity].
  apply andb_true_iff in Hd as [H3 H4]. apply N.leb_le in H3, H4. lia.
Qed.

Lemma lower_idem (s : pystr) : lower (lower s) = lower s.
Proof.
  unfold lower. rewrite map_map. apply map_ext. exact lower_cp_idem.
Qed.

Lemma lower_upper (s : pystr) : lower (upper s) = lower s.
Proof.
  unfold lower, upper. rewrite map_map. apply map_ext. intros c.
  unfold lower_cp, upper_cp.
  destruct ((97 <=? c) && (c <=? 122))%N eqn:Hu.
  - apply andb_true_iff in Hu as [H1 H2]. apply N.leb_le in H1, H2.
    replace ((65 <=? c - 32) && (c - 32 <=? 90))%N with true
      by (symmetry; apply andb_true_iff; split; apply N.leb_le; lia).
    replace ((65 <=? c) && (c <=? 90))%N with false
      by (symmetry; apply andb_false_iff; right; apply N.leb_gt; lia).
    lia.
  - reflexivity.
Qed.

Lemma eqb_lower_caseless (c x : N) :
  caseless c = true -> (c =? lower_cp x)%N = (c =? x)%N.
Proof.
  unfold caseless, lower_cp. intros Hc.
  apply negb_true_iff, orb_false_iff in Hc as [H1 H2].
  apply andb_false_iff in H1, H2.
  destruct ((65 <=? x) && (x <=? 90))%N eqn:Hx; [|reflexivity].
  apply andb_true_iff in Hx as [H3 H4]. apply N.leb_le in H3, H4.
  destruct (N.eqb_spec c (x + 32)), (N.eqb_spec c x); try reflexivity; subst;
    exfalso;
    repeat match goal with
           | H : _ \/ _ |- _ => destruct H
           | H : (_ <=? _)%N = false |- _ => apply N.leb_gt in H
           end; lia.
Qed.

Lemma starts_with_lower_caseless (needle s : pystr) :
  forallb caseless needle = true ->
  starts_with needle (lower s) = starts_with needle s.
Proof.
  revert s. induction needle as [|c p IH]; intros s Hc; [reflexivity|].
  cbn [forallb] in Hc. apply andb_true_iff in Hc as [Hc Hp].
  destruct s as [|x r]; [reflexivity|].
  cbn [lower map starts_with]. rewrite eqb_lower_caseless by exact Hc.
  fold (lower r). rewrite IH by exact Hp. reflexivity.
Qed.

Lemma contains_lower_caseless (needle s : pystr) :
  forallb caseless needle = true ->
  contains needle (lower s) = contains needle s.
Proof.
  intros Hc. induction s as [|x r IH].
  - cbn [lower map contains]. change (@nil N) with (lower []) at 1.
    rewrite starts_with_lower_caseless by exact Hc. reflexivity.
  - cbn [contains]. rewrite <- IH.
    rewrite <- (starts_with_lower_caseless needle (x :: r)) by exact Hc.
    reflexivity.
Qed.

Lemma classify_failure_lower (s : pystr) :
  classify_failure (lower s) = classify_failure s.
Proof.
  unfold classify_failure. rewrite strip_lower, lower_idem.
  assert (Hm : mail_hit (lower (strip s)) (lower (strip s))
               = mail_hit (strip s) (lower (strip s))).
  { unfold mail_hit.
    rewrite (contains_lower_caseless (py "验证码超时")) by (vm_compute; reflexivity).
    reflexivity. }
  rewrite Hm. destruct (strip s) as [|c r]; reflexivity.
Qed.

(* ================================================================== *)
(** * Failure classification *)
(* ================================================================== *)

Lemma first_marker_some (markers : list pystr) (low m : pystr) :
  first_marker markers low = Some m ->
  exists before after,
    markers = before ++ m :: after
    /\ contains m low = true
    /\ Forall (fun m' => contains m' low = false) before.
Proof.
  unfold first_marker. induction markers as [|x r IH]; [discriminate|].
  cbn [find]. destruct (contains x low) eqn:Hx.
  - intros [= <-]. exists [], r. repeat split; [exact Hx | constructor].
  - intros H. destruct (IH H) as (b & a & -> & Hm & Hb).
    exists (x :: b), a. repeat split; [exact Hm | constructor; assumption].
Qed.

Lemma first_marker_none (markers : list pystr) (low : pystr) :
  first_marker markers low = None ->
  Forall (fun m => contains m low = false) markers.
Proof.
  unfold first_marker. induction markers as [|x r IH]; [constructor|].
  cbn [find]. destruct (contains x low) eqn:Hx; [discriminate|].
  intros H. constructor; [exact Hx | exact (IH H)].
Qed.

(** C6. [classify_failure] is a function of its input alone; inputs that
    agree up to the case of their letters get the same (kind, detail); the
    three inputs of the specification get (other, empty), (mail,
    otp_timeout) and (proxy, err_proxy_connection_failed); and the tests
    are tried in the order empty, mail, risk, proxy, other: each kind is
    returned exactly when no earlier test matched, with the first matching
    marker of its list as detail. *)
Theorem classify_failure_spec :
  (forall a b : pystr, lower a = lower b -> classify_failure a = classify_failure b)
  /\ (forall s : pystr, classify_failure (upper s) = classify_failure s)
  /\ classify_failure (py "") = (py "other", py "empty")
  /\ classify_failure (py "verification code timeout") = (py "mail", py "otp_timeout")
  /\ classify_failure (py "ERR_PROXY_CONNECTION_FAILED")
     = (py "proxy", py "err_proxy_connection_failed")
  /\ (forall e : pystr,
        let raw := strip e in
        let low := lower raw in
        (raw = [] -> classify_failure e = (py "other", py "empty"))
        /\ (raw <> [] -> mail_hit raw low = true ->
            classify_failure e = (py "mail", py "otp_timeout"))
        /\ (raw <> [] -> mail_hit raw low = false ->
            forall m, first_marker risk_markers low = Some m ->
            classify_failure e = (py "risk", m))
        /\ (raw <> [] -> mail_hit raw low = false ->
            first_marker risk_markers low = None ->
            forall m, first_marker proxy_markers low = Some m ->
            classify_failure e = (py "proxy", m))
        /\ (raw <> [] -> mail_hit raw low = false ->
            first_marker risk_markers low = None ->
            first_marker proxy_markers low = None ->
            classify_failure e = (py "other", py "unknown"))).
Proof.
  split; [|split; [|split; [|split; [|split]]]].
  - intros a b Hab.
    rewrite <- (classify_failure_lower a), <- (classify_failure_lower b), Hab.
    reflexivity.
  - intros s. rewrite <- (classify_failure_lower (upper s)), lower_upper.
    apply classify_failure_lower.
  - vm_compute. reflexivity.
  - vm_compute. reflexivity.
  - vm_compute. reflexivity.
  - intros e raw low. unfold classify_failure. fold raw. fold low.
    repeat split.
    + intros ->. reflexivity.
    + intros Hne Hm. destruct raw; [congruence|]. rewrite Hm. reflexivity.
    + intros Hne Hm m Hr. destruct raw; [congruence|]. rewrite Hm, Hr. reflexivity.
    + intros Hne Hm Hr m Hp. destruct raw; [congruence|]. rewrite Hm, Hr, Hp. reflexivity.
    + intros Hne Hm Hr Hp. destruct raw; [congruence|]. rewrite Hm, Hr, Hp. reflexivity.
Qed.

(** The first part of [classify_failure_spec] at two spellings of one
    message. *)
Lemma classify_failure_spec_witness :
  lower (py "SSL Handshake FAILED") = lower (py "ssl handshake failed")
  /\ classify_failure (py "SSL Handshake FAILED")
     = classify_failure (py "ssl handshake failed").
Proof.
  assert (H : lower (py "SSL Handshake FAILED") = lower (py "ssl handshake failed"))
    by (vm_compute; reflexivity).
  split; [exact H | exact (proj1 classify_failure_spec _ _ H)].
Defined.

(** Priority: a message that carries a mail marker, a risk marker and a
    proxy marker is a mail failure. *)
Example classify_failure_priority :
  classify_failure (py "signin-error: verification code timeout (ssl)")
  = (py "mail", py "otp_timeout").
Proof. vm_compute. reflexivity. Qed.

(* ================================================================== *)
(** * Enclosures of the exponential and of the logistic function *)
(* ================================================================== *)

Section Numeric.

Local Open Scope R_scope.

Lemma FX_pos : 0 < IZR FX.
Proof. apply IZR_lt. reflexivity. Qed.

Lemma floor_div_le (n d : Z) : (0 < d)%Z -> IZR (n / d) <= IZR n / IZR d.
Proof.
  intros Hd. assert (Hd' : 0 < IZR d) by (apply IZR_lt; exact Hd).
  apply Rmult_le_reg_r with (IZR d); [exact Hd'|].
  unfold Rdiv. rewrite Rmult_assoc, Rinv_l, Rmult_1_r by lra.
  rewrite <- mult_IZR. apply IZR_le.
  rewrite Z.mul_comm. apply Z.mul_div_le. exact Hd.
Qed.

Lemma ceil_div_ge (n d : Z) : (0 < d)%Z -> IZR n / IZR d <= IZR ((n + d - 1) / d).
Proof.
  intros Hd. assert (Hd' : 0 < IZR d) by (apply IZR_lt; exact Hd).
  apply Rmult_le_reg_r with (IZR d); [exact Hd'|].
  unfold Rdiv. rewrite Rmult_assoc, Rinv_l, Rmult_1_r by lra.
  rewrite <- mult_IZR. apply IZR_le.
  pose proof (Z.div_mod (n + d - 1) d ltac:(lia)) as E.
  pose proof (Z.mod_pos_bound (n + d - 1) d Hd) as B.
  nia.
Qed.

Lemma sq_down_sound (a : Z) (t : R) :
  (0 <= a)%Z -> IZR a / IZR FX <= exp t ->
  (0 <= sq_down a)%Z /\ IZR (sq_down a) / IZR FX <= exp (2 * t).
Proof.
  intros Ha Hle. pose proof FX_pos as HF. split.
  - unfold sq_down. apply Z.div_pos; [nia | reflexivity].
  - replace (2 * t) with (t + t) by lra. rewrite exp_plus.
    assert (H0 : 0 <= IZR a / IZR FX).
    { apply Rmult_le_pos; [apply IZR_le; exact Ha | left; apply Rinv_0_lt_compat; exact HF]. }
    apply Rle_trans with (IZR a / IZR FX * (IZR a / IZR FX)).
    + unfold sq_down.
      apply Rle_trans with (IZR (a * a) / IZR FX / IZR FX).
      * apply Rmult_le_compat_r; [left; apply Rinv_0_lt_compat; exact HF|].
        apply floor_div_le. reflexivity.
      * rewrite mult_IZR. right. field. lra.
    + apply Rmult_le_compat; assumption.
Qed.

Lemma sq_up_sound (b : Z) (t : R) :
  (0 <= b)%Z -> exp t <= IZR b / IZR FX ->
  (0 <= sq_up b)%Z /\ exp (2 * t) <= IZR (sq_up b) / IZR FX.
Proof.
  intros Hb Hle. pose proof FX_pos as HF. split.
  - unfold sq_up. apply Z.div_pos; [unfold FX in *; nia | reflexivity].
  - replace (2 * t) with (t + t) by lra. rewrite exp_plus.
    pose proof (exp_pos t) as Hp.
    apply Rle_trans with (IZR b / IZR FX * (IZR b / IZR FX)).
    + apply Rmult_le_compat; lra.
    + unfold sq_up.
      apply Rle_trans with (IZR (b * b) / IZR FX / IZR FX).
      * rewrite mult_IZR. right. field. lra.
      * apply Rmult_le_compat_r; [left; apply Rinv_0_lt_compat; exact HF|].
        apply ceil_div_ge. reflexivity.
Qed.

Lemma iter_sq_down_sound (k : nat) : forall (a : Z) (t : R),
  (0 <= a)%Z -> IZR a / IZR FX <= exp t ->
  IZR (iter_sq sq_down k a) / IZR FX <= exp (2 ^ k * t).
Proof.
  induction k as [|k IH]; intros a t Ha Hle; simpl.
  - rewrite Rmult_1_l. exact Hle.
  - destruct (sq_down_sound a t Ha Hle) as [H1 H2].
    replace (2 * 2 ^ k * t) with (2 ^ k * (2 * t)) by ring.
    apply IH; assumption.
Qed.

Lemma iter_sq_up_sound (k : nat) : forall (b : Z) (t : R),
  (0 <= b)%Z -> exp t <= IZR b / IZR FX ->
  exp (2 ^ k * t) <= IZR (iter_sq sq_up k b) / IZR FX.
Proof.
  induction k as [|k IH]; intros b t Hb Hle; simpl.
  - rewrite Rmult_1_l. exact Hle.
  - destruct (sq_up_sound b t Hb Hle) as [H1 H2].
    replace (2 * 2 ^ k * t) with (2 ^ k * (2 * t)) by ring.
    apply IH; assumption.
Qed.

Lemma IZR_pow2 (k : nat) : IZR (2 ^ Z.of_nat k) = 2 ^ k.
Proof. rewrite <- pow_IZR. reflexivity. Qed.

Lemma exp_neg_enclosure (num den : Z) (k : nat) :
  (0 < num)%Z -> (0 < den)%Z -> (num < den * 2 ^ Z.of_nat k)%Z ->
  IZR (exp_neg_lo num den k) / IZR FX <= exp (- (IZR num / IZR den))
  /\ exp (- (IZR num / IZR den)) <= IZR (exp_neg_hi num den k) / IZR FX.
Proof.
  intros Hn Hd Hlt. pose proof FX_pos as HF.
  set (d := (den * 2 ^ Z.of_nat k)%Z) in *.
  assert (Hdpos : (0 < d)%Z) by lia.
  assert (Hd' : 0 < IZR d) by (apply IZR_lt; exact Hdpos).
  assert (Hn' : 0 < IZR num) by (apply IZR_lt; exact Hn).
  assert (Hden : 0 < IZR den) by (apply IZR_lt; exact Hd).
  assert (Hk : 0 < 2 ^ k) by (apply pow_lt; lra).
  assert (Ed : IZR d = IZR den * 2 ^ k).
  { unfold d. rewrite mult_IZR, IZR_pow2. reflexivity. }
  assert (Et : - (IZR num / IZR den) = 2 ^ k * (- (IZR num / IZR d))).
  { rewrite Ed. field. lra. }
  rewrite Et. split.
  - unfold exp_neg_lo. fold d. apply iter_sq_down_sound.
    + apply Z.div_pos; [unfold FX; nia | exact Hdpos].
    + apply Rle_trans with (1 + - (IZR num / IZR d)); [|apply exp_ineq1_le].
      assert (F := floor_div_le (FX * (d - num)) d Hdpos).
      apply Rle_trans with (IZR (FX * (d - num)) / IZR d / IZR FX).
      * apply Rmult_le_compat_r; [left; apply Rinv_0_lt_compat; exact HF | exact F].
      * rewrite mult_IZR, minus_IZR. right. field. lra.
  - unfold exp_neg_hi. fold d. apply iter_sq_up_sound.
    + apply Z.div_pos; [unfold FX; nia | lia].
    + assert (Hdn : (0 < d + num)%Z) by lia.
      assert (C := ceil_div_ge (FX * d) (d + num) Hdn).
      rewrite mult_IZR, plus_IZR in C.
      apply Rle_trans with (IZR FX * IZR d / (IZR d + IZR num) / IZR FX).
      * rewrite exp_Ropp.
        pose proof (exp_ineq1_le (IZR num / IZR d)) as E1.
        assert (Hy : 0 < IZR num / IZR d) by (apply Rdiv_lt_0_compat; lra).
        replace (IZR FX * IZR d / (IZR d + IZR num) / IZR FX)
          with (/ (1 + IZR num / IZR d)) by (field; lra).
        apply Rinv_le_contravar; lra.
      * apply Rmult_le_compat_r; [left; apply Rinv_0_lt_compat; exact HF | exact C].
Qed.

Lemma sigmoid_nonneg (z : R) : 0 <= z -> sigmoid z = 1 / (1 + exp (- z)).
Proof.
  intros Hz. unfold sigmoid. destruct (Rge_dec z 0); [reflexivity | lra].
Qed.

Lemma sigmoid_neg (z : R) : z < 0 -> sigmoid z = exp z / (1 + exp z).
Proof.
  intros Hz. unfold sigmoid. destruct (Rge_dec z 0); [lra | reflexivity].
Qed.

Lemma sigmoid_range (z : R) : 0 < sigmoid z < 1.
Proof.
  unfold sigmoid. destruct (Rge_dec z 0).
  - pose proof (exp_pos (- z)) as Hp.
    assert (H1 : 0 < / (1 + exp (- z))) by (apply Rinv_0_lt_compat; lra).
    assert (H2 : / (1 + exp (- z)) < 1).
    { rewrite <- Rinv_1 at 2. apply Rinv_lt_contravar; lra. }
    unfold Rdiv. rewrite Rmult_1_l. split; assumption.
  - pose proof (exp_pos z) as Hp.
    assert (H1 : 0 < / (1 + exp z)) by (apply Rinv_0_lt_compat; lra).
    split.
    + apply Rmult_lt_0_compat; assumption.
    + apply Rmult_lt_reg_r with (1 + exp z); [lra|].
      unfold Rdiv. rewrite Rmult_assoc, Rinv_l by lra. lra.
Qed.

(** The base score lies strictly between 0 and 100. *)
Lemma base_score_range (name : pystr) : 0 < base_score name < 100.
Proof.
  unfold base_score. pose proof (sigmoid_range (logit_of (parse_name name))). lra.
Qed.

(** The base score is read off the parsed tags. *)
Lemma base_score_tags (n1 n2 : pystr) :
  parse_name n1 = parse_name n2 -> base_score n1 = base_score n2.
Proof. unfold base_score. intros ->. reflexivity. Qed.

Lemma exp_m2111 : 0.12111 < exp (- 2.111) < 0.12112.
Proof.
  destruct (exp_neg_enclosure 2111 1000 20) as [Hlo Hhi]; [reflexivity ..|].
  replace (- (2111 / 1000)) with (- 2.111) in Hlo, Hhi by lra.
  assert (E1 : exp_neg_lo 2111 1000 20 = 121116531699816111352005385055%Z)
    by (vm_compute; reflexivity).
  assert (E2 : exp_neg_hi 2111 1000 20 = 121117046431500382348700324778%Z)
    by (vm_compute; reflexivity).
  rewrite E1 in Hlo. rewrite E2 in Hhi. unfold FX in Hlo, Hhi.
  change (10 ^ 30)%Z with 1000000000000000000000000000000%Z in Hlo, Hhi.
  lra.
Qed.

Lemma exp_m3424 : 0.03258 < exp (- 3.424) < 0.03259.
Proof.
  destruct (exp_neg_enclosure 3424 1000 20) as [Hlo Hhi]; [reflexivity ..|].
  replace (- (3424 / 1000)) with (- 3.424) in Hlo, Hhi by lra.
  assert (E1 : exp_neg_lo 3424 1000 20 = 32581664406931463463178437062%Z)
    by (vm_compute; reflexivity).
  assert (E2 : exp_neg_hi 3424 1000 20 = 32582028693612276124741744582%Z)
    by (vm_compute; reflexivity).
  rewrite E1 in Hlo. rewrite E2 in Hhi. unfold FX in Hlo, Hhi.
  change (10 ^ 30)%Z with 1000000000000000000000000000000%Z in Hlo, Hhi.
  lra.
Qed.

(** 100 * sigmoid 2.111, the score of a tagged 商宽 / 低风险 node. *)
Lemma sigmoid_2111 : 89.19 < 100 * sigmoid 2.111 < 89.20.
Proof.
  rewrite sigmoid_nonneg by lra. pose proof exp_m2111 as [Hlo Hhi].
  replace (- (2.111)) with (-2.111) by lra.
  set (e := exp (-2.111)) in *.
  assert (Hpos : 0 < 1 + e) by lra.
  split.
  - apply Rmult_lt_reg_r with (1 + e); [exact Hpos|].
    replace (100 * (1 / (1 + e)) * (1 + e)) with 100 by (field; lra). lra.
  - apply Rmult_lt_reg_r with (1 + e); [exact Hpos|].
    replace (100 * (1 / (1 + e)) * (1 + e)) with 100 by (field; lra). lra.
Qed.

(** 100 * sigmoid (-3.424), the score of a tagged 机房 / 高风险 node. *)
Lemma sigmoid_m3424 : 3.15 < 100 * sigmoid (- 3.424) < 3.16.
Proof.
  rewrite sigmoid_neg by lra. pose proof exp_m3424 as [Hlo Hhi].
  set (e := exp (- 3.424)) in *.
  assert (Hpos : 0 < 1 + e) by lra.
  split.
  - apply Rmult_lt_reg_r with (1 + e); [exact Hpos|].
    replace (100 * (e / (1 + e)) * (1 + e)) with (100 * e) by (field; lra). lra.
  - apply Rmult_lt_reg_r with (1 + e); [exact Hpos|].
    replace (100 * (e / (1 + e)) * (1 + e)) with (100 * e) by (field; lra). lra.
Qed.

Lemma logit_shangkuan_low : logit_of (py "tagged", py "商宽", py "低风险") = 2.111.
Proof.
  change (logit_of (py "tagged", py "商宽", py "低风险"))
    with (BASE_BIAS + 1.102 + 1.889 + 0.831).
  unfold BASE_BIAS. lra.
Qed.

Lemma logit_jifang_high : logit_of (py "tagged", py "机房", py "高风险") = - 3.424.
Proof.
  change (logit_of (py "tagged", py "机房", py "高风险"))
    with (BASE_BIAS + 1.102 + - 1.534 + - 1.281).
  unfold BASE_BIAS. lra.
Qed.

End Numeric.

(* ================================================================== *)
(** * The scoring model on the two example nodes *)
(* ================================================================== *)

Section ScoringExample.

Local Open Scope R_scope.

Lemma Rgtb_true (a b : R) : b < a -> Rgtb a b = true.
Proof. intros H. unfold Rgtb. destruct (Rgt_dec a b); [reflexivity | lra]. Qed.

Lemma Rgtb_false (a b : R) : a <= b -> Rgtb a b = false.
Proof. intros H. unfold Rgtb. destruct (Rgt_dec a b); [lra | reflexivity]. Qed.

Lemma Rltb_true (a b : R) : a < b -> Rltb a b = true.
Proof. intros H. unfold Rltb. destruct (Rlt_dec a b); [reflexivity | lra]. Qed.

Lemma Rltb_false (a b : R) : b <= a -> Rltb a b = false.
Proof. intros H. unfold Rltb. destruct (Rlt_dec a b); [lra | reflexivity]. Qed.

Lemma Rgeb_true (a b : R) : b <= a -> Rgeb a b = true.
Proof. intros H. unfold Rgeb. destruct (Rge_dec a b); [reflexivity | lra]. Qed.

Lemma Rgeb_false (a b : R) : a < b -> Rgeb a b = false.
Proof. intros H. unfold Rgeb. destruct (Rge_dec a b); [lra | reflexivity]. Qed.

Lemma Reqb_true (a b : R) : a = b -> Reqb a b = true.
Proof. intros H. unfold Reqb. destruct (Req_dec_T a b); [reflexivity | contradiction]. Qed.

Lemma Reqb_false (a b : R) : a <> b -> Reqb a b = false.
Proof. intros H. unfold Reqb. destruct (Req_dec_T a b); [contradiction | reflexivity]. Qed.

(** The score of a tagged 商宽 / 低风险 node without penalty. *)
Lemma score_shangkuan_low (ledger : gmap pystr R) (name : pystr) :
  parse_name name = (py "tagged", py "商宽", py "低风险") ->
  penalty_of ledger name = 0 ->
  score_in ledger name = 100 * sigmoid 2.111
  /\ 89.19 < score_in ledger name < 89.20.
Proof.
  intros Hp Hz.
  assert (Hs : score_in ledger name = 100 * sigmoid 2.111).
  { unfold score_in, base_score. rewrite Hp, Hz, logit_shangkuan_low. lra. }
  split; [exact Hs|]. rewrite Hs. exact sigmoid_2111.
Qed.

(** The score of a tagged 机房 / 高风险 node without penalty. *)
Lemma score_jifang_high (ledger : gmap pystr R) (name : pystr) :
  parse_name name = (py "tagged", py "机房", py "高风险") ->
  penalty_of ledger name = 0 ->
  score_in ledger name = 100 * sigmoid (- 3.424)
  /\ 3.15 < score_in ledger name < 3.16.
Proof.
  intros Hp Hz.
  assert (Hs : score_in ledger name = 100 * sigmoid (- 3.424)).
  { unfold score_in, base_score. rewrite Hp, Hz, logit_jifang_high. lra. }
  split; [exact Hs|]. rewrite Hs. exact sigmoid_m3424.
Qed.

Lemma parse_node_A : parse_name node_A = (py "tagged", py "商宽", py "低风险").
Proof. vm_compute. reflexivity. Qed.

Lemma parse_node_B : parse_name node_B = (py "tagged", py "机房", py "高风险").
Proof. vm_compute. reflexivity. Qed.

(** C8, as the code has it. The base score is a function of the parsed
    tags. For a tagged node A with line 商宽 and risk 低风险 and a tagged
    node B with line 机房 and risk 高风险, both without penalty, the scores
    are the two logistic values of the specification; score(A) lies
    between 89.19 and 89.20 and score(B) between 3.15 and 3.16, each
    within 0.1 of 89.2 and 3.1. Hence score(A) is above score(B), and B is
    below the threshold 10 while A is not. In the best pick the liveness
    rank comes before the score: A's key beats B's exactly when A's
    liveness rank is not below B's, and B's key beats A's exactly when B
    is reported alive and A is not; of the two, the best pick is A in the
    first case and B in the second. *)
Theorem example_scores (A B : pystr) (ledger : gmap pystr R) :
  parse_name A = (py "tagged", py "商宽", py "低风险") ->
  parse_name B = (py "tagged", py "机房", py "高风险") ->
  penalty_of ledger A = 0 ->
  penalty_of ledger B = 0 ->
  (forall n : pystr, parse_name n = parse_name A -> base_score n = base_score A)
  /\ (forall n : pystr, parse_name n = parse_name B -> base_score n = base_score B)
  /\ score_in ledger A = 100 * sigmoid (-1.711 + 1.102 + 1.889 + 0.831)
  /\ score_in ledger B = 100 * sigmoid (-1.711 + 1.102 - 1.534 - 1.281)
  /\ 89.19 < score_in ledger A < 89.20
  /\ 3.15 < score_in ledger B < 3.16
  /\ Rabs (score_in ledger A - 89.2) < 0.1
  /\ Rabs (score_in ledger B - 3.1) < 0.1
  /\ score_in ledger B < score_in ledger A
  /\ score_in ledger B < SCORE_THRESHOLD <= score_in ledger A
  /\ (forall alive_map : gmap pystr (option bool),
        alive_rank (alive_get alive_map A) = alive_rank (alive_get alive_map B) ->
        key_gtb (rank_key ledger alive_map A) (rank_key ledger alive_map B) = true)
  /\ (forall alive_map : gmap pystr (option bool),
        (key_gtb (rank_key ledger alive_map A) (rank_key ledger alive_map B) = true
         <-> (alive_rank (alive_get alive_map B)
              <= alive_rank (alive_get alive_map A))%Z)
        /\ (key_gtb (rank_key ledger alive_map B) (rank_key ledger alive_map A) = true
            <-> (alive_rank (alive_get alive_map A)
                 < alive_rank (alive_get alive_map B))%Z)
        /\ ((alive_rank (alive_get alive_map A)
             < alive_rank (alive_get alive_map B))%Z
            <-> alive_get alive_map B = Some true
                /\ alive_get alive_map A <> Some true)
        /\ ((alive_rank (alive_get alive_map B)
             <= alive_rank (alive_get alive_map A))%Z ->
            best_candidate ledger alive_map [A; B] = Some A
            /\ best_candidate ledger alive_map [B; A] = Some A)
        /\ ((alive_rank (alive_get alive_map A)
             < alive_rank (alive_get alive_map B))%Z ->
            best_candidate ledger alive_map [A; B] = Some B
            /\ best_candidate ledger alive_map [B; A] = Some B)).
Proof.
  intros HA HB PA PB.
  destruct (score_shangkuan_low ledger A HA PA) as [EA [A1 A2]].
  destruct (score_jifang_high ledger B HB PB) as [EB [B1 B2]].
  split; [intros n Hn; apply base_score_tags; exact Hn|].
  split; [intros n Hn; apply base_score_tags; exact Hn|].
  split; [rewrite EA; do 2 f_equal; lra|].
  split; [rewrite EB; do 2 f_equal; lra|].
  split; [split; assumption|].
  split; [split; assumption|].
  split; [apply Rabs_def1; lra|].
  split; [apply Rabs_def1; lra|].
  split; [lra|].
  split; [unfold SCORE_THRESHOLD; lra|].
  split.
  { intros alive_map Hrank. unfold rank_key, key_gtb. rewrite Hrank, Z.eqb_refl.
    cbn [negb]. rewrite Reqb_false by lra. cbn [negb]. apply Rgtb_true. lra. }
  intros alive_map.
  set (ra := alive_rank (alive_get alive_map A)).
  set (rb := alive_rank (alive_get alive_map B)).
  assert (HAB : key_gtb (rank_key ledger alive_map A) (rank_key ledger alive_map B) = true
                <-> (rb <= ra)%Z).
  { unfold rank_key, key_gtb. fold ra rb.
    destruct (Z.eqb_spec ra rb) as [Heq|Hne]; cbn [negb].
    - rewrite Reqb_false by lra. cbn [negb]. rewrite Rgtb_true by lra.
      split; [intros _; lia | reflexivity].
    - rewrite Z.ltb_lt. lia. }
  assert (HBA : key_gtb (rank_key ledger alive_map B) (rank_key ledger alive_map A) = true
                <-> (ra < rb)%Z).
  { unfold rank_key, key_gtb. fold ra rb.
    destruct (Z.eqb_spec rb ra) as [Heq|Hne]; cbn [negb].
    - rewrite Reqb_false by lra. cbn [negb]. rewrite Rgtb_false by lra.
      split; [discriminate | lia].
    - rewrite Z.ltb_lt. lia. }
  split; [exact HAB|]. split; [exact HBA|]. split; [|split].
  - unfold ra, rb.
    destruct (alive_get alive_map A) as [[|]|], (alive_get alive_map B) as [[|]|];
      cbn [alive_rank]; split;
      try (intros H; lia); try (intros [H1 H2]; congruence);
      try (intros _; split; [reflexivity | discriminate]).
    all: intros [H1 H2]; try discriminate; exfalso; apply H2; reflexivity.
  - intros Hle. unfold best_candidate, py_max. cbn [max_from].
    destruct (key_gtb (rank_key ledger alive_map B) (rank_key ledger alive_map A)) eqn:H1.
    + pose proof (proj1 HBA eq_refl). lia.
    + rewrite (proj2 HAB Hle). split; reflexivity.
  - intros Hlt. unfold best_candidate, py_max. cbn [max_from].
    rewrite (proj2 HBA Hlt).
    destruct (key_gtb (rank_key ledger alive_map A) (rank_key ledger alive_map B)) eqn:H1.
    + pose proof (proj1 HAB eq_refl). lia.
    + split; reflexivity.
Qed.

(** [example_scores] on two concrete node names and an empty ledger. *)
Lemma example_scores_witness :
  89.19 < score_in ∅ (py "A｜商宽｜低风险") < 89.20
  /\ 3.15 < score_in ∅ (py "B｜机房｜高风险(x)") < 3.16.
Proof.
  pose proof (example_scores (py "A｜商宽｜低风险") (py "B｜机房｜高风险(x)") ∅
                ltac:(vm_compute; reflexivity) ltac:(vm_compute; reflexivity)
                ltac:(reflexivity) ltac:(reflexivity)) as H.
  split; apply H.
Defined.

End ScoringExample.

(* ================================================================== *)
(** * The penalty ledger *)
(* ================================================================== *)

Section Ledger.

Local Open Scope R_scope.

Lemma penalty_of_insert_eq (m : gmap pystr R) (k : pystr) (v : R) :
  penalty_of (<[k := v]> m) k = v.
Proof. unfold penalty_of. rewrite lookup_insert_eq. reflexivity. Qed.

Lemma penalty_of_insert_ne (m : gmap pystr R) (k k' : pystr) (v : R) :
  k <> k' -> penalty_of (<[k := v]> m) k' = penalty_of m k'.
Proof. intros H. unfold penalty_of. rewrite lookup_insert_ne by exact H. reflexivity. Qed.

Lemma penalty_of_setdefault (m : gmap pystr R) (n k : pystr) :
  penalty_of (setdefault n m) k = penalty_of m k.
Proof.
  unfold setdefault. destruct (m !! n) eqn:Hn; [reflexivity|].
  destruct (decide (n = k)) as [->|Hne].
  - rewrite penalty_of_insert_eq. unfold penalty_of. rewrite Hn. reflexivity.
  - apply penalty_of_insert_ne. exact Hne.
Qed.

Lemma penalty_of_setdefaults (l : list pystr) (m : gmap pystr R) (k : pystr) :
  penalty_of (fold_left (fun m n => setdefault n m) l m) k = penalty_of m k.
Proof.
  revert m. induction l as [|n l IH]; intros m; [reflexivity|].
  cbn [fold_left]. rewrite IH. apply penalty_of_setdefault.
Qed.

Lemma setdefault_present (m : gmap pystr R) (n : pystr) :
  is_Some (m !! n) -> setdefault n m = m.
Proof. intros [v Hv]. unfold setdefault. rewrite Hv. reflexivity. Qed.

Lemma setdefaults_present (l : list pystr) (m : gmap pystr R) :
  Forall (fun n => is_Some (m !! n)) l ->
  fold_left (fun m n => setdefault n m) l m = m.
Proof.
  induction l as [|n l IH]; intros H; [reflexivity|].
  inversion H as [|? ? Hn Hl]; subst. cbn [fold_left].
  rewrite setdefault_present by exact Hn. apply IH. exact Hl.
Qed.

Lemma setdefault_lookup (m : gmap pystr R) (n : pystr) : is_Some (setdefault n m !! n).
Proof.
  unfold setdefault. destruct (m !! n) eqn:Hn.
  - rewrite Hn. eauto.
  - rewrite lookup_insert_eq. eauto.
Qed.

Lemma setdefault_keeps (m : gmap pystr R) (n k : pystr) :
  is_Some (m !! k) -> is_Some (setdefault n m !! k).
Proof.
  intros Hk. unfold setdefault. destruct (m !! n) eqn:Hn; [exact Hk|].
  destruct (decide (n = k)) as [->|Hne].
  - rewrite lookup_insert_eq. eauto.
  - rewrite lookup_insert_ne by exact Hne. exact Hk.
Qed.

Lemma setdefaults_keeps (l : list pystr) (m : gmap pystr R) (k : pystr) :
  is_Some (m !! k) -> is_Some (fold_left (fun m n => setdefault n m) l m !! k).
Proof.
  revert m. induction l as [|n l IH]; intros m Hk; [exact Hk|].
  cbn [fold_left]. apply IH, setdefault_keeps, Hk.
Qed.

Lemma setdefaults_lookup (l : list pystr) (m : gmap pystr R) :
  Forall (fun n => is_Some (fold_left (fun m n => setdefault n m) l m !! n)) l.
Proof.
  revert m. induction l as [|n l IH]; intros m; [constructor|].
  cbn [fold_left]. constructor.
  - apply setdefaults_keeps, setdefault_lookup.
  - apply IH.
Qed.

Lemma any_positive_true (m : gmap pystr R) :
  any_positive m = true <-> exists k v, m !! k = Some v /\ 0 < v.
Proof.
  unfold any_positive. rewrite existsb_exists. split.
  - intros [[k v] [Hin Hv]]. exists k, v. split.
    + apply elem_of_map_to_list, list_elem_of_In. exact Hin.
    + cbn [snd] in Hv. unfold Rgtb in Hv. destruct (Rgt_dec v 0); [lra | discriminate].
  - intros (k & v & Hk & Hv). exists (k, v). split.
    + apply list_elem_of_In, elem_of_map_to_list. exact Hk.
    + cbn [snd]. apply Rgtb_true. exact Hv.
Qed.

Lemma any_positive_false (m : gmap pystr R) :
  any_positive m = false <-> forall k v, m !! k = Some v -> v <= 0.
Proof.
  split.
  - intros H k v Hk. destruct (Rle_dec v 0) as [|Hn]; [assumption|].
    assert (Ht : any_positive m = true).
    { apply any_positive_true. exists k, v. split; [exact Hk | lra]. }
    congruence.
  - intros H. destruct (any_positive m) eqn:Ha; [|reflexivity].
    apply any_positive_true in Ha as (k & v & Hk & Hv).
    specialize (H k v Hk). lra.
Qed.

Lemma penalty_amount_pos (kind : pystr) : 0 < penalty_amount kind.
Proof.
  unfold penalty_amount, PENALTY_PREFLIGHT, PENALTY_RISK, PENALTY_PROXY, PENALTY_MAIL.
  repeat match goal with |- context [str_eqb ?a ?b] => destruct (str_eqb a b) end; lra.
Qed.

(** The fixed table of penalty events, and the fallback of an unknown kind. *)
Lemma penalty_amount_table :
  penalty_amount (py "preflight") = 100
  /\ penalty_amount (py "risk") = 60
  /\ penalty_amount (py "proxy") = 30
  /\ penalty_amount (py "mail") = 5
  /\ penalty_amount (py "other") = 60
  /\ (forall kind,
        kind <> py "preflight" -> kind <> py "risk" ->
        kind <> py "proxy" -> kind <> py "mail" ->
        penalty_amount kind = 60).
Proof.
  repeat split; try reflexivity.
  intros kind H1 H2 H3 H4. unfold penalty_amount, str_eqb.
  rewrite !bool_decide_eq_false_2 by assumption. reflexivity.
Qed.

End Ledger.

(* ================================================================== *)
(** * The idle reset *)
(* ================================================================== *)

Section IdleReset.

Variable E : environment.

Local Open Scope R_scope.

Lemma count_refresh_cons (e : event) (l : list event) :
  count_refresh (e :: l)
  = (match e with EvRefresh => S (count_refresh l) | _ => count_refresh l end)%nat.
Proof. destruct e; reflexivity. Qed.

Lemma ledger_reset_all_zero (m : gmap pystr R) :
  ledger_all_zero ((fun _ => 0) <$> m).
Proof.
  intros k v. rewrite lookup_fmap. destruct (m !! k); cbn; congruence.
Qed.

Lemma ledger_reset_penalty (m : gmap pystr R) (k : pystr) :
  penalty_of ((fun _ => 0) <$> m) k = 0.
Proof.
  unfold penalty_of. rewrite lookup_fmap. destruct (m !! k); reflexivity.
Qed.

(** C5, as the code has it. With [idle] the clock reading minus the time
    of the last switch: (1) when [idle] is at least six hours and some
    penalty is nonzero (no entry being negative), every entry of the
    ledger becomes exactly 0, over the same keys, and the timer is set to
    the clock; (2) when [idle] is at least six hours and all penalties are
    zero, the ledger is left as it is and no reset is logged, but the
    timer is still set to the clock; (3) when [idle] is below six hours,
    ledger and timer are unchanged. *)
Theorem idle_reset_spec (s : pool) :
  let idle := env_monotonic E (log s) - last_switch_ts s in
  let t2 := env_monotonic E (EvClock :: log s) in
  (REFRESH_IDLE_SECONDS <= idle ->
   ledger_nonneg (dyn_penalty s) ->
   (exists k, penalty_of (dyn_penalty s) k <> 0) ->
   exists s',
     maybe_refresh_dynamic E s = Ret tt s'
     /\ ledger_all_zero (dyn_penalty s')
     /\ dom (dyn_penalty s') = dom (dyn_penalty s)
     /\ (forall k, penalty_of (dyn_penalty s') k = 0)
     /\ last_switch_ts s' = t2
     /\ count_refresh (log s') = S (count_refresh (log s)))
  /\ (REFRESH_IDLE_SECONDS <= idle ->
      (forall k, penalty_of (dyn_penalty s) k = 0) ->
      exists s',
        maybe_refresh_dynamic E s = Ret tt s'
        /\ dyn_penalty s' = dyn_penalty s
        /\ last_switch_ts s' = t2
        /\ count_refresh (log s') = count_refresh (log s))
  /\ (idle < REFRESH_IDLE_SECONDS ->
      exists s',
        maybe_refresh_dynamic E s = Ret tt s'
        /\ dyn_penalty s' = dyn_penalty s
        /\ last_switch_ts s' = last_switch_ts s
        /\ count_refresh (log s') = count_refresh (log s)).
Proof.
  intros idle t2. split; [|split].
  - intros Hidle Hnn [k Hk].
    assert (Hpos : any_positive (dyn_penalty s) = true).
    { apply any_positive_true. unfold penalty_of in Hk.
      destruct (dyn_penalty s !! k) as [v|] eqn:Hv; [|cbn in Hk; congruence].
      exists k, v. split; [exact Hv|]. cbn in Hk. specialize (Hnn k v Hv). lra. }
    unfold maybe_refresh_dynamic. fold idle.
    rewrite Rltb_false by exact Hidle. cbn [record_event dyn_penalty].
    rewrite Hpos. cbn [negb]. eexists. split; [reflexivity|].
    cbn [dyn_penalty last_switch_ts log set_switch_ts set_ledger record_event].
    repeat split.
    + apply ledger_reset_all_zero.
    + apply dom_fmap_L.
    + apply ledger_reset_penalty.
  - intros Hidle Hz.
    assert (Hnone : any_positive (dyn_penalty s) = false).
    { apply any_positive_false. intros k v Hv. specialize (Hz k).
      unfold penalty_of in Hz. rewrite Hv in Hz. cbn in Hz. lra. }
    unfold maybe_refresh_dynamic. fold idle.
    rewrite Rltb_false by exact Hidle. cbn [record_event dyn_penalty].
    rewrite Hnone. cbn [negb]. eexists. split; [reflexivity|].
    cbn [dyn_penalty last_switch_ts log set_switch_ts set_ledger record_event].
    repeat split.
  - intros Hidle. unfold maybe_refresh_dynamic. fold idle.
    rewrite Rltb_true by exact Hidle. eexists. split; [reflexivity|].
    cbn [dyn_penalty last_switch_ts log record_event]. repeat split.
Qed.

End IdleReset.

Section IdleResetExamples.

Local Open Scope R_scope.

(** [idle_reset_spec], first part, on a pool idle for 30000 seconds in
    which one node holds the penalty 100. *)
Lemma idle_reset_spec_witness :
  exists s',
    maybe_refresh_dynamic (steady_env (fun _ => 30000) JNull 204)
      (set_ledger {[ py "A" := 100 ]} (new_pool 0)) = Ret tt s'
    /\ ledger_all_zero (dyn_penalty s')
    /\ last_switch_ts s' = 30000.
Proof.
  destruct (proj1 (idle_reset_spec (steady_env (fun _ => 30000) JNull 204)
                     (set_ledger {[ py "A" := 100 ]} (new_pool 0))))
    as (s' & Hrun & Hzero & _ & _ & Hts & _).
  - cbn. unfold REFRESH_IDLE_SECONDS. lra.
  - intros k v. cbn [dyn_penalty set_ledger]. intros Hk.
    apply lookup_singleton_Some in Hk as [_ <-]. lra.
  - exists (py "A"). cbn [dyn_penalty set_ledger].
    unfold penalty_of. rewrite lookup_singleton_eq. cbn. lra.
  - exists s'. repeat split; assumption.
Defined.

(** C5 as stated fails: from a pool whose penalties are all zero and
    whose last switch is 30000 seconds old, the call does change the
    state, it moves the idle timer from 0 to 30000. *)
Lemma idle_reset_counterexample :
  (forall k, penalty_of (dyn_penalty (new_pool 0)) k = 0)
  /\ REFRESH_IDLE_SECONDS <= 30000 - last_switch_ts (new_pool 0)
  /\ exists s',
       maybe_refresh_dynamic (steady_env (fun _ => 30000) JNull 204) (new_pool 0)
       = Ret tt s'
       /\ last_switch_ts s' = 30000
       /\ last_switch_ts s' <> last_switch_ts (new_pool 0)
       /\ s' <> new_pool 0.
Proof.
  split; [intros k; reflexivity|].
  split; [cbn; unfold REFRESH_IDLE_SECONDS; lra|].
  unfold maybe_refresh_dynamic.
  cbn [steady_env env_monotonic new_pool last_switch_ts log record_event dyn_penalty].
  rewrite Rltb_false by (unfold REFRESH_IDLE_SECONDS; lra).
  change (any_positive ∅) with false. cbn [negb].
  eexists. split; [reflexivity|].
  cbn [touch_switch_ts set_switch_ts last_switch_ts record_event env_monotonic log].
  split; [reflexivity|]. split; [intros Heq; cbn in Heq; lra|].
  intros Heq. apply (f_equal last_switch_ts) in Heq. cbn in Heq. lra.
Qed.

End IdleResetExamples.

(* ================================================================== *)
(** * The preflight prober *)
(* ================================================================== *)

Section Preflight.

Variable E : environment.

Lemma status_ok_iff (status : Z) :
  status_ok status = true <-> (200 <= status < 400)%Z.
Proof.
  unfold status_ok. rewrite !andb_true_iff, negb_true_iff.
  rewrite Z.eqb_neq, Z.leb_le, Z.ltb_lt. lia.
Qed.

Lemma probe_hist_0 (urls : list pystr) (h : list event) : probe_hist urls 0 h = h.
Proof. unfold probe_hist. rewrite take_0. reflexivity. Qed.

Lemma probe_hist_S (u : pystr) (rest : list pystr) (i : nat) (h : list event) :
  probe_hist (u :: rest) (S i) h = probe_hist rest i (EvProbe u :: h).
Proof.
  unfold probe_hist. cbn [take map rev]. rewrite <- app_assoc. reflexivity.
Qed.

(** What one run of the loop of [_preflight] does, from any point. *)
Lemma preflight_from_spec (urls : list pystr) :
  forall (details : list pystr) (s : pool),
  exists (ok : bool) (ds : list pystr) (s' : pool),
    preflight_from E urls details s = Ret (ok, details ++ ds) s'
    /\ dyn_penalty s' = dyn_penalty s
    /\ last_switch_ts s' = last_switch_ts s
    /\ lock_held s' = lock_held s
    /\ (ok = true ->
        (forall i u, urls !! i = Some u ->
           probe_passes (env_probe E (probe_hist urls i (log s)) u) = true)
        /\ log s' = probe_hist urls (length urls) (log s)
        /\ length ds = length urls)
    /\ (ok = false ->
        exists i u,
          urls !! i = Some u
          /\ probe_passes (env_probe E (probe_hist urls i (log s)) u) = false
          /\ (forall j u', (j < i)%nat -> urls !! j = Some u' ->
                probe_passes (env_probe E (probe_hist urls j (log s)) u') = true)
          /\ log s' = probe_hist urls (S i) (log s)
          /\ last ds = Some (probe_detail u (env_probe E (probe_hist urls i (log s)) u))
          /\ length ds = S i).
Proof.
  induction urls as [|u rest IH]; intros details s.
  - exists true, [], s. cbn [preflight_from]. unfold ret. rewrite app_nil_r.
    repeat split; try reflexivity; discriminate.
  - cbn [preflight_from]. unfold bind at 1, probe_once at 1. cbn [fst snd].
    set (answer := env_probe E (log s) u).
    destruct (probe_passes answer) eqn:Hpass.
    + destruct (IH (details ++ [probe_detail u answer]) (record_event (EvProbe u) s))
        as (ok & ds & s' & Hrun & Hl & Ht & Hk & Hok & Hfail).
      exists ok, (probe_detail u answer :: ds), s'.
      rewrite Hrun, <- app_assoc. cbn [app].
      split; [reflexivity|]. split; [exact Hl|]. split; [exact Ht|]. split; [exact Hk|].
      cbn [log record_event] in Hok, Hfail. split.
      * intros Htrue. destruct (Hok Htrue) as (Hall & Hlog & Hlen). repeat split.
        -- intros [|i] u' Hi.
           ++ cbn in Hi. injection Hi as <-. rewrite probe_hist_0. exact Hpass.
           ++ rewrite probe_hist_S. apply Hall. exact Hi.
        -- cbn [length]. rewrite probe_hist_S. exact Hlog.
        -- cbn [length]. rewrite Hlen. reflexivity.
      * intros Hfalse.
        destruct (Hfail Hfalse) as (i & u' & Hi & Hno & Hbefore & Hlog & Hlast & Hlen).
        exists (S i), u'. rewrite !probe_hist_S. repeat split.
        -- exact Hi.
        -- exact Hno.
        -- intros [|j] u'' Hj Hu.
           ++ cbn in Hu. injection Hu as <-. rewrite probe_hist_0. exact Hpass.
           ++ rewrite probe_hist_S. apply Hbefore; [lia | exact Hu].
        -- exact Hlog.
        -- destruct ds as [|d ds']; [discriminate|]. cbn [last]. cbn [last] in Hlast.
           exact Hlast.
        -- cbn [length]. rewrite Hlen. reflexivity.
    + exists false, [probe_detail u answer], (record_event (EvProbe u) s).
      unfold ret. split; [reflexivity|]. repeat split; try discriminate.
      intros _. exists 0%nat, u. rewrite probe_hist_0. repeat split.
      * exact Hpass.
      * intros j u' Hj. lia.
Qed.

(** C7. [_preflight] always returns. It succeeds exactly when every URL of
    the fixed list, probed in order, is answered with a status from 200 to
    399 (an exception and the status 407 are failures). When it fails, some
    URL of the list is the first whose probe fails: the URLs probed are
    exactly those up to and including it, no later one, and the last
    detail returned is that probe's. It touches neither the ledger nor the
    idle timer. *)
Theorem preflight_spec (s : pool) :
  exists (ok : bool) (details : list pystr) (s' : pool),
    preflight E s = Ret (ok, details) s'
    /\ dyn_penalty s' = dyn_penalty s
    /\ last_switch_ts s' = last_switch_ts s
    /\ (ok = true <->
        forall i u, PREFLIGHT_URLS !! i = Some u ->
          exists status,
            env_probe E (probe_hist PREFLIGHT_URLS i (log s)) u = inr status
            /\ (200 <= status < 400)%Z)
    /\ (ok = true ->
        log s' = probe_hist PREFLIGHT_URLS (length PREFLIGHT_URLS) (log s)
        /\ length details = length PREFLIGHT_URLS)
    /\ (ok = false ->
        exists i u,
          PREFLIGHT_URLS !! i = Some u
          /\ probe_passes (env_probe E (probe_hist PREFLIGHT_URLS i (log s)) u) = false
          /\ (forall j u', (j < i)%nat -> PREFLIGHT_URLS !! j = Some u' ->
                probe_passes (env_probe E (probe_hist PREFLIGHT_URLS j (log s)) u') = true)
          /\ log s' = probe_hist PREFLIGHT_URLS (S i) (log s)
          /\ length details = S i
          /\ last details
             = Some (probe_detail u (env_probe E (probe_hist PREFLIGHT_URLS i (log s)) u)))
    /\ probe_passes (inr 407%Z) = false
    /\ (forall e, probe_passes (inl e) = false)
    /\ (forall u, probe_detail u (inr 407%Z) = u ++ py ": proxy auth required (407)").
Proof.
  destruct (preflight_from_spec PREFLIGHT_URLS [] s)
    as (ok & ds & s' & Hrun & Hl & Ht & _ & Hok & Hfail).
  exists ok, ds, s'. cbn [app] in Hrun.
  split; [exact Hrun|]. split; [exact Hl|]. split; [exact Ht|].
  assert (Hpass : forall a, probe_passes a = true <->
                   exists status, a = inr status /\ (200 <= status < 400)%Z).
  { intros [e|st]; cbn [probe_passes].
    - split; [discriminate | intros (st & Hst & _); discriminate].
    - rewrite status_ok_iff. split.
      + intros H. exists st. split; [reflexivity | exact H].
      + intros (st' & [= <-] & H). exact H. }
  split; [|split; [|split; [|split; [|split]]]].
  - split.
    + intros Htrue i u Hi. apply Hpass. apply (proj1 (Hok Htrue)). exact Hi.
    + intros Hall. destruct ok; [reflexivity|].
      destruct (Hfail eq_refl) as (i & u & Hi & Hno & _).
      apply Hall, Hpass in Hi. congruence.
  - intros Htrue. destruct (Hok Htrue) as (_ & Hlog & Hlen). split; assumption.
  - intros Hfalse. destruct (Hfail Hfalse) as (i & u & Hi & Hno & Hb & Hlog & Hlast & Hlen).
    exists i, u. repeat split; assumption.
  - reflexivity.
  - intros e. reflexivity.
  - intros u. reflexivity.
Qed.

End Preflight.

(* ================================================================== *)
(** * The best pick *)
(* ================================================================== *)

Section BestPick.

Local Open Scope R_scope.

Lemma str_gtb_irrefl (a : pystr) : str_gtb a a = false.
Proof.
  induction a as [|x a IH]; [reflexivity|].
  cbn [str_gtb]. rewrite N.eqb_refl. exact IH.
Qed.

Lemma str_gtb_trans (a : pystr) : forall b c : pystr,
  str_gtb a b = true -> str_gtb b c = true -> str_gtb a c = true.
Proof.
  induction a as [|x a IH]; intros b c Hab Hbc; [discriminate|].
  destruct b as [|y b]; [discriminate|].
  destruct c as [|z c]; [reflexivity|].
  cbn [str_gtb] in *.
  destruct (N.eqb_spec x y) as [Hxy|Hxy], (N.eqb_spec y z) as [Hyz|Hyz],
           (N.eqb_spec x z) as [Hxz|Hxz];
    try apply N.ltb_lt in Hab; try apply N.ltb_lt in Hbc;
    try apply N.ltb_lt; try lia.
  eapply IH; eassumption.
Qed.

Lemma str_gtb_total (a : pystr) : forall b : pystr,
  a <> b -> str_gtb a b = true \/ str_gtb b a = true.
Proof.
  induction a as [|x a IH]; intros [|y b] Hne.
  - contradiction.
  - right. reflexivity.
  - left. reflexivity.
  - cbn [str_gtb]. rewrite (N.eqb_sym y x).
    destruct (N.eqb_spec x y) as [->|Hxy].
    + apply IH. congruence.
    + rewrite !N.ltb_lt. lia.
Qed.

Lemma key_gtb_spec (r1 r2 : Z) (s1 s2 : R) (n1 n2 : pystr) :
  key_gtb (r1, s1, n1) (r2, s2, n2) = true <->
  (r2 < r1)%Z \/ (r1 = r2 /\ s2 < s1) \/ (r1 = r2 /\ s1 = s2 /\ str_gtb n1 n2 = true).
Proof.
  unfold key_gtb. destruct (Z.eqb_spec r1 r2) as [->|Hr]; cbn [negb].
  - unfold Reqb. destruct (Req_dec_T s1 s2) as [->|Hs]; cbn [negb].
    + split; [intros H; right; right; auto|].
      intros [H|[[_ H]|(_ & _ & H)]]; [lia | lra | exact H].
    + unfold Rgtb. destruct (Rgt_dec s1 s2) as [Hg|Hg].
      * split; [intros _; right; left; split; [reflexivity | lra] | reflexivity].
      * split; [discriminate|].
        intros [H|[[_ H]|(_ & H & _)]]; [lia | lra | contradiction].
  - rewrite Z.ltb_lt. split; [intros H; left; exact H|].
    intros [H|[[H _]|(H & _)]]; [exact H | contradiction | contradiction].
Qed.

Lemma key_gtb_trans (k1 k2 k3 : Z * R * pystr) :
  key_gtb k1 k2 = true -> key_gtb k2 k3 = true -> key_gtb k1 k3 = true.
Proof.
  destruct k1 as [[r1 s1] n1], k2 as [[r2 s2] n2], k3 as [[r3 s3] n3].
  rewrite !key_gtb_spec.
  intros [H1|[[H1 H1']|(H1 & H1' & H1'')]] [H2|[[H2 H2']|(H2 & H2' & H2'')]];
    subst; try (left; lia); try (right; left; split; [reflexivity | lra]).
  right; right. repeat split. eapply str_gtb_trans; eassumption.
Qed.

(** [max_from] returns one of the items, and none of them beats it. *)
Lemma max_from_spec (key : pystr -> Z * R * pystr) (rest : list pystr) :
  forall best : pystr,
    In (max_from key best rest) (best :: rest)
    /\ (key_gtb (key best) (key (max_from key best rest)) = false)
    /\ (forall c, In c rest -> key_gtb (key c) (key (max_from key best rest)) = false).
Proof.
  induction rest as [|x r IH]; intros best; cbn [max_from].
  - split; [left; reflexivity|]. split; [|intros c []].
    destruct (key best) as [[r0 s0] n0].
    destruct (key_gtb (r0, s0, n0) (r0, s0, n0)) eqn:Hk; [|reflexivity].
    apply key_gtb_spec in Hk as [H|[[_ H]|(_ & _ & H)]]; [lia | lra |].
    rewrite str_gtb_irrefl in H. discriminate.
  - destruct (key_gtb (key x) (key best)) eqn:Hx.
    + destruct (IH x) as (Hin & Hself & Hrest).
      split; [destruct Hin as [<-|Hin]; [right; left; reflexivity | right; right; exact Hin]|].
      split.
      * destruct (key_gtb (key best) (key (max_from key x r))) eqn:Hb; [|reflexivity].
        pose proof (key_gtb_trans _ _ _ Hx Hb) as Ht. congruence.
      * intros c [<-|Hc]; [exact Hself | apply Hrest; exact Hc].
    + destruct (IH best) as (Hin & Hself & Hrest).
      split; [destruct Hin as [<-|Hin]; [left; reflexivity | right; right; exact Hin]|].
      split; [exact Hself|].
      intros c [Hcx|Hc]; [|apply Hrest; exact Hc].
      subst x.
      destruct (key_gtb (key c) (key (max_from key best r))) eqn:Hb; [|reflexivity].
      destruct (decide (max_from key best r = best)) as [Heq|Hne].
      * rewrite Heq in Hb. congruence.
      * (* the maximum beats [best], which [c] does not beat *)
        destruct Hin as [Heq|Hin]; [congruence|].
        clear Hrest Hne Hin IH.
        destruct (key c) as [[r1 s1] n1], (key best) as [[r2 s2] n2],
                 (key (max_from key best r)) as [[r3 s3] n3].
        apply key_gtb_spec in Hb.
        assert (Hx' : ~ ((r2 < r1)%Z \/ (r1 = r2 /\ s2 < s1)
                         \/ (r1 = r2 /\ s1 = s2 /\ str_gtb n1 n2 = true)))
          by (rewrite <- key_gtb_spec, Hx; discriminate).
        assert (Hs' : ~ ((r3 < r2)%Z \/ (r2 = r3 /\ s3 < s2)
                         \/ (r2 = r3 /\ s2 = s3 /\ str_gtb n2 n3 = true)))
          by (rewrite <- key_gtb_spec, Hself; discriminate).
        exfalso.
        destruct Hb as [H|[[-> H]|(-> & -> & H)]].
        -- apply Hx'. destruct (Z.lt_trichotomy r3 r2) as [Hl|[->|Hl]].
           ++ exfalso. apply Hs'. left. exact Hl.
           ++ left. exact H.
           ++ left. lia.
        -- destruct (Z.lt_trichotomy r3 r2) as [Hl|[->|Hl]].
           ++ apply Hs'. left. exact Hl.
           ++ destruct (Rtotal_order s3 s2) as [Hl|[->|Hl]].
              ** apply Hs'. right; left. split; [reflexivity | exact Hl].
              ** apply Hx'. right; left. split; [reflexivity | exact H].
              ** apply Hx'. right; left. split; [reflexivity | lra].
           ++ apply Hx'. left. exact Hl.
        -- destruct (Z.lt_trichotomy r3 r2) as [Hl|[->|Hl]].
           ++ apply Hs'. left. exact Hl.
           ++ destruct (Rtotal_order s3 s2) as [Hl|[->|Hl]].
              ** apply Hs'. right; left. split; [reflexivity | exact Hl].
              ** destruct (decide (n2 = n3)) as [->|Hn].
                 --- apply Hx'. right; right. repeat split. exact H.
                 --- destruct (str_gtb_total n2 n3 Hn) as [Hg|Hg].
                     +++ apply Hs'. right; right. repeat split. exact Hg.
                     +++ apply Hx'. right; right. repeat split.
                         eapply str_gtb_trans; eassumption.
              ** apply Hx'. right; left. split; [reflexivity | exact Hl].
           ++ apply Hx'. left. exact Hl.
Qed.

Lemma key_gtb_false (r1 r2 : Z) (s1 s2 : R) (n1 n2 : pystr) :
  key_gtb (r1, s1, n1) (r2, s2, n2) = false ->
  (r1 <= r2)%Z
  /\ (r1 = r2 -> s1 <= s2)
  /\ (r1 = r2 -> s1 = s2 -> str_gtb n1 n2 = false).
Proof.
  intros H.
  assert (Hn : ~ ((r2 < r1)%Z \/ (r1 = r2 /\ s2 < s1)
                  \/ (r1 = r2 /\ s1 = s2 /\ str_gtb n1 n2 = true)))
    by (rewrite <- key_gtb_spec, H; discriminate).
  split; [|split].
  - destruct (Z.le_gt_cases r1 r2) as [Hl|Hl]; [exact Hl|].
    exfalso. apply Hn. left. lia.
  - intros ->. destruct (Rle_dec s1 s2) as [Hl|Hl]; [exact Hl|].
    exfalso. apply Hn. right; left. split; [reflexivity | lra].
  - intros -> ->. destruct (str_gtb n1 n2) eqn:Hg; [|reflexivity].
    exfalso. apply Hn. right; right. repeat split.
Qed.

(** C3, as the code has it. The best pick is the candidate whose key
    (liveness rank, score, name) is greatest, components compared from the
    left: no candidate has a higher liveness rank (alive = true ranks above
    unknown); among those of its rank none has a higher score; and among
    those of its rank and score none has a greater name. So of two
    candidates with equal liveness rank and equal score, the one whose name
    is lexicographically smaller is not selected: the greater name wins the
    tie. *)
Theorem best_pick_spec (ledger : gmap pystr R) (alive_map : gmap pystr (option bool))
    (candidates : list pystr) :
  candidates <> [] ->
  exists best,
    best_candidate ledger alive_map candidates = Some best
    /\ In best candidates
    /\ (forall c, In c candidates ->
          key_gtb (rank_key ledger alive_map c) (rank_key ledger alive_map best) = false)
    /\ (forall c, In c candidates ->
          (alive_rank (alive_get alive_map c) <= alive_rank (alive_get alive_map best))%Z)
    /\ (forall c, In c candidates ->
          alive_rank (alive_get alive_map c) = alive_rank (alive_get alive_map best) ->
          score_in ledger c <= score_in ledger best)
    /\ (forall c, In c candidates ->
          alive_rank (alive_get alive_map c) = alive_rank (alive_get alive_map best) ->
          score_in ledger c = score_in ledger best ->
          str_gtb c best = false)
    /\ (forall a b, In a candidates -> In b candidates ->
          alive_rank (alive_get alive_map a) = alive_rank (alive_get alive_map b) ->
          score_in ledger a = score_in ledger b ->
          str_gtb a b = true ->
          best <> b)
    /\ (alive_rank None < alive_rank (Some true))%Z
    /\ alive_rank (Some false) = alive_rank None.
Proof.
  intros Hne. destruct candidates as [|x r]; [contradiction|].
  exists (max_from (rank_key ledger alive_map) x r).
  destruct (max_from_spec (rank_key ledger alive_map) r x) as (Hin & Hself & Hrest).
  set (best := max_from (rank_key ledger alive_map) x r) in *.
  assert (Hmax : forall c, In c (x :: r) ->
            key_gtb (rank_key ledger alive_map c) (rank_key ledger alive_map best) = false).
  { intros c [<-|Hc]; [exact Hself | apply Hrest; exact Hc]. }
  split; [reflexivity|]. split; [exact Hin|]. split; [exact Hmax|].
  split; [|split; [|split; [|split; [|split]]]].
  - intros c Hc. apply (key_gtb_false _ _ _ _ _ _ (Hmax c Hc)).
  - intros c Hc. apply (key_gtb_false _ _ _ _ _ _ (Hmax c Hc)).
  - intros c Hc. apply (key_gtb_false _ _ _ _ _ _ (Hmax c Hc)).
  - intros a b Ha Hb Hr Hs Hg Heq. subst b.
    pose proof (key_gtb_false _ _ _ _ _ _ (Hmax a Ha)) as (_ & _ & Hn).
    rewrite (Hn Hr Hs) in Hg. discriminate.
  - reflexivity.
  - reflexivity.
Qed.

Lemma score_in_same_tags (ledger : gmap pystr R) (a b : pystr) :
  parse_name a = parse_name b ->
  penalty_of ledger a = penalty_of ledger b ->
  score_in ledger a = score_in ledger b.
Proof.
  intros Ht Hp. unfold score_in. rewrite (base_score_tags a b Ht), Hp. reflexivity.
Qed.

(** [best_pick_spec] on the candidates "a" and "b" of an empty ledger
    with no liveness reported: "b" is picked. *)
Lemma best_pick_spec_witness :
  exists best,
    best_candidate ∅ ∅ [py "a"; py "b"] = Some best /\ best <> py "a".
Proof.
  destruct (best_pick_spec ∅ ∅ [py "a"; py "b"] ltac:(discriminate))
    as (best & Hbest & _ & _ & _ & _ & _ & Hsmall & _).
  exists best. split; [exact Hbest|].
  apply (Hsmall (py "b") (py "a")).
  - right; left; reflexivity.
  - left; reflexivity.
  - reflexivity.
  - apply score_in_same_tags; [vm_compute; reflexivity | reflexivity].
  - vm_compute. reflexivity.
Defined.

(** C3 as stated fails: "a" and "b" are usable candidates with equal
    liveness rank and equal score, "a" is the lexicographically smaller
    name, and the best pick is "b". *)
Lemma best_pick_counterexample :
  restrict_usable [py "a"; py "b"] ∅ = [py "a"; py "b"]
  /\ alive_rank (alive_get ∅ (py "a")) = alive_rank (alive_get ∅ (py "b"))
  /\ score_in ∅ (py "a") = score_in ∅ (py "b")
  /\ str_gtb (py "b") (py "a") = true
  /\ best_candidate ∅ ∅ [py "a"; py "b"] = Some (py "b")
  /\ py "b" <> py "a".
Proof.
  assert (Hs : score_in ∅ (py "a") = score_in ∅ (py "b")).
  { apply score_in_same_tags; [vm_compute; reflexivity | reflexivity]. }
  split; [vm_compute; reflexivity|].
  split; [reflexivity|].
  split; [exact Hs|].
  split; [vm_compute; reflexivity|].
  split; [|discriminate].
  unfold best_candidate, py_max. cbn [max_from]. f_equal.
  assert (Hk : key_gtb (rank_key ∅ ∅ (py "b")) (rank_key ∅ ∅ (py "a")) = true).
  { unfold rank_key. apply key_gtb_spec. right; right.
    split; [reflexivity|]. split; [symmetry; exact Hs | vm_compute; reflexivity]. }
  rewrite Hk. reflexivity.
Qed.

End BestPick.

(* ================================================================== *)
(** * What every step of the engine respects *)
(* ================================================================== *)

Section Steps.

Variable E : environment.
Variable cfg : settings.
Variable Rel : pool -> pool -> Prop.
Hypothesis HR : step_relation Rel.

Local Open Scope R_scope.

Lemma rel_bind {A B} (m : M A) (k : A -> M B) (s : pool) :
  Rel s (final (m s)) ->
  (forall a s', m s = Ret a s' -> Rel s' (final (k a s'))) ->
  Rel s (final (bind m k s)).
Proof.
  intros Hm Hk. unfold bind. destruct (m s) as [a s'|e s'|s'|s'] eqn:Hms;
    cbn [final] in *; try exact Hm.
  eapply (sr_trans Rel HR); [exact Hm | apply Hk; reflexivity].
Qed.

Lemma preserves_bind {A B} (m : M A) (k : A -> M B) :
  preserves Rel m -> (forall a, preserves Rel (k a)) -> preserves Rel (bind m k).
Proof.
  intros Hm Hk s. apply rel_bind; [apply Hm | intros a s' _; apply Hk].
Qed.

Lemma preserves_ret {A} (a : A) : preserves Rel (ret a).
Proof. intros s. apply (sr_refl Rel HR). Qed.

Lemma preserves_raise {A} (e : exn) : preserves Rel (@raise A e).
Proof. intros s. apply (sr_refl Rel HR). Qed.

Lemma preserves_with_lock {A} (body : M A) :
  preserves Rel body -> preserves Rel (with_lock body).
Proof.
  intros Hb s. unfold with_lock. destruct (lock_held s); [apply (sr_refl Rel HR)|].
  specialize (Hb (set_lock true s)).
  assert (H0 : Rel s (final (body (set_lock true s)))).
  { eapply (sr_trans Rel HR); [apply (sr_lock Rel HR) | exact Hb]. }
  destruct (body (set_lock true s)) as [a s'|e s'|s'|s']; cbn [final] in *;
    try exact H0;
    (eapply (sr_trans Rel HR); [exact H0 | apply (sr_lock Rel HR)]).
Qed.

Lemma rel_event (s : pool) (e : event) :
  (forall n sc, e <> EvPut n sc) -> e <> EvRefresh -> Rel s (record_event e s).
Proof. apply (sr_event Rel HR). Qed.

Lemma preserves_touch_switch_ts : preserves Rel (touch_switch_ts E).
Proof.
  intros s. unfold touch_switch_ts. cbn [final].
  eapply (sr_trans Rel HR); [|apply (sr_ts Rel HR)].
  apply rel_event; [intros n sc; discriminate | discriminate].
Qed.

Lemma preserves_maybe_refresh_dynamic : preserves Rel (maybe_refresh_dynamic E).
Proof.
  intros s. unfold maybe_refresh_dynamic.
  assert (H1 : Rel s (record_event EvClock s))
    by (apply rel_event; [intros n sc; discriminate | discriminate]).
  destruct (Rltb _ _); [exact H1|].
  destruct (negb _).
  - eapply (sr_trans Rel HR); [exact H1 | apply preserves_touch_switch_ts].
  - eapply (sr_trans Rel HR); [exact H1|].
    unfold bind, touch_switch_ts. cbn [final]. apply (sr_reset Rel HR).
Qed.

Lemma preserves_ensure_started : preserves Rel (ensure_started E cfg).
Proof.
  unfold ensure_started. destruct (negb (enabled cfg)); [apply preserves_ret|].
  apply preserves_with_lock. intros s.
  assert (H1 : Rel s (record_event EvInit s))
    by (apply rel_event; [intros n sc; discriminate | discriminate]).
  destruct (env_init E (log s)); [destruct (required cfg)|]; exact H1.
Qed.

Lemma preserves_get_proxies : preserves Rel (get_proxies E).
Proof.
  intros s. unfold get_proxies.
  assert (H1 : Rel s (record_event EvGetProxies s))
    by (apply rel_event; [intros n sc; discriminate | discriminate]).
  destruct (env_get_proxies E (log s)) as [e|[]]; exact H1.
Qed.

Lemma preserves_get_group : preserves Rel (get_group E).
Proof.
  unfold get_group. apply preserves_bind; [apply preserves_get_proxies|].
  intros doc. destruct (parse_group doc); [apply preserves_raise | apply preserves_ret].
Qed.

Lemma preserves_probe_once (url : pystr) : preserves Rel (probe_once E url).
Proof.
  intros s. unfold probe_once. cbn [final].
  apply rel_event; [intros n sc; discriminate | discriminate].
Qed.

Lemma preserves_preflight_from (urls : list pystr) :
  forall details, preserves Rel (preflight_from E urls details).
Proof.
  induction urls as [|u rest IH]; intros details; cbn [preflight_from].
  - apply preserves_ret.
  - apply preserves_bind; [apply preserves_probe_once|].
    intros [ok d]. cbn [fst snd]. destruct ok; [apply IH | apply preserves_ret].
Qed.

Lemma preserves_preflight : preserves Rel (preflight E).
Proof. apply preserves_preflight_from. Qed.

Lemma preserves_apply_penalty (name kind detail : pystr) :
  preserves Rel (apply_penalty name kind detail).
Proof.
  intros s. unfold apply_penalty. cbn [final]. apply (sr_grow Rel HR).
  intros n. destruct (decide (name = n)) as [->|Hne].
  - rewrite penalty_of_insert_eq. pose proof (penalty_amount_pos kind). lra.
  - rewrite penalty_of_insert_ne by exact Hne. lra.
Qed.

Lemma preserves_setdefault_all (candidates : list pystr) :
  preserves Rel (setdefault_all candidates).
Proof.
  intros s. unfold setdefault_all. cbn [final]. apply (sr_grow Rel HR).
  intros n. rewrite penalty_of_setdefaults. lra.
Qed.

Lemma rel_select_group (name : pystr) (s : pool) :
  SCORE_THRESHOLD <= score s name -> Rel s (final (select_group E name s)).
Proof.
  intros Hs. unfold select_group.
  destruct (env_put E (log s) name); cbn [final]; apply (sr_put Rel HR); exact Hs.
Qed.

Lemma preserves_sticky_check (now : option pystr) (candidates : list pystr) :
  preserves Rel (sticky_check E now candidates).
Proof.
  intros s. unfold sticky_check. destruct now as [n|]; [|apply (sr_refl Rel HR)].
  destruct (_ && _ && _); [|apply (sr_refl Rel HR)].
  apply preserves_bind; [apply preserves_preflight|].
  intros [ok ds]. cbn [fst snd]. destruct ok; [apply preserves_ret|].
  apply preserves_bind; [apply preserves_apply_penalty | intros _; apply preserves_ret].
Qed.

Lemma preserves_switch_and_probe (now : option pystr) (candidates : list pystr)
    (alive_map : gmap pystr (option bool)) :
  preserves Rel (switch_and_probe E now candidates alive_map).
Proof.
  intros s. unfold switch_and_probe.
  destruct (best_candidate _ _ _) as [best|]; [|apply (sr_refl Rel HR)].
  unfold Rltb. destruct (Rlt_dec (score s best) SCORE_THRESHOLD) as [Hlt|Hge];
    [apply (sr_refl Rel HR)|].
  apply rel_bind.
  - destruct (bool_decide (Some best = now)); [apply preserves_ret|].
    apply rel_bind; [apply rel_select_group; lra|].
    intros _ s' _. apply preserves_bind; [apply preserves_touch_switch_ts|].
    intros _. apply preserves_ret.
  - intros now' s' _. apply preserves_bind; [apply preserves_preflight|].
    intros [ok ds]. cbn [fst snd]. destruct ok; [apply preserves_ret|].
    destruct now' as [n|]; [|apply preserves_ret].
    destruct (truthy (Some n)); [|apply preserves_ret].
    apply preserves_bind; [apply preserves_apply_penalty | intros _; apply preserves_ret].
Qed.

Lemma preserves_ensure_loop (fuel : nat) : preserves Rel (ensure_loop E fuel).
Proof.
  induction fuel as [|fuel IH]; cbn [ensure_loop].
  - intros s. apply (sr_refl Rel HR).
  - apply preserves_bind; [apply preserves_get_group|].
    intros [[now candidates] alive_map].
    destruct candidates as [|c cs]; [apply preserves_raise|].
    apply preserves_bind; [apply preserves_setdefault_all|]. intros _.
    apply preserves_bind; [apply preserves_sticky_check|].
    intros stuck. destruct stuck; [apply preserves_ret|].
    apply preserves_bind; [apply preserves_switch_and_probe|].
    intros [held|]; [apply preserves_ret | exact IH].
Qed.

Lemma preserves_ensure_proxy_reachable (fuel : nat) :
  preserves Rel (ensure_proxy_reachable E cfg fuel).
Proof.
  unfold ensure_proxy_reachable. destruct (negb (enabled cfg)); [apply preserves_ret|].
  apply preserves_bind; [apply preserves_ensure_started|]. intros _.
  apply preserves_with_lock.
  apply preserves_bind; [apply preserves_maybe_refresh_dynamic|]. intros _.
  apply preserves_bind; [apply preserves_ensure_loop|]. intros _. apply preserves_ret.
Qed.

Lemma preserves_on_failure (fuel : nat) (kind detail : pystr) :
  preserves Rel (on_failure E cfg fuel kind detail).
Proof.
  unfold on_failure. destruct (negb (enabled cfg)); [apply preserves_ret|].
  apply preserves_bind; [apply preserves_ensure_started|]. intros _.
  apply preserves_bind.
  - apply preserves_with_lock.
    apply preserves_bind; [apply preserves_get_group|].
    intros [[now candidates] alive_map].
    assert (Hens : preserves Rel (ensure_proxy_reachable E cfg fuel ;; ret true)).
    { apply preserves_bind; [apply preserves_ensure_proxy_reachable|].
      intros _. apply preserves_ret. }
    destruct now as [n|]; [|exact Hens].
    destruct (truthy (Some n)); [|exact Hens].
    apply preserves_bind; [apply preserves_apply_penalty | intros _; apply preserves_ret].
  - intros returned. destruct returned;
      [apply preserves_ret | apply preserves_ensure_proxy_reachable].
Qed.

Lemma preserves_run_call (fuel : nat) (c : call) : preserves Rel (run_call E cfg fuel c).
Proof.
  destruct c; cbn [run_call].
  - apply preserves_on_failure.
  - apply preserves_apply_penalty.
  - apply preserves_ensure_proxy_reachable.
Qed.

Lemma rel_run_calls (fuel : nat) (calls : list call) :
  forall s, Rel s (run_calls E cfg fuel calls s).
Proof.
  induction calls as [|c rest IH]; intros s; cbn [run_calls].
  - apply (sr_refl Rel HR).
  - pose proof (preserves_run_call fuel c s) as Hc.
    destruct (run_call E cfg fuel c s) as [a s'|e s'|s'|s']; cbn [final] in Hc;
      try exact Hc;
      (eapply (sr_trans Rel HR); [exact Hc | apply IH]).
Qed.

End Steps.

(* ================================================================== *)
(** * Three step relations *)
(* ================================================================== *)

Section StepRelations.

Local Open Scope R_scope.

Lemma penalties_grow_rel : step_relation penalties_grow.
Proof.
  constructor; unfold penalties_grow.
  - intros s. split; [lia | intros _ n; lra].
  - intros s1 s2 s3 [H1 H1'] [H2 H2']. split; [lia|].
    intros Heq n. apply Rle_trans with (penalty_of (dyn_penalty s2) n).
    + apply H1'. lia.
    + apply H2'. lia.
  - intros s e Hput Href. cbn [log record_event dyn_penalty].
    rewrite count_refresh_cons. destruct e; try contradiction;
      (split; [lia | intros _ n; lra]).
  - intros s n sc _. cbn [log record_event dyn_penalty]. rewrite count_refresh_cons.
    split; [lia | intros _ k; lra].
  - intros s t. cbn [log set_switch_ts dyn_penalty]. split; [lia | intros _ n; lra].
  - intros s b. cbn [log set_lock dyn_penalty]. split; [lia | intros _ n; lra].
  - intros s m' Hm. cbn [log set_ledger dyn_penalty]. split; [lia | intros _; exact Hm].
  - intros s t. cbn [log record_event set_switch_ts set_ledger dyn_penalty].
    rewrite !count_refresh_cons. split; [lia | intros Heq; lia].
Qed.

Lemma switches_ok_rel : step_relation switches_ok.
Proof.
  constructor; unfold switches_ok.
  - intros s. exists []. split; [reflexivity | constructor].
  - intros s1 s2 s3 (n1 & H1 & F1) (n2 & H2 & F2). exists (n2 ++ n1). split.
    + rewrite H2, H1, app_assoc. reflexivity.
    + apply Forall_app. split; assumption.
  - intros s e Hput Href. exists [e]. split; [reflexivity|].
    constructor; [|constructor]. destruct e; cbn [event_ok]; try exact I.
    exfalso. eapply Hput. reflexivity.
  - intros s n sc Hsc. exists [EvPut n sc]. split; [reflexivity|].
    constructor; [exact Hsc | constructor].
  - intros s t. exists []. split; [reflexivity | constructor].
  - intros s b. exists []. split; [reflexivity | constructor].
  - intros s m' _. exists []. split; [reflexivity | constructor].
  - intros s t. exists [EvRefresh; EvClock]. split; [reflexivity|].
    repeat constructor.
Qed.

Lemma keeps_nonneg_rel : step_relation keeps_nonneg.
Proof.
  constructor; unfold keeps_nonneg; try (intros; cbn; assumption).
  - intros s1 s2 s3 H1 H2 H. apply H2, H1, H.
  - intros s m' Hm Hs. cbn [set_ledger dyn_penalty]. intros k v Hk.
    specialize (Hm k). unfold penalty_of in Hm. rewrite Hk in Hm.
    destruct (dyn_penalty s !! k) as [w|] eqn:Hw; simpl in Hm.
    + specialize (Hs k w Hw). lra.
    + exact Hm.
  - intros s t _. cbn [record_event set_switch_ts set_ledger dyn_penalty].
    intros k v Hk. rewrite (ledger_reset_all_zero _ k v Hk). lra.
Qed.

End StepRelations.

(* ================================================================== *)
(** * The ledger only grows *)
(* ================================================================== *)

Section LedgerMonotone.

Variable E : environment.
Variable cfg : settings.

Local Open Scope R_scope.

(** The ledger never holds a negative penalty, whatever calls are made. *)
Lemma ledger_stays_nonneg (fuel : nat) (calls : list call) (s : pool) :
  ledger_nonneg (dyn_penalty s) ->
  ledger_nonneg (dyn_penalty (run_calls E cfg fuel calls s)).
Proof. apply (rel_run_calls E cfg keeps_nonneg keeps_nonneg_rel). Qed.

(** C1. The score of a name is its base score minus its penalty, the
    penalty being 0 for a name the ledger does not hold. [_apply_penalty]
    adds the fixed amount of its kind, which is positive, to the penalty
    of its target and changes no other penalty. Across any sequence of
    [on_failure], [_apply_penalty] and [ensure_proxy_reachable] calls,
    however each ends, no penalty is lower afterwards unless an idle reset
    took place in between. *)
Theorem ledger_monotone :
  (forall (s : pool) (name : pystr),
     score s name = base_score name - penalty_of (dyn_penalty s) name)
  /\ (forall (s : pool) (name : pystr),
        dyn_penalty s !! name = None -> score s name = base_score name)
  /\ (forall (name kind detail : pystr) (s : pool),
        exists s',
          apply_penalty name kind detail s = Ret tt s'
          /\ penalty_of (dyn_penalty s') name
             = penalty_of (dyn_penalty s) name + penalty_amount kind
          /\ 0 < penalty_amount kind
          /\ (forall n, n <> name ->
                penalty_of (dyn_penalty s') n = penalty_of (dyn_penalty s) n))
  /\ (forall (fuel : nat) (calls : list call) (s : pool),
        count_refresh (log (run_calls E cfg fuel calls s)) = count_refresh (log s) ->
        forall n,
          penalty_of (dyn_penalty s) n
          <= penalty_of (dyn_penalty (run_calls E cfg fuel calls s)) n).
Proof.
  split; [intros s name; reflexivity|].
  split.
  { intros s name Hn. unfold score, score_in, penalty_of. rewrite Hn. cbn. lra. }
  split.
  { intros name kind detail s. eexists. split; [reflexivity|].
    cbn [set_ledger dyn_penalty]. split; [apply penalty_of_insert_eq|].
    split; [apply penalty_amount_pos|].
    intros n Hn. apply penalty_of_insert_ne. congruence. }
  intros fuel calls s Hcount n.
  destruct (rel_run_calls E cfg penalties_grow penalties_grow_rel fuel calls s) as [_ H].
  apply H. symmetry. exact Hcount.
Qed.

End LedgerMonotone.

(** [ledger_monotone], last part, on two penalties applied to a fresh
    pool: risk, then mail. *)
Lemma ledger_monotone_witness :
  (penalty_of (dyn_penalty (new_pool 0)) (py "A")
   <= penalty_of
        (dyn_penalty
           (run_calls (steady_env (fun _ => 0%R) JNull 204) pool_on 0
              [CallApplyPenalty (py "A") (py "risk") [];
               CallApplyPenalty (py "A") (py "mail") []]
              (new_pool 0)))
        (py "A"))%R.
Proof.
  apply (proj2 (proj2 (proj2
           (ledger_monotone (steady_env (fun _ => 0%R) JNull 204) pool_on)))
           0%nat
           [CallApplyPenalty (py "A") (py "risk") [];
            CallApplyPenalty (py "A") (py "mail") []]
           (new_pool 0)).
  reflexivity.
Defined.

(* ================================================================== *)
(** * The ensure-reachable loop *)
(* ================================================================== *)

Section Loop.

Variable E : environment.

Local Open Scope R_scope.

Lemma bind_ret_inv {A B} (m : M A) (k : A -> M B) (s s' : pool) (b : B) :
  bind m k s = Ret b s' ->
  exists a s1, m s = Ret a s1 /\ k a s1 = Ret b s'.
Proof.
  unfold bind. destruct (m s) as [a s1|e s1|s1|s1]; try discriminate.
  intros H. exists a, s1. split; [reflexivity | exact H].
Qed.

Lemma in_list_In (n : pystr) (l : list pystr) : in_list n l = true <-> In n l.
Proof.
  unfold in_list. rewrite existsb_exists. split.
  - intros (x & Hx & Heq). unfold str_eqb in Heq. apply bool_decide_eq_true in Heq.
    subst. exact Hx.
  - intros H. exists n. split; [exact H|]. unfold str_eqb. apply bool_decide_eq_true.
    reflexivity.
Qed.

Lemma puts_of_cons (e : event) (l : list event) :
  puts_of (e :: l)
  = puts_of l ++ match e with EvPut n sc => [(n, sc)] | _ => [] end.
Proof.
  unfold puts_of. cbn [flat_map]. rewrite rev_app_distr. f_equal.
  destruct e; reflexivity.
Qed.

Lemma puts_of_probe_hist (urls : list pystr) (i : nat) (h : list event) :
  puts_of (probe_hist urls i h) = puts_of h.
Proof.
  unfold probe_hist. revert i h. induction urls as [|u rest IH]; intros i h.
  - rewrite take_nil. reflexivity.
  - destruct i as [|i]; [reflexivity|].
    cbn [take map rev]. rewrite <- app_assoc. cbn [app].
    rewrite IH, puts_of_cons, app_nil_r. reflexivity.
Qed.

Lemma count_refresh_probe_hist (urls : list pystr) (i : nat) (h : list event) :
  count_refresh (probe_hist urls i h) = count_refresh h.
Proof.
  unfold probe_hist. revert i h. induction urls as [|u rest IH]; intros i h.
  - rewrite take_nil. reflexivity.
  - destruct i as [|i]; [reflexivity|].
    cbn [take map rev]. rewrite <- app_assoc. cbn [app].
    rewrite IH, count_refresh_cons. reflexivity.
Qed.

(** [_preflight] returns, and leaves everything but the record of its
    probes as it was. *)
Lemma preflight_frame (s : pool) :
  exists ok ds s',
    preflight E s = Ret (ok, ds) s'
    /\ dyn_penalty s' = dyn_penalty s
    /\ last_switch_ts s' = last_switch_ts s
    /\ lock_held s' = lock_held s
    /\ puts_of (log s') = puts_of (log s)
    /\ count_refresh (log s') = count_refresh (log s).
Proof.
  destruct (preflight_from_spec E PREFLIGHT_URLS [] s)
    as (ok & ds & s' & Hrun & Hl & Ht & Hk & Hok & Hfail).
  exists ok, ds, s'. repeat split; try assumption.
  - destruct ok.
    + destruct (Hok eq_refl) as (_ & -> & _). apply puts_of_probe_hist.
    + destruct (Hfail eq_refl) as (i & u & _ & _ & _ & -> & _). apply puts_of_probe_hist.
  - destruct ok.
    + destruct (Hok eq_refl) as (_ & -> & _). apply count_refresh_probe_hist.
    + destruct (Hfail eq_refl) as (i & u & _ & _ & _ & -> & _).
      apply count_refresh_probe_hist.
Qed.

(** The sticky check lets the method return only on a named current
    selection that scores at least the threshold. *)
Lemma sticky_check_true (now : option pystr) (candidates : list pystr) (s s' : pool) :
  sticky_check E now candidates s = Ret true s' ->
  exists n,
    now = Some n
    /\ In n candidates
    /\ SCORE_THRESHOLD <= score s' n
    /\ dyn_penalty s' = dyn_penalty s.
Proof.
  unfold sticky_check. destruct now as [n|]; [|discriminate].
  destruct (truthy (Some n) && in_list n candidates
            && Rgeb (score s n) SCORE_THRESHOLD) eqn:Hc; [|discriminate].
  apply andb_true_iff in Hc as [Hc Hge]. apply andb_true_iff in Hc as [_ Hin].
  intros H. apply bind_ret_inv in H as ([ok ds] & s1 & Hpre & Hk).
  destruct (preflight_frame s) as (ok' & ds' & s1' & Hpre' & Hl & _).
  rewrite Hpre in Hpre'. injection Hpre' as <- <- <-.
  cbn [fst snd] in Hk. destruct ok.
  - injection Hk as <-. exists n. split; [reflexivity|].
    split; [apply in_list_In; exact Hin|]. split; [|exact Hl].
    unfold score. rewrite Hl. unfold Rgeb in Hge.
    destruct (Rge_dec (score s n) SCORE_THRESHOLD) as [Hg|]; [|discriminate].
    unfold score in Hg. lra.
  - apply bind_ret_inv in Hk as (_ & s2 & _ & Hk). discriminate.
Qed.

Lemma select_group_ledger (name : pystr) (s : pool) :
  dyn_penalty (final (select_group E name s)) = dyn_penalty s.
Proof. unfold select_group. destruct (env_put E (log s) name); reflexivity. Qed.

(** The rest of a round lets the method return only while holding its
    best pick, which scores at least the threshold. *)
Lemma switch_and_probe_some (now : option pystr) (candidates : list pystr)
    (alive_map : gmap pystr (option bool)) (s s' : pool) (held : option pystr) :
  switch_and_probe E now candidates alive_map s = Ret (Some held) s' ->
  exists best,
    held = Some best
    /\ best_candidate (dyn_penalty s) alive_map candidates = Some best
    /\ SCORE_THRESHOLD <= score s' best
    /\ dyn_penalty s' = dyn_penalty s.
Proof.
  unfold switch_and_probe.
  destruct (best_candidate (dyn_penalty s) alive_map candidates) as [best|];
    [|discriminate].
  unfold Rltb. destruct (Rlt_dec (score s best) SCORE_THRESHOLD) as [Hlt|Hge];
    [discriminate|].
  intros H. apply bind_ret_inv in H as (now' & s1 & Hsw & H).
  assert (Hnow' : now' = Some best /\ dyn_penalty s1 = dyn_penalty s).
  { destruct (bool_decide (Some best = now)) eqn:Hd.
    - apply bool_decide_eq_true in Hd. injection Hsw as <- <-.
      split; [symmetry; exact Hd | reflexivity].
    - apply bind_ret_inv in Hsw as ([] & s2 & Hsel & Hsw).
      apply bind_ret_inv in Hsw as ([] & s3 & Htouch & Hsw).
      injection Hsw as <- <-. split; [reflexivity|].
      unfold touch_switch_ts in Htouch. injection Htouch as <-.
      cbn [dyn_penalty set_switch_ts record_event].
      pose proof (select_group_ledger best s) as Hl. rewrite Hsel in Hl. exact Hl. }
  destruct Hnow' as [-> Hl1].
  apply bind_ret_inv in H as ([ok ds] & s2 & Hpre & H).
  destruct (preflight_frame s1) as (ok' & ds' & s2' & Hpre' & Hl2 & _).
  rewrite Hpre in Hpre'. injection Hpre' as <- <- <-.
  cbn [fst snd] in H. destruct ok.
  - injection H as <- <-. exists best. split; [reflexivity|]. split; [reflexivity|].
    split; [|congruence].
    unfold score in *. rewrite Hl2, Hl1. lra.
  - destruct (truthy (Some best)).
    + apply bind_ret_inv in H as (_ & s3 & _ & H). discriminate.
    + discriminate.
Qed.

(** When the loop returns, it holds a selection scoring at least the
    threshold. *)
Lemma ensure_loop_returns (fuel : nat) : forall (s s' : pool) (held : option pystr),
  ensure_loop E fuel s = Ret held s' ->
  exists n, held = Some n /\ SCORE_THRESHOLD <= score s' n.
Proof.
  induction fuel as [|fuel IH]; intros s s' held H; [discriminate|].
  cbn [ensure_loop] in H.
  apply bind_ret_inv in H as ([[now candidates] alive_map] & s1 & _ & H).
  destruct candidates as [|c cs]; [discriminate|].
  apply bind_ret_inv in H as (_ & s2 & _ & H).
  apply bind_ret_inv in H as (stuck & s3 & Hst & H).
  destruct stuck.
  - injection H as <- <-.
    apply sticky_check_true in Hst as (n & -> & _ & Hsc & _).
    exists n. split; [reflexivity | exact Hsc].
  - apply bind_ret_inv in H as (r & s4 & Hsw & H).
    destruct r as [held'|].
    + injection H as <- <-.
      apply switch_and_probe_some in Hsw as (best & -> & _ & Hsc & _).
      exists best. split; [reflexivity | exact Hsc].
    + eapply IH. exact H.
Qed.

(** Below the threshold the best pick is not switched to: the round ends
    with the exhaustion error, the pool untouched. *)
Lemma switch_and_probe_exhausted (now : option pystr) (candidates : list pystr)
    (alive_map : gmap pystr (option bool)) (s : pool) (best : pystr) :
  best_candidate (dyn_penalty s) alive_map candidates = Some best ->
  score s best < SCORE_THRESHOLD ->
  switch_and_probe E now candidates alive_map s = Raise (PoolExhausted (score s best)) s.
Proof.
  intros Hb Hlt. unfold switch_and_probe. rewrite Hb, Rltb_true by exact Hlt.
  reflexivity.
Qed.

(** Reading the group makes no switch call and leaves the ledger. *)
Lemma get_group_keeps (s s1 : pool)
    (g : option pystr * list pystr * gmap pystr (option bool)) :
  get_group E s = Ret g s1 ->
  puts_of (log s1) = puts_of (log s) /\ dyn_penalty s1 = dyn_penalty s.
Proof.
  unfold get_group, bind, get_proxies.
  destruct (env_get_proxies E (log s)) as [e|j]; [discriminate|].
  destruct j; try discriminate.
  destruct (parse_group fields); [discriminate|].
  intros H. injection H as _ <-. cbn [log dyn_penalty record_event].
  rewrite puts_of_cons, app_nil_r. split; reflexivity.
Qed.

(** The sticky check returns; it makes no switch call and lowers no
    penalty. *)
Lemma sticky_check_returns (now : option pystr) (candidates : list pystr) (s : pool) :
  exists b s',
    sticky_check E now candidates s = Ret b s'
    /\ puts_of (log s') = puts_of (log s)
    /\ (forall k, penalty_of (dyn_penalty s) k <= penalty_of (dyn_penalty s') k).
Proof.
  unfold sticky_check. destruct now as [n|].
  2:{ exists false, s. repeat split. intros k. lra. }
  destruct (truthy (Some n) && in_list n candidates
            && Rgeb (score s n) SCORE_THRESHOLD).
  2:{ exists false, s. repeat split. intros k. lra. }
  destruct (preflight_frame s) as (ok & ds & s1 & Hpre & Hl & _ & _ & Hp & _).
  unfold bind at 1. rewrite Hpre. cbn [fst snd]. destruct ok.
  - exists true, s1. unfold ret. split; [reflexivity|]. split; [exact Hp|].
    intros k. rewrite Hl. lra.
  - eexists false, _. unfold bind, apply_penalty, ret. split; [reflexivity|].
    cbn [log dyn_penalty set_ledger]. split; [exact Hp|].
    intros k. rewrite Hl. pose proof (penalty_amount_pos (py "preflight")) as Hpos.
    destruct (decide (n = k)) as [->|Hne].
    + rewrite penalty_of_insert_eq. lra.
    + rewrite penalty_of_insert_ne by exact Hne. lra.
Qed.

(** A round in which the sticky check succeeds returns on the current
    selection. *)
Lemma ensure_round_sticky (fuel : nat) (s s1 s3 : pool) (now : option pystr)
    (candidates : list pystr) (alive_map : gmap pystr (option bool)) :
  get_group E s = Ret (now, candidates, alive_map) s1 ->
  candidates <> [] ->
  sticky_check E now (restrict_usable candidates alive_map)
    (final (setdefault_all candidates s1)) = Ret true s3 ->
  ensure_loop E (S fuel) s = Ret now s3.
Proof.
  intros Hg Hne Hst. cbn [ensure_loop]. unfold bind at 1. rewrite Hg.
  destruct candidates as [|c cs]; [contradiction|].
  unfold bind at 1. unfold setdefault_all at 1.
  unfold setdefault_all in Hst. cbn [final] in Hst.
  unfold bind at 1. rewrite Hst. reflexivity.
Qed.

(** A round in which the sticky check fails and the best pick scores
    below the threshold ends with the exhaustion error. *)
Lemma ensure_round_exhausted (fuel : nat) (s s1 s3 : pool) (now : option pystr)
    (candidates : list pystr) (alive_map : gmap pystr (option bool)) (best : pystr) :
  get_group E s = Ret (now, candidates, alive_map) s1 ->
  candidates <> [] ->
  sticky_check E now (restrict_usable candidates alive_map)
    (final (setdefault_all candidates s1)) = Ret false s3 ->
  best_candidate (dyn_penalty s3) alive_map (restrict_usable candidates alive_map)
  = Some best ->
  score s3 best < SCORE_THRESHOLD ->
  ensure_loop E (S fuel) s = Raise (PoolExhausted (score s3 best)) s3.
Proof.
  intros Hg Hne Hst Hb Hlt. cbn [ensure_loop]. unfold bind at 1. rewrite Hg.
  destruct candidates as [|c cs]; [contradiction|].
  unfold bind at 1. unfold setdefault_all at 1.
  unfold setdefault_all in Hst. cbn [final] in Hst.
  unfold bind at 1. rewrite Hst. unfold bind at 1.
  rewrite (switch_and_probe_exhausted _ _ _ _ _ Hb Hlt). reflexivity.
Qed.

(** The switch calls made when the sticky check of a round is over. *)
Lemma round_puts_of (s s1 s3 : pool) (now : option pystr) (candidates : list pystr)
    (alive_map : gmap pystr (option bool)) (b : bool) :
  get_group E s = Ret (now, candidates, alive_map) s1 ->
  sticky_check E now (restrict_usable candidates alive_map)
    (final (setdefault_all candidates s1)) = Ret b s3 ->
  puts_of (log s3) = puts_of (log s)
  /\ (forall k, penalty_of (dyn_penalty s) k <= penalty_of (dyn_penalty s3) k).
Proof.
  intros Hg Hst. destruct (get_group_keeps s s1 _ Hg) as [Hp1 Hl1].
  destruct (sticky_check_returns now (restrict_usable candidates alive_map)
              (final (setdefault_all candidates s1)))
    as (b' & s3' & Hst' & Hp3 & Hgrow). rewrite Hst in Hst'. injection Hst' as <- <-.
  unfold setdefault_all in Hp3, Hgrow. cbn [final log dyn_penalty set_ledger] in Hp3, Hgrow.
  split; [congruence|]. intros k. specialize (Hgrow k).
  rewrite penalty_of_setdefaults, Hl1 in Hgrow. exact Hgrow.
Qed.

End Loop.

(** C2, as the code has it. Whatever the outside answers and however
    many rounds the loop makes: every switch call it issues names a node
    that scores at least the threshold 10 when the call is made, and when
    it returns, the selection it holds scores at least 10; the bound on
    switch calls holds for the whole of [ensure_proxy_reachable] and of
    [on_failure] too. The exhaustion error belongs to the best-pick step,
    which a round reaches only after the sticky check: when the current
    selection is a usable candidate that scores at least 10 and passes
    the preflight, the round returns on it, whatever the best-ranked
    usable candidate scores; when the sticky check does not return and
    the best-ranked usable candidate scores below 10, the round ends with
    the pool-exhaustion error. Neither way makes a switch call. *)
Theorem selection_respects_threshold (E : environment) (fuel : nat) (s : pool) :
  (exists new,
     log (final (ensure_loop E fuel s)) = new ++ log s
     /\ forall n sc, In (EvPut n sc) new -> (10 <= sc)%R)
  /\ (forall name s0,
        log (final (select_group E name s0)) = EvPut name (score s0 name) :: log s0)
  /\ (forall held s',
        ensure_loop E fuel s = Ret held s' ->
        exists n, held = Some n /\ (10 <= score s' n)%R)
  /\ (forall now candidates alive_map best,
        best_candidate (dyn_penalty s) alive_map candidates = Some best ->
        (score s best < 10)%R ->
        switch_and_probe E now candidates alive_map s
        = Raise (PoolExhausted (score s best)) s)
  /\ (forall cfg,
        exists new,
          log (final (ensure_proxy_reachable E cfg fuel s)) = new ++ log s
          /\ forall n sc, In (EvPut n sc) new -> (10 <= sc)%R)
  /\ (forall cfg kind detail,
        exists new,
          log (final (on_failure E cfg fuel kind detail s)) = new ++ log s
          /\ forall n sc, In (EvPut n sc) new -> (10 <= sc)%R)
  /\ (forall now candidates alive_map s1 stuck s3,
        get_group E s = Ret (now, candidates, alive_map) s1 ->
        candidates <> [] ->
        sticky_check E now (restrict_usable candidates alive_map)
          (final (setdefault_all candidates s1)) = Ret stuck s3 ->
        puts_of (log s3) = puts_of (log s)
        /\ (stuck = true ->
            ensure_loop E (S fuel) s = Ret now s3
            /\ exists n, now = Some n
                         /\ In n (restrict_usable candidates alive_map)
                         /\ (10 <= score s3 n)%R)
        /\ (stuck = false ->
            forall best,
              best_candidate (dyn_penalty s3) alive_map
                (restrict_usable candidates alive_map) = Some best ->
              (score s3 best < 10)%R ->
              ensure_loop E (S fuel) s = Raise (PoolExhausted (score s3 best)) s3)).
Proof.
  assert (Hnew : forall s' : pool, switches_ok s s' ->
            exists new, log s' = new ++ log s
                        /\ forall n sc, In (EvPut n sc) new -> (10 <= sc)%R).
  { intros s' (new & Hlog & Hall). exists new. split; [exact Hlog|].
    intros n sc Hin. rewrite Forall_forall in Hall.
    apply (Hall (EvPut n sc)). apply list_elem_of_In. exact Hin. }
  split; [|split; [|split; [|split; [|split; [|split]]]]].
  - apply Hnew, (preserves_ensure_loop E switches_ok switches_ok_rel fuel s).
  - intros name s0. unfold select_group.
    destruct (env_put E (log s0) name); reflexivity.
  - intros held s' H. apply (ensure_loop_returns E fuel s s' held H).
  - intros now candidates alive_map best Hb Hlt.
    apply switch_and_probe_exhausted; assumption.
  - intros cfg.
    apply Hnew, (preserves_ensure_proxy_reachable E cfg switches_ok switches_ok_rel).
  - intros cfg kind detail.
    apply Hnew, (preserves_on_failure E cfg switches_ok switches_ok_rel).
  - intros now candidates alive_map s1 stuck s3 Hg Hne Hst.
    split; [apply (round_puts_of E s s1 s3 now candidates alive_map stuck Hg Hst)|].
    split.
    + intros ->. split; [apply (ensure_round_sticky E fuel s s1 s3 _ _ _ Hg Hne Hst)|].
      destruct (sticky_check_true E _ _ _ _ Hst) as (n & Hn & Hin & Hsc & _).
      exists n. unfold SCORE_THRESHOLD in Hsc. auto.
    + intros -> best Hb Hlt.
      apply (ensure_round_exhausted E fuel s s1 s3 _ _ _ best Hg Hne Hst Hb Hlt).
Qed.

(* ================================================================== *)
(** * Keeping the current selection *)
(* ================================================================== *)

Section Sticky.

Variable E : environment.

Local Open Scope R_scope.

Lemma get_group_at (s : pool) (obj : gmap pystr json)
    (g : option pystr * list pystr * gmap pystr (option bool)) :
  env_get_proxies E (log s) = inr (JObj obj) ->
  parse_group obj = inr g ->
  get_group E s = Ret g (record_event EvGetProxies s).
Proof.
  intros Hdoc Hg. unfold get_group, bind, get_proxies. rewrite Hdoc, Hg. reflexivity.
Qed.

(** When every probe is answered with a status from 200 to 399, the
    preflight succeeds after probing the whole list. *)
Lemma preflight_all_pass (s : pool) :
  (forall i u, PREFLIGHT_URLS !! i = Some u ->
     exists status,
       env_probe E (probe_hist PREFLIGHT_URLS i (log s)) u = inr status
       /\ (200 <= status < 400)%Z) ->
  exists ds s',
    preflight E s = Ret (true, ds) s'
    /\ dyn_penalty s' = dyn_penalty s
    /\ last_switch_ts s' = last_switch_ts s
    /\ lock_held s' = lock_held s
    /\ log s' = probe_hist PREFLIGHT_URLS (length PREFLIGHT_URLS) (log s).
Proof.
  intros Hall.
  destruct (preflight_from_spec E PREFLIGHT_URLS [] s)
    as (ok & ds & s' & Hrun & Hl & Ht & Hk & Hok & Hfail).
  destruct ok.
  - exists ds, s'. destruct (Hok eq_refl) as (_ & Hlog & _).
    repeat split; assumption.
  - destruct (Hfail eq_refl) as (i & u & Hi & Hno & _).
    destruct (Hall i u Hi) as (st & Hst & Hrange). rewrite Hst in Hno.
    cbn [probe_passes] in Hno. apply status_ok_iff in Hrange. congruence.
Qed.

(** One call of the loop in the sticky situation. *)
Lemma sticky_round (fuel : nat) (s : pool) (obj : gmap pystr json) (n : pystr)
    (candidates : list pystr) (alive_map : gmap pystr (option bool)) :
  env_get_proxies E (log s) = inr (JObj obj) ->
  parse_group obj = inr (Some n, candidates, alive_map) ->
  n <> [] ->
  In n (restrict_usable candidates alive_map) ->
  SCORE_THRESHOLD <= score s n ->
  (forall i u, PREFLIGHT_URLS !! i = Some u ->
     exists status,
       env_probe E (probe_hist PREFLIGHT_URLS i (EvGetProxies :: log s)) u = inr status
       /\ (200 <= status < 400)%Z) ->
  exists s',
    ensure_loop E (S fuel) s = Ret (Some n) s'
    /\ dyn_penalty s' = fold_left (fun m c => setdefault c m) candidates (dyn_penalty s)
    /\ last_switch_ts s' = last_switch_ts s
    /\ lock_held s' = lock_held s
    /\ log s'
       = probe_hist PREFLIGHT_URLS (length PREFLIGHT_URLS) (EvGetProxies :: log s).
Proof.
  intros Hdoc Hg Hne Hin Hsc Hprobe.
  cbn [ensure_loop]. unfold bind at 1. rewrite (get_group_at s obj _ Hdoc Hg).
  destruct candidates as [|c cs]; [destruct Hin|].
  unfold bind at 1. unfold setdefault_all at 1.
  set (s2 := set_ledger _ _).
  assert (Hsc2 : SCORE_THRESHOLD <= score s2 n).
  { unfold score, score_in, s2. cbn [dyn_penalty set_ledger record_event].
    rewrite penalty_of_setdefaults. exact Hsc. }
  destruct (preflight_all_pass s2 Hprobe) as (ds & s' & Hpre & Hl & Ht & Hk & Hlog).
  unfold bind at 1. unfold sticky_check.
  assert (Htr : truthy (Some n) = true) by (destruct n; [contradiction | reflexivity]).
  rewrite Htr, (proj2 (in_list_In _ _) Hin), Rgeb_true by lra.
  cbn [andb]. unfold bind at 1. rewrite Hpre. cbn [fst]. unfold ret.
  exists s'. split; [reflexivity|]. repeat split; assumption.
Qed.

End Sticky.

Section StickyStable.

Variable E : environment.

Local Open Scope R_scope.

(** C9. Suppose that at the start of the loop the controller reports a
    current selection [n] that is among the usable candidates and scores
    at least the threshold, and that its preflight succeeds. Then the call
    returns, still holding [n]; it issues no switch call; the idle timer
    is what it was; every penalty is what it was, the ledger gaining at
    most zero entries for candidates it did not hold yet, and none when it
    held them all. A second call in the same situation leaves the same:
    no switch call, timer and penalties unchanged, and the ledger exactly
    as the first call left it when the candidates are the same. *)
Theorem sticky_selection_is_stable (fuel : nat) (s : pool)
    (obj : gmap pystr json) (n : pystr) (candidates : list pystr)
    (alive_map : gmap pystr (option bool)) :
  env_get_proxies E (log s) = inr (JObj obj) ->
  parse_group obj = inr (Some n, candidates, alive_map) ->
  n <> [] ->
  In n (restrict_usable candidates alive_map) ->
  10 <= score s n ->
  (forall i u, PREFLIGHT_URLS !! i = Some u ->
     exists status,
       env_probe E (probe_hist PREFLIGHT_URLS i (EvGetProxies :: log s)) u = inr status
       /\ (200 <= status < 400)%Z) ->
  exists s',
    ensure_loop E (S fuel) s = Ret (Some n) s'
    /\ puts_of (log s') = puts_of (log s)
    /\ count_refresh (log s') = count_refresh (log s)
    /\ last_switch_ts s' = last_switch_ts s
    /\ (forall k, penalty_of (dyn_penalty s') k = penalty_of (dyn_penalty s) k)
    /\ (forall k, score s' k = score s k)
    /\ (forall k v, dyn_penalty s !! k = Some v -> dyn_penalty s' !! k = Some v)
    /\ (Forall (fun c => is_Some (dyn_penalty s !! c)) candidates ->
        dyn_penalty s' = dyn_penalty s)
    /\ (forall (fuel2 : nat) (obj2 : gmap pystr json) (alive_map2 : gmap pystr (option bool)),
          env_get_proxies E (log s') = inr (JObj obj2) ->
          parse_group obj2 = inr (Some n, candidates, alive_map2) ->
          In n (restrict_usable candidates alive_map2) ->
          (forall i u, PREFLIGHT_URLS !! i = Some u ->
             exists status,
               env_probe E (probe_hist PREFLIGHT_URLS i (EvGetProxies :: log s')) u
               = inr status
               /\ (200 <= status < 400)%Z) ->
          exists s'',
            ensure_loop E (S fuel2) s' = Ret (Some n) s''
            /\ puts_of (log s'') = puts_of (log s)
            /\ last_switch_ts s'' = last_switch_ts s
            /\ dyn_penalty s'' = dyn_penalty s').
Proof.
  intros Hdoc Hg Hne Hin Hsc Hprobe.
  destruct (sticky_round E fuel s obj n candidates alive_map Hdoc Hg Hne Hin Hsc Hprobe)
    as (s' & Hrun & Hl & Ht & _ & Hlog).
  assert (Hpen : forall k, penalty_of (dyn_penalty s') k = penalty_of (dyn_penalty s) k).
  { intros k. rewrite Hl. apply penalty_of_setdefaults. }
  assert (Hputs : puts_of (log s') = puts_of (log s)).
  { rewrite Hlog, puts_of_probe_hist, puts_of_cons, app_nil_r. reflexivity. }
  exists s'. split; [exact Hrun|]. split; [exact Hputs|].
  split; [rewrite Hlog, count_refresh_probe_hist; reflexivity|].
  split; [exact Ht|]. split; [exact Hpen|].
  split; [intros k; unfold score, score_in; rewrite Hpen; reflexivity|].
  split.
  { intros k v Hk. rewrite Hl. clear -Hk. revert Hk.
    generalize (dyn_penalty s). induction candidates as [|c cs IH]; intros m Hk;
      [exact Hk|].
    cbn [fold_left]. apply IH. unfold setdefault.
    destruct (m !! c) eqn:Hc; [exact Hk|].
    rewrite lookup_insert_ne; [exact Hk | congruence]. }
  split; [intros Hall; rewrite Hl; apply setdefaults_present; exact Hall|].
  intros fuel2 obj2 alive_map2 Hdoc2 Hg2 Hin2 Hprobe2.
  assert (Hsc' : SCORE_THRESHOLD <= score s' n).
  { unfold score, score_in. rewrite Hpen. exact Hsc. }
  destruct (sticky_round E fuel2 s' obj2 n candidates alive_map2
              Hdoc2 Hg2 Hne Hin2 Hsc' Hprobe2)
    as (s'' & Hrun2 & Hl2 & Ht2 & _ & Hlog2).
  exists s''. split; [exact Hrun2|].
  split; [rewrite Hlog2, puts_of_probe_hist, puts_of_cons, app_nil_r; exact Hputs|].
  split; [congruence|].
  rewrite Hl2. apply setdefaults_present. rewrite Hl. apply setdefaults_lookup.
Qed.

End StickyStable.

(* ================================================================== *)
(** * A round that switches, and [on_failure] *)
(* ================================================================== *)

Section Rounds.

Variable E : environment.
Variable cfg : settings.

Local Open Scope R_scope.

(** One call of the loop when nothing is selected yet, the best pick
    scores at least the threshold, the switch call succeeds and the
    preflight passes: the best pick is switched to and held. *)
Lemma first_selection_round (fuel : nat) (s : pool) (obj : gmap pystr json)
    (candidates : list pystr) (alive_map : gmap pystr (option bool)) (best : pystr) :
  env_get_proxies E (log s) = inr (JObj obj) ->
  parse_group obj = inr (None, candidates, alive_map) ->
  candidates <> [] ->
  best_candidate (fold_left (fun m c => setdefault c m) candidates (dyn_penalty s))
    alive_map (restrict_usable candidates alive_map) = Some best ->
  SCORE_THRESHOLD <= score s best ->
  env_put E (EvGetProxies :: log s) best = None ->
  (forall i u, PREFLIGHT_URLS !! i = Some u ->
     exists status,
       env_probe E
         (probe_hist PREFLIGHT_URLS i
            (EvClock :: EvPut best (score s best) :: EvGetProxies :: log s)) u
       = inr status
       /\ (200 <= status < 400)%Z) ->
  exists s',
    ensure_loop E (S fuel) s = Ret (Some best) s'
    /\ puts_of (log s') = puts_of (log s) ++ [(best, score s best)]
    /\ last_switch_ts s'
       = env_monotonic E (EvPut best (score s best) :: EvGetProxies :: log s)
    /\ (forall k, penalty_of (dyn_penalty s') k = penalty_of (dyn_penalty s) k)
    /\ lock_held s' = lock_held s.
Proof.
  intros Hdoc Hg Hne Hbest Hsc Hput Hprobe.
  cbn [ensure_loop]. unfold bind at 1. rewrite (get_group_at E s obj _ Hdoc Hg).
  destruct candidates as [|c cs]; [contradiction|].
  unfold bind at 1. unfold setdefault_all at 1.
  set (s2 := set_ledger _ _).
  assert (Hscore : score s2 best = score s best).
  { unfold score, score_in, s2. cbn [dyn_penalty set_ledger record_event].
    rewrite penalty_of_setdefaults. reflexivity. }
  unfold bind at 1. cbn [sticky_check]. unfold bind at 1.
  unfold switch_and_probe.
  replace (dyn_penalty s2)
    with (fold_left (fun m c => setdefault c m) (c :: cs) (dyn_penalty s))
    by reflexivity.
  rewrite Hbest, Hscore, Rltb_false by exact Hsc.
  rewrite bool_decide_eq_false_2 by discriminate.
  unfold bind at 1. unfold bind at 1. unfold select_group.
  replace (log s2) with (EvGetProxies :: log s) by reflexivity.
  rewrite Hput, Hscore. unfold bind at 1. unfold touch_switch_ts. unfold ret at 1.
  set (s4 := set_switch_ts _ _).
  assert (Hprobe4 : forall i u, PREFLIGHT_URLS !! i = Some u ->
            exists status,
              env_probe E (probe_hist PREFLIGHT_URLS i (log s4)) u = inr status
              /\ (200 <= status < 400)%Z) by exact Hprobe.
  destruct (preflight_all_pass E s4 Hprobe4) as (ds & s' & Hpre & Hl & Ht & Hk & Hlog).
  unfold bind at 1. rewrite Hpre. cbn [fst]. unfold ret.
  exists s'. split; [reflexivity|]. repeat split.
  - rewrite Hlog, puts_of_probe_hist. unfold s4.
    cbn [log set_switch_ts record_event]. rewrite !puts_of_cons, app_nil_r.
    unfold s2. cbn [log set_ledger record_event].
    rewrite puts_of_cons, app_nil_r. reflexivity.
  - rewrite Ht. reflexivity.
  - intros k. rewrite Hl. unfold s4, s2.
    cbn [dyn_penalty set_switch_ts record_event set_ledger].
    apply penalty_of_setdefaults.
  - rewrite Hk. reflexivity.
Qed.

(** [ensure_started] on a free lock, when start-up succeeds or the pool is
    optional. *)
Lemma ensure_started_ok (s : pool) :
  enabled cfg = true ->
  lock_held s = false ->
  env_init E (log s) = None \/ required cfg = false ->
  ensure_started E cfg s = Ret tt (set_lock false (record_event EvInit (set_lock true s))).
Proof.
  intros Hen Hlock Hinit. unfold ensure_started, with_lock.
  rewrite Hen. cbn [negb]. rewrite Hlock. cbn [log set_lock].
  destruct (env_init E (log s)) as [e|]; [|reflexivity].
  destruct Hinit as [Hi|Hr]; [discriminate | rewrite Hr; reflexivity].
Qed.

(** [ensure_proxy_reachable] called while the lock is held never gets past
    [ensure_started]. *)
Lemma ensure_proxy_reachable_blocked (fuel : nat) (s : pool) :
  enabled cfg = true ->
  lock_held s = true ->
  ensure_proxy_reachable E cfg fuel s = Blocked s.
Proof.
  intros Hen Hlock. unfold ensure_proxy_reachable, bind, ensure_started, with_lock.
  rewrite Hen. cbn [negb]. rewrite Hlock. reflexivity.
Qed.

(** [on_failure] while nothing is selected: it takes the lock, reads the
    group, and calls [ensure_proxy_reachable] with the lock still held,
    which waits for that lock for ever. No penalty is applied and no
    selection is made. *)
Lemma on_failure_unselected (fuel : nat) (kind detail : pystr) (s : pool)
    (obj : gmap pystr json) (now : option pystr) (candidates : list pystr)
    (alive_map : gmap pystr (option bool)) :
  enabled cfg = true ->
  lock_held s = false ->
  env_init E (log s) = None \/ required cfg = false ->
  env_get_proxies E (EvInit :: log s) = inr (JObj obj) ->
  parse_group obj = inr (now, candidates, alive_map) ->
  truthy now = false ->
  exists s',
    on_failure E cfg fuel kind detail s = Blocked s'
    /\ dyn_penalty s' = dyn_penalty s
    /\ last_switch_ts s' = last_switch_ts s
    /\ lock_held s' = true
    /\ log s' = EvGetProxies :: EvInit :: log s.
Proof.
  intros Hen Hlock Hinit Hdoc Hg Hnow.
  unfold on_failure. rewrite Hen. cbn [negb]. unfold bind at 1.
  rewrite (ensure_started_ok s Hen Hlock Hinit).
  unfold bind at 1. unfold with_lock at 1. cbn [lock_held set_lock].
  unfold bind at 1.
  set (s1 := set_lock true _).
  assert (Hdoc1 : env_get_proxies E (log s1) = inr (JObj obj)) by exact Hdoc.
  rewrite (get_group_at E s1 obj _ Hdoc1 Hg).
  assert (Hblk : forall b : bool,
            (ensure_proxy_reachable E cfg fuel ;; ret b) (record_event EvGetProxies s1)
            = Blocked (record_event EvGetProxies s1)).
  { intros b. unfold bind.
    rewrite ensure_proxy_reachable_blocked; [reflexivity | exact Hen | reflexivity]. }
  exists (record_event EvGetProxies s1).
  split; [|repeat split].
  destruct now as [n|].
  - rewrite Hnow. rewrite Hblk. reflexivity.
  - rewrite Hblk. reflexivity.
Qed.

(** [on_failure] while a node is selected: the fixed penalty of the kind
    is added to that node's penalty and to no other, the lock is released,
    and [ensure_proxy_reachable] runs from there. *)
Lemma on_failure_selected (fuel : nat) (kind detail : pystr) (s : pool)
    (obj : gmap pystr json) (n : pystr) (candidates : list pystr)
    (alive_map : gmap pystr (option bool)) :
  enabled cfg = true ->
  lock_held s = false ->
  env_init E (log s) = None \/ required cfg = false ->
  env_get_proxies E (EvInit :: log s) = inr (JObj obj) ->
  parse_group obj = inr (Some n, candidates, alive_map) ->
  n <> [] ->
  exists s1,
    on_failure E cfg fuel kind detail s = ensure_proxy_reachable E cfg fuel s1
    /\ penalty_of (dyn_penalty s1) n = penalty_of (dyn_penalty s) n + penalty_amount kind
    /\ (forall k, k <> n -> penalty_of (dyn_penalty s1) k = penalty_of (dyn_penalty s) k)
    /\ lock_held s1 = false
    /\ last_switch_ts s1 = last_switch_ts s
    /\ log s1 = EvGetProxies :: EvInit :: log s.
Proof.
  intros Hen Hlock Hinit Hdoc Hg Hne.
  unfold on_failure. rewrite Hen. cbn [negb]. unfold bind at 1.
  rewrite (ensure_started_ok s Hen Hlock Hinit).
  unfold bind at 1. unfold with_lock at 1. cbn [lock_held set_lock].
  unfold bind at 1.
  set (s1 := set_lock true _).
  assert (Hdoc1 : env_get_proxies E (log s1) = inr (JObj obj)) by exact Hdoc.
  rewrite (get_group_at E s1 obj _ Hdoc1 Hg).
  assert (Htr : truthy (Some n) = true) by (destruct n; [contradiction | reflexivity]).
  rewrite Htr. unfold bind at 1. unfold apply_penalty at 1. unfold ret at 1.
  eexists. split; [reflexivity|].
  cbn [dyn_penalty last_switch_ts lock_held log set_lock set_ledger record_event].
  split; [apply penalty_of_insert_eq|].
  split; [intros k Hk; apply penalty_of_insert_ne; congruence|].
  repeat split.
Qed.

(** The whole of [ensure_proxy_reachable] in the sticky situation, when no
    idle reset is due: it returns without a switch call, the idle timer and
    every penalty as they were, the lock released. *)
Lemma ensure_proxy_reachable_sticky (fuel : nat) (s : pool) (obj : gmap pystr json)
    (n : pystr) (candidates : list pystr) (alive_map : gmap pystr (option bool)) :
  enabled cfg = true ->
  lock_held s = false ->
  env_init E (log s) = None \/ required cfg = false ->
  env_monotonic E (EvInit :: log s) - last_switch_ts s < REFRESH_IDLE_SECONDS ->
  env_get_proxies E (EvClock :: EvInit :: log s) = inr (JObj obj) ->
  parse_group obj = inr (Some n, candidates, alive_map) ->
  n <> [] ->
  In n (restrict_usable candidates alive_map) ->
  SCORE_THRESHOLD <= score s n ->
  (forall i u, PREFLIGHT_URLS !! i = Some u ->
     exists status,
       env_probe E
         (probe_hist PREFLIGHT_URLS i (EvGetProxies :: EvClock :: EvInit :: log s)) u
       = inr status
       /\ (200 <= status < 400)%Z) ->
  exists s',
    ensure_proxy_reachable E cfg (S fuel) s = Ret tt s'
    /\ puts_of (log s') = puts_of (log s)
    /\ last_switch_ts s' = last_switch_ts s
    /\ (forall k, penalty_of (dyn_penalty s') k = penalty_of (dyn_penalty s) k)
    /\ lock_held s' = false.
Proof.
  intros Hen Hlock Hinit Hidle Hdoc Hg Hne Hin Hsc Hprobe.
  unfold ensure_proxy_reachable. rewrite Hen. cbn [negb]. unfold bind at 1.
  rewrite (ensure_started_ok s Hen Hlock Hinit).
  unfold with_lock. cbn [lock_held set_lock]. unfold bind at 1.
  unfold maybe_refresh_dynamic.
  cbn [log last_switch_ts record_event set_lock].
  rewrite Rltb_true by exact Hidle.
  set (s1 := record_event EvClock _).
  destruct (sticky_round E fuel s1 obj n candidates alive_map Hdoc Hg Hne Hin Hsc Hprobe)
    as (s' & Hrun & Hl & Ht & _ & Hlog).
  unfold bind at 1. rewrite Hrun. unfold ret.
  eexists. split; [reflexivity|].
  cbn [log last_switch_ts dyn_penalty lock_held set_lock].
  split; [|split; [exact Ht|split; [|reflexivity]]].
  - rewrite Hlog, puts_of_probe_hist. unfold s1. cbn [log record_event set_lock].
    rewrite !puts_of_cons, !app_nil_r. reflexivity.
  - intros k. rewrite Hl. unfold s1. cbn [dyn_penalty record_event set_lock].
    apply penalty_of_setdefaults.
Qed.

End Rounds.

(* ================================================================== *)
(** * Runs against two controllers *)
(* ================================================================== *)

Section Runs.

Local Open Scope R_scope.

Lemma parse_group_A_selected :
  parse_group (doc_fields (group_doc (Some node_A) [node_A; node_B] [(node_A, true)]))
  = inr (Some node_A, [node_A; node_B],
         <[node_B := None]> (<[node_A := Some true]> ∅)).
Proof. vm_compute. reflexivity. Qed.

Lemma parse_group_none_selected :
  parse_group (doc_fields (group_doc None [node_A] []))
  = inr (None, [node_A], <[node_A := None]> ∅).
Proof. vm_compute. reflexivity. Qed.

Lemma steady_probes_pass (clock : list event -> R) (doc : json) (h : list event) :
  forall i u, PREFLIGHT_URLS !! i = Some u ->
    exists status,
      env_probe (steady_env clock doc 204) (probe_hist PREFLIGHT_URLS i h) u = inr status
      /\ (200 <= status < 400)%Z.
Proof. intros i u _. exists 204%Z. split; [reflexivity | lia]. Qed.

Lemma score_node_A (s : pool) :
  penalty_of (dyn_penalty s) node_A = 0 -> 89.19 < score s node_A < 89.20.
Proof. intros Hz. apply (score_shangkuan_low _ _ parse_node_A Hz). Qed.

Lemma score_node_B (s : pool) :
  penalty_of (dyn_penalty s) node_B = 0 -> 3.15 < score s node_B < 3.16.
Proof. intros Hz. apply (score_jifang_high _ _ parse_node_B Hz). Qed.

(** The preflight against a controller whose probes answer 204 passes
    after two probes; one whose probes answer 407 fails it after one. *)
Example preflight_204_and_407 :
  (exists ds s',
     preflight env_A_selected (new_pool 0) = Ret (true, ds) s'
     /\ probes_of (log s') = PREFLIGHT_URLS)
  /\ (exists d s',
        preflight (steady_env (fun _ => 0) JNull 407) (new_pool 0) = Ret (false, [d]) s'
        /\ probes_of (log s') = [py "https://www.gstatic.com/generate_204"]
        /\ d = py "https://www.gstatic.com/generate_204: proxy auth required (407)").
Proof.
  split.
  - destruct (preflight_all_pass env_A_selected (new_pool 0)
                (steady_probes_pass _ _ _)) as (ds & s' & Hrun & _ & _ & _ & Hlog).
    exists ds, s'. split; [exact Hrun|]. rewrite Hlog. vm_compute. reflexivity.
  - eexists. eexists. split; [lazy; reflexivity|]. split; vm_compute; reflexivity.
Qed.

Lemma parse_group_only_B :
  parse_group (doc_fields (group_doc None [node_B] []))
  = inr (None, [node_B], <[node_B := None]> ∅).
Proof. vm_compute. reflexivity. Qed.

Lemma parse_group_A_held_B_alive :
  parse_group (doc_fields (group_doc (Some node_A) [node_A; node_B] [(node_B, true)]))
  = inr (Some node_A, [node_A; node_B], only_B_alive).
Proof. vm_compute. reflexivity. Qed.

Lemma parse_group_none_B_alive :
  parse_group (doc_fields (group_doc None [node_A; node_B] [(node_B, true)]))
  = inr (None, [node_A; node_B], only_B_alive).
Proof. vm_compute. reflexivity. Qed.

Lemma only_B_alive_flags :
  alive_get only_B_alive node_A = None
  /\ alive_get only_B_alive node_B = Some true
  /\ restrict_usable [node_A; node_B] only_B_alive = [node_A; node_B].
Proof. repeat split; vm_compute; reflexivity. Qed.

(** With [node_B] alone reported alive, the best pick among [node_A] and
    [node_B] is [node_B], whatever the ledger. *)
Lemma best_candidate_only_B_alive (ledger : gmap pystr R) :
  best_candidate ledger only_B_alive (restrict_usable [node_A; node_B] only_B_alive)
  = Some node_B.
Proof.
  destruct only_B_alive_flags as (HaA & HaB & ->).
  unfold best_candidate, py_max. cbn [max_from]. unfold rank_key.
  rewrite HaA, HaB. cbn [alive_rank].
  rewrite (proj2 (key_gtb_spec 2 1 _ _ _ _)) by (left; lia). reflexivity.
Qed.

(** [selection_respects_threshold], last part: against a controller whose
    one candidate is [node_B], which scores below 10, the first round ends
    in exhaustion, without a switch call. *)
Lemma selection_respects_threshold_witness :
  exists sc s',
    ensure_loop env_only_B 1 (new_pool 0) = Raise (PoolExhausted sc) s'
    /\ sc < 10
    /\ puts_of (log s') = [].
Proof.
  pose proof (get_group_at env_only_B (new_pool 0)
                (doc_fields (group_doc None [node_B] [])) _
                eq_refl parse_group_only_B) as Hg.
  set (s1 := record_event EvGetProxies (new_pool 0)) in Hg.
  set (s2 := final (setdefault_all [node_B] s1)).
  assert (Hlt : score s2 node_B < 10).
  { pose proof (score_node_B s2) as Hs. lapply Hs; [lra|].
    unfold s2, setdefault_all. cbn [final dyn_penalty set_ledger].
    rewrite penalty_of_setdefaults. reflexivity. }
  destruct (proj2 (proj2 (proj2 (proj2 (proj2 (proj2
              (selection_respects_threshold env_only_B 0 (new_pool 0)))))))
              None [node_B] (<[node_B := None]> ∅) s1 false s2 Hg)
    as (Hputs & _ & Hraise); [discriminate | reflexivity |].
  exists (score s2 node_B), s2. split; [|split; [exact Hlt | exact Hputs]].
  apply (Hraise eq_refl node_B); [|exact Hlt].
  replace (restrict_usable [node_B] (<[node_B := None]> ∅)) with [node_B]
    by (vm_compute; reflexivity).
  reflexivity.
Defined.

(** C2 as stated fails in its second half. The controller has [node_A]
    selected, its liveness unknown, beside [node_B], reported alive: the
    best-ranked usable candidate is [node_B], which scores about 3.16,
    below the threshold; yet the loop raises no exhaustion error: the
    sticky check comes first, and the loop returns on [node_A]. *)
Lemma selection_counterexample :
  parse_group (doc_fields (group_doc (Some node_A) [node_A; node_B] [(node_B, true)]))
  = inr (Some node_A, [node_A; node_B], only_B_alive)
  /\ exists s',
       ensure_loop env_A_held_B_alive 1 (new_pool 0) = Ret (Some node_A) s'
       /\ puts_of (log s') = []
       /\ best_candidate (dyn_penalty (new_pool 0)) only_B_alive
            (restrict_usable [node_A; node_B] only_B_alive) = Some node_B
       /\ best_candidate (dyn_penalty s') only_B_alive
            (restrict_usable [node_A; node_B] only_B_alive) = Some node_B
       /\ score (new_pool 0) node_B < 10
       /\ score s' node_B < 10
       /\ (forall sc s'', ensure_loop env_A_held_B_alive 1 (new_pool 0)
                          <> Raise (PoolExhausted sc) s'').
Proof.
  split; [exact parse_group_A_held_B_alive|].
  destruct only_B_alive_flags as (HaA & HaB & Hus).
  destruct (sticky_round env_A_held_B_alive 0 (new_pool 0)
              (doc_fields (group_doc (Some node_A) [node_A; node_B] [(node_B, true)]))
              node_A [node_A; node_B] only_B_alive)
    as (s' & Hrun & Hl & _ & _ & Hlog).
  - reflexivity.
  - exact parse_group_A_held_B_alive.
  - vm_compute. discriminate.
  - rewrite Hus. left. reflexivity.
  - pose proof (score_node_A (new_pool 0) eq_refl). unfold SCORE_THRESHOLD. lra.
  - apply steady_probes_pass.
  - exists s'. split; [exact Hrun|].
    split; [rewrite Hlog, puts_of_probe_hist; reflexivity|].
    split; [apply best_candidate_only_B_alive|].
    split; [apply best_candidate_only_B_alive|].
    split; [pose proof (score_node_B (new_pool 0) eq_refl); lra|].
    split.
    + pose proof (score_node_B s') as Hs. lapply Hs; [lra|].
      rewrite Hl. rewrite penalty_of_setdefaults. reflexivity.
    + intros sc s'' Hraise. rewrite Hrun in Hraise. discriminate.
Qed.

(** C8 as stated fails in "always ranked above". Both nodes without
    penalty, [node_A] scoring about 89.2 and [node_B] about 3.16: when the
    controller reports [node_B] alive and says nothing of [node_A], both
    are usable and the best pick is [node_B]. *)
Lemma example_scores_counterexample :
  parse_name node_A = (py "tagged", py "商宽", py "低风险")
  /\ parse_name node_B = (py "tagged", py "机房", py "高风险")
  /\ penalty_of ∅ node_A = 0
  /\ penalty_of ∅ node_B = 0
  /\ score_in ∅ node_B < score_in ∅ node_A
  /\ alive_get only_B_alive node_A = None
  /\ alive_get only_B_alive node_B = Some true
  /\ restrict_usable [node_A; node_B] only_B_alive = [node_A; node_B]
  /\ best_candidate ∅ only_B_alive (restrict_usable [node_A; node_B] only_B_alive)
     = Some node_B
  /\ best_candidate ∅ only_B_alive (restrict_usable [node_A; node_B] only_B_alive)
     <> Some node_A.
Proof.
  destruct only_B_alive_flags as (HaA & HaB & Hus).
  split; [exact parse_node_A|]. split; [exact parse_node_B|].
  split; [reflexivity|]. split; [reflexivity|].
  split.
  { pose proof (score_node_A (new_pool 0) eq_refl) as H1.
    pose proof (score_node_B (new_pool 0) eq_refl) as H2.
    unfold score in H1, H2. cbn [new_pool dyn_penalty] in H1, H2. lra. }
  split; [exact HaA|]. split; [exact HaB|]. split; [exact Hus|].
  rewrite best_candidate_only_B_alive.
  split; [reflexivity|]. intros Heq. injection Heq as Heq.
  vm_compute in Heq. discriminate.
Qed.

(** [sticky_selection_is_stable] against a controller that has [node_A]
    selected and alive: the loop returns holding [node_A], without a
    switch call, the idle timer still 0. *)
Lemma sticky_selection_is_stable_witness :
  exists s',
    ensure_loop env_A_selected 1 (new_pool 0) = Ret (Some node_A) s'
    /\ puts_of (log s') = []
    /\ last_switch_ts s' = 0.
Proof.
  destruct (sticky_selection_is_stable env_A_selected 0 (new_pool 0)
              (doc_fields (group_doc (Some node_A) [node_A; node_B] [(node_A, true)]))
              node_A [node_A; node_B]
              (<[node_B := None]> (<[node_A := Some true]> ∅)))
    as (s' & Hrun & Hputs & _ & Hts & _).
  - reflexivity.
  - exact parse_group_A_selected.
  - vm_compute. discriminate.
  - replace (restrict_usable _ _) with [node_A; node_B] by (vm_compute; reflexivity).
    left. reflexivity.
  - pose proof (score_node_A (new_pool 0) eq_refl). lra.
  - apply steady_probes_pass.
  - exists s'. split; [exact Hrun|]. split; [exact Hputs | exact Hts].
Defined.

(** A first selection against a controller with nothing selected:
    [ensure_proxy_reachable] switches to [node_A], once, and returns with
    the lock released. *)
Lemma ensure_reachable_first_selection :
  exists s',
    ensure_proxy_reachable env_none_selected pool_on 1 (new_pool 0) = Ret tt s'
    /\ puts_of (log s') = [(node_A, score (new_pool 0) node_A)]
    /\ lock_held s' = false.
Proof.
  unfold ensure_proxy_reachable. cbn [pool_on enabled negb]. unfold bind at 1.
  rewrite (ensure_started_ok env_none_selected pool_on (new_pool 0) eq_refl eq_refl
             (or_introl eq_refl)).
  unfold with_lock. cbn [lock_held set_lock]. unfold bind at 1.
  unfold maybe_refresh_dynamic.
  cbn [env_none_selected steady_env env_monotonic last_switch_ts new_pool
       record_event set_lock log].
  rewrite Rltb_true by (unfold REFRESH_IDLE_SECONDS; lra).
  unfold bind at 1.
  set (s1 := record_event EvClock _).
  destruct (first_selection_round env_none_selected 0 s1
              (doc_fields (group_doc None [node_A] []))
              [node_A] (<[node_A := None]> ∅) node_A)
    as (s' & Hrun & Hputs & _ & _ & Hlock).
  - reflexivity.
  - exact parse_group_none_selected.
  - discriminate.
  - replace (restrict_usable _ _) with [node_A] by (vm_compute; reflexivity).
    reflexivity.
  - pose proof (score_node_A s1 eq_refl). unfold SCORE_THRESHOLD. lra.
  - reflexivity.
  - apply steady_probes_pass.
  - change (ensure_loop (steady_env (fun _ => 0) (group_doc None [node_A] []) 204) 1 s1)
      with (ensure_loop env_none_selected 1 s1).
    rewrite Hrun. unfold ret. eexists. split; [reflexivity|].
    cbn [log lock_held set_lock]. split; [|reflexivity].
    rewrite Hputs. reflexivity.
Qed.

(** C10 at the failing input. Against a controller with nothing selected,
    [on_failure] ends waiting for the lock it holds itself: no penalty is
    applied, and no selection is made either, although
    [ensure_proxy_reachable], called from the same pool against the same
    controller, selects [node_A] and returns. The fallback of an unknown
    kind is the risk penalty, 60. *)
Theorem on_failure_without_selection_blocks :
  (exists s',
     on_failure env_none_selected pool_on 1 (py "proxy") (py "connect timeout")
       (new_pool 0) = Blocked s'
     /\ dyn_penalty s' = dyn_penalty (new_pool 0)
     /\ puts_of (log s') = []
     /\ lock_held s' = true)
  /\ (exists s',
        ensure_proxy_reachable env_none_selected pool_on 1 (new_pool 0) = Ret tt s'
        /\ puts_of (log s') = [(node_A, score (new_pool 0) node_A)]
        /\ lock_held s' = false)
  /\ penalty_amount (py "other") = 60.
Proof.
  split; [|split; [exact ensure_reachable_first_selection | reflexivity]].
  destruct (on_failure_unselected env_none_selected pool_on 1
              (py "proxy") (py "connect timeout") (new_pool 0)
              (doc_fields (group_doc None [node_A] []))
              None [node_A] (<[node_A := None]> ∅))
    as (s' & Hrun & Hl & _ & Hlock & Hlog).
  - reflexivity.
  - reflexivity.
  - left. reflexivity.
  - reflexivity.
  - exact parse_group_none_selected.
  - reflexivity.
  - exists s'. split; [exact Hrun|]. split; [exact Hl|]. split; [|exact Hlock].
    rewrite Hlog. reflexivity.
Qed.

End Runs.

(* ================================================================== *)
(** * De-duplication of fetched entries *)
(* ================================================================== *)

Section Dedup.

Context {yval : Type} `{YamlValue yval}.

(** Entries with the same configuration apart from the name have the same
    fingerprint. *)
Lemma fingerprint_ignores_name (p1 p2 : gmap pystr yval) :
  delete (py "name") p1 = delete (py "name") p2 -> fingerprint p1 = fingerprint p2.
Proof. unfold fingerprint. intros ->. reflexivity. Qed.

Lemma dedup_first_step (p1 : gmap pystr yval) (x fp1 : pystr) :
  x <> [] ->
  entry_name p1 = x ->
  fingerprint p1 = Some fp1 ->
  dedup_step dedup_init p1
  = Some {| seen_fp := {[ fp1 ]} ∪ ∅;
            name_seen := <[x := O]> ∅;
            out := [] ++ [<[py "name" := yval_of_str x]> p1] |}.
Proof.
  intros Hx H1 Hf1. unfold dedup_step. rewrite H1, Hf1.
  destruct x as [|c x']; [contradiction|].
  cbn [seen_fp name_seen out dedup_init].
  rewrite bool_decide_eq_false_2 by apply not_elem_of_empty.
  rewrite lookup_empty. reflexivity.
Qed.

(** C4, as the code has it. Of two fetched entries with the same name
    [x]: when their fingerprints are equal (as they are when the
    configurations agree apart from the name), the second is dropped
    whole and the output holds the first alone, under the name [x]; the
    suffix [__dup1] is given to the second only when its fingerprint
    differs from the first's. *)
Theorem dedup_same_name (p1 p2 : gmap pystr yval) (x fp1 : pystr) :
  x <> [] ->
  entry_name p1 = x ->
  entry_name p2 = x ->
  fingerprint p1 = Some fp1 ->
  (delete (py "name") p1 = delete (py "name") p2 -> fingerprint p2 = Some fp1)
  /\ (fingerprint p2 = Some fp1 ->
      dedup [p1; p2] = Some [<[py "name" := yval_of_str x]> p1]
      /\ names_of <$> dedup [p1; p2] = Some [Some (yval_of_str x)])
  /\ (forall fp2, fingerprint p2 = Some fp2 -> fp2 <> fp1 ->
      dedup [p1; p2]
      = Some [<[py "name" := yval_of_str x]> p1;
              <[py "name" := yval_of_str (x ++ py "__dup1")]> p2]
      /\ names_of <$> dedup [p1; p2]
         = Some [Some (yval_of_str x); Some (yval_of_str (x ++ py "__dup1"))]).
Proof.
  intros Hx H1 H2 Hf1.
  pose proof (dedup_first_step p1 x fp1 Hx H1 Hf1) as Hstep1.
  split; [|split].
  - intros Hcfg. rewrite <- Hf1. symmetry. apply fingerprint_ignores_name. exact Hcfg.
  - intros Hf2.
    assert (Hd : dedup [p1; p2] = Some [<[py "name" := yval_of_str x]> p1]).
    { unfold dedup. cbn [dedup_from]. rewrite Hstep1.
      unfold dedup_step. rewrite H2, Hf2. destruct x as [|c x']; [contradiction|].
      cbn [seen_fp name_seen out].
      rewrite bool_decide_eq_true_2
        by (apply elem_of_union_l, elem_of_singleton; reflexivity).
      reflexivity. }
    split; [exact Hd|]. rewrite Hd. cbn. rewrite lookup_insert_eq. reflexivity.
  - intros fp2 Hf2 Hne.
    assert (Hd : dedup [p1; p2]
                 = Some [<[py "name" := yval_of_str x]> p1;
                         <[py "name" := yval_of_str (x ++ py "__dup1")]> p2]).
    { unfold dedup. cbn [dedup_from]. rewrite Hstep1.
      unfold dedup_step. rewrite H2, Hf2. destruct x as [|c x']; [contradiction|].
      cbn [seen_fp name_seen out].
      rewrite bool_decide_eq_false_2
        by (rewrite elem_of_union, elem_of_singleton, elem_of_empty;
            intros [?|[]]; contradiction).
      rewrite lookup_insert_eq. reflexivity. }
    split; [exact Hd|]. rewrite Hd. cbn. rewrite !lookup_insert_eq. reflexivity.
Qed.

End Dedup.

(** [dedup_same_name] on two copies of one entry named "X": the output
    holds the one name "X". *)
Lemma dedup_same_name_witness :
  names_of <$> dedup [entry_X; entry_X] = Some [Some (py "X")].
Proof.
  destruct (dedup_same_name entry_X entry_X (py "X")
              (default [] (fingerprint entry_X)))
    as (_ & Hsame & _).
  - vm_compute. discriminate.
  - vm_compute. reflexivity.
  - vm_compute. reflexivity.
  - reflexivity.
  - apply Hsame. reflexivity.
Defined.

(** C4 as stated fails: two fetched entries with the same configuration,
    both named "X", give the output names ["X"], not ["X", "X__dup1"]. *)
Lemma dedup_counterexample :
  entry_name entry_X = py "X"
  /\ delete (py "name") entry_X = delete (py "name") entry_X
  /\ names_of <$> dedup [entry_X; entry_X] = Some [Some (py "X")]
  /\ names_of <$> dedup [entry_X; entry_X]
     <> Some [Some (py "X"); Some (py "X__dup1")].
Proof.
  assert (Hn : names_of <$> dedup [entry_X; entry_X] = Some [Some (py "X")])
    by (vm_compute; reflexivity).
  split; [vm_compute; reflexivity|]. split; [reflexivity|]. split; [exact Hn|].
  rewrite Hn. discriminate.
Qed.

(** The suffix appears when the second entry named "X" has another
    configuration. *)
Example dedup_other_configuration :
  names_of <$> dedup [entry_X; entry_X_other]
  = Some [Some (py "X"); Some (py "X__dup1")].
Proof. vm_compute. reflexivity. Qed.

(* ================================================================== *)
(** * The pure parts on concrete inputs *)
(* ================================================================== *)

Example parse_name_kinds :
  parse_name (py "x 防范境外势力渗透 y") = (py "garbage", py "garbage", py "garbage")
  /\ parse_name (py "US-SpeedNode-3") = (py "speednode", py "speednode", py "unknown")
  /\ parse_name (py "HK｜ 家宽 ｜ 非常安全 (v2)｜x")
     = (py "tagged", py "家宽", py "非常安全")
  /\ parse_name (py "HK｜｜") = (py "tagged", py "unknown", py "unknown")
  /\ parse_name (py "HK｜家宽") = (py "other", py "unknown", py "unknown").
Proof. repeat split; vm_compute; reflexivity. Qed.

Example parse_group_drops_sentinels :
  parse_group
    (doc_fields (group_doc (Some node_A) [py "DIRECT"; node_A; py "REJECT"]
                   [(node_A, false)]))
  = inr (Some node_A, [node_A], <[node_A := Some false]> ∅).
Proof. vm_compute. reflexivity. Qed.

Example restrict_usable_cases :
  restrict_usable [node_A; node_B] (<[node_A := Some false]> ∅) = [node_B]
  /\ restrict_usable [node_A; node_B]
       (<[node_B := Some false]> (<[node_A := Some false]> ∅))
     = [node_A; node_B].
Proof. split; vm_compute; reflexivity. Qed.

Example classify_failure_kinds :
  classify_failure (py "   ") = (py "other", py "empty")
  /\ classify_failure (py "邮箱验证码超时") = (py "mail", py "otp_timeout")
  /\ classify_failure (py "Send Code button not found")
     = (py "risk", py "send code button not found")
  /\ classify_failure (py "HTTPSConnectionPool: Read timed out.")
     = (py "proxy", py "read timed out")
  /\ classify_failure (py "boom") = (py "other", py "unknown").
Proof. repeat split; vm_compute; reflexivity. Qed.

(* ================================================================== *)
(** * The logistic function *)
(* ================================================================== *)

Section Sigmoid.

Local Open Scope R_scope.

(** Both branches of [_sigmoid] compute the same function. *)
Lemma sigmoid_closed (z : R) : sigmoid z = 1 / (1 + exp (- z)).
Proof.
  unfold sigmoid. destruct (Rge_dec z 0); [reflexivity|].
  rewrite exp_Ropp. pose proof (exp_pos z). field. lra.
Qed.

Lemma sigmoid_increasing (a b : R) : a < b -> sigmoid a < sigmoid b.
Proof.
  intros Hab. rewrite !sigmoid_closed.
  pose proof (exp_pos (- a)). pose proof (exp_pos (- b)).
  assert (Hexp : exp (- b) < exp (- a)) by (apply exp_increasing; lra).
  unfold Rdiv. rewrite !Rmult_1_l. apply Rinv_lt_contravar.
  - apply Rmult_lt_0_compat; lra.
  - lra.
Qed.

Lemma sigmoid_le (a b : R) : a <= b -> sigmoid a <= sigmoid b.
Proof.
  unfold Rle. intros [Hlt | ->]; [left; apply sigmoid_increasing; exact Hlt | right; reflexivity].
Qed.

Lemma sigmoid_0 : sigmoid 0 = 1 / 2.
Proof. rewrite sigmoid_closed, Ropp_0, exp_0. lra. Qed.

End Sigmoid.

(* ================================================================== *)
(** * Parsing node names *)
(* ================================================================== *)

Section ParseName.

Lemma lstrip_idem (s : pystr) : lstrip (lstrip s) = lstrip s.
Proof.
  induction s as [|c r IH]; [reflexivity|].
  cbn [lstrip]. destruct (is_space c) eqn:Hc; [exact IH|].
  cbn [lstrip]. rewrite Hc. reflexivity.
Qed.

Lemma lstrip_app_nonspace (l : pystr) (a : N) :
  is_space a = false -> lstrip (l ++ [a]) = lstrip l ++ [a].
Proof.
  intros Ha. induction l as [|c r IH].
  - cbn [app lstrip]. rewrite Ha. reflexivity.
  - cbn [app lstrip]. destruct (is_space c); [exact IH | reflexivity].
Qed.

Lemma rstrip_cons_nonspace (a : N) (r : pystr) :
  is_space a = false -> rstrip (a :: r) = a :: rstrip r.
Proof.
  intros Ha. unfold rstrip. cbn [rev].
  rewrite lstrip_app_nonspace by exact Ha.
  rewrite rev_app_distr. reflexivity.
Qed.

Lemma rstrip_idem (s : pystr) : rstrip (rstrip s) = rstrip s.
Proof. unfold rstrip. rewrite rev_involutive, lstrip_idem. reflexivity. Qed.

(** The head of a left-stripped string is no whitespace. *)
Lemma lstrip_head (s : pystr) :
  lstrip s = [] \/ exists a r, lstrip s = a :: r /\ is_space a = false.
Proof.
  induction s as [|c r IH]; [left; reflexivity|].
  cbn [lstrip]. destruct (is_space c) eqn:Hc; [exact IH|].
  right. exists c, r. split; [reflexivity | exact Hc].
Qed.

(** [strip] leaves a stripped string alone. *)
Lemma strip_idem (s : pystr) : strip (strip s) = strip s.
Proof.
  unfold strip.
  assert (H : lstrip (rstrip (lstrip s)) = rstrip (lstrip s)).
  { destruct (lstrip_head s) as [->|(a & r & -> & Ha)]; [reflexivity|].
    rewrite rstrip_cons_nonspace by exact Ha. cbn [lstrip]. rewrite Ha. reflexivity. }
  rewrite H. apply rstrip_idem.
Qed.

Lemma lstrip_incl (c : N) (s : pystr) : In c (lstrip s) -> In c s.
Proof.
  induction s as [|x r IH]; [intros []|].
  cbn [lstrip]. destruct (is_space x); [intros H; right; exact (IH H) | intros H; exact H].
Qed.

Lemma strip_incl (c : N) (s : pystr) : In c (strip s) -> In c s.
Proof.
  unfold strip, rstrip. intros H.
  apply in_rev, lstrip_incl, in_rev, lstrip_incl in H. exact H.
Qed.

Lemma split_on_nonempty (c : N) (s : pystr) : split_on c s <> [].
Proof.
  induction s as [|x r IH]; [discriminate|].
  cbn [split_on]. destruct (x =? c)%N; [discriminate|].
  destruct (split_on c r); [contradiction | discriminate].
Qed.

(** [s.split(c)] has one part more than [s] has occurrences of [c]. *)
Lemma split_on_length (c : N) (s : pystr) :
  length (split_on c s) = S (count_cp c s).
Proof.
  induction s as [|x r IH]; [reflexivity|].
  unfold count_cp in *. cbn [split_on List.filter].
  destruct (x =? c)%N.
  - cbn [length]. rewrite IH. reflexivity.
  - destruct (split_on c r) as [|p ps] eqn:Hs; [discriminate|].
    cbn [length] in *. exact IH.
Qed.

(** The first part of [s.split(c)] does not contain [c]. *)
Lemma split_on_head (c : N) (s : pystr) : ~ In c (hd [] (split_on c s)).
Proof.
  induction s as [|x r IH]; [intros []|].
  cbn [split_on]. destruct (N.eqb_spec x c) as [->|Hne]; [intros []|].
  destruct (split_on c r) as [|p ps] eqn:Hs.
  - cbn [hd]. intros [H|[]]. contradiction.
  - cbn [hd] in *. intros [H|H]; [contradiction | exact (IH H)].
Qed.

Lemma or_str_nonempty (s d : pystr) : d <> [] -> or_str s d <> [].
Proof. intros Hd. destruct s; [exact Hd | discriminate]. Qed.

Lemma or_str_strip (s d : pystr) :
  strip d = d -> strip (or_str (strip s) d) = or_str (strip s) d.
Proof.
  intros Hd. destruct (strip s) eqn:Hs; [exact Hd|].
  cbn [or_str]. rewrite <- Hs. apply strip_idem.
Qed.

(** X2. [_parse_name] sorts every name into exactly one of four kinds,
    tried in this order: garbage when the name contains the banned-content
    marker; speednode when its lower-cased form contains "speednode";
    tagged when it has at least two full-width bars; other otherwise. For
    a tagged name the line and risk tags are never empty, carry no
    whitespace at either end, and the risk tag holds no opening
    parenthesis. *)
Theorem parse_name_spec (name : pystr) :
  let '(kind, line, risk) := parse_name name in
  (contains GARBAGE_MARK name = true
   /\ kind = py "garbage" /\ line = py "garbage" /\ risk = py "garbage")
  \/ (contains GARBAGE_MARK name = false
      /\ contains (py "speednode") (lower name) = true
      /\ kind = py "speednode" /\ line = py "speednode" /\ risk = py "unknown")
  \/ (contains GARBAGE_MARK name = false
      /\ contains (py "speednode") (lower name) = false
      /\ (2 <= count_cp FULLWIDTH_BAR name)%nat
      /\ kind = py "tagged"
      /\ line <> [] /\ risk <> []
      /\ strip line = line /\ strip risk = risk
      /\ ~ In LPAREN risk)
  \/ (contains GARBAGE_MARK name = false
      /\ contains (py "speednode") (lower name) = false
      /\ (count_cp FULLWIDTH_BAR name < 2)%nat
      /\ kind = py "other" /\ line = py "unknown" /\ risk = py "unknown").
Proof.
  unfold parse_name. fold GARBAGE_MARK.
  destruct (contains GARBAGE_MARK name) eqn:Hg; [left; repeat split|].
  destruct (contains (py "speednode") (lower name)) eqn:Hs;
    [right; left; repeat split|].
  pose proof (split_on_length FULLWIDTH_BAR name) as Hlen.
  assert (Hunk : strip (py "unknown") = py "unknown") by (vm_compute; reflexivity).
  assert (Hunk' : py "unknown" <> []) by (vm_compute; discriminate).
  destruct (split_on FULLWIDTH_BAR name) as [|p0 [|p1 [|p2 rest]]] eqn:Hsp.
  - right; right; right. cbn [length] in Hlen. repeat split. lia.
  - right; right; right. cbn [length] in Hlen. repeat split. lia.
  - right; right; right. cbn [length] in Hlen. repeat split. lia.
  - right; right; left. cbn [length] in Hlen.
    split; [reflexivity|]. split; [reflexivity|]. split; [lia|].
    split; [reflexivity|].
    split; [apply or_str_nonempty; exact Hunk'|].
    split; [apply or_str_nonempty; exact Hunk'|].
    split; [apply or_str_strip; exact Hunk|].
    split; [apply or_str_strip; exact Hunk|].
    intros Hin.
    destruct (strip (hd [] (split_on LPAREN (strip p2)))) eqn:Hr.
    + cbn [or_str] in Hin. revert Hin. vm_compute. intuition discriminate.
    + cbn [or_str] in Hin. rewrite <- Hr in Hin. apply strip_incl in Hin.
      exact (split_on_head LPAREN (strip p2) Hin).
Qed.

End ParseName.

(* ================================================================== *)
(** * Which names can reach the threshold *)
(* ================================================================== *)

Section Eligibility.

Local Open Scope R_scope.

Lemma parse_name_kind (name : pystr) :
  exists line risk,
    parse_name name = (py "garbage", line, risk)
    \/ parse_name name = (py "speednode", line, risk)
    \/ parse_name name = (py "tagged", line, risk)
    \/ parse_name name = (py "other", line, risk).
Proof.
  unfold parse_name.
  destruct (contains _ name); [eexists; eexists; left; reflexivity|].
  destruct (contains _ (lower name)); [eexists; eexists; right; left; reflexivity|].
  destruct (split_on FULLWIDTH_BAR name) as [|p0 [|p1 [|p2 rest]]];
    eexists; eexists;
    first [right; right; right; reflexivity | right; right; left; reflexivity].
Qed.

Lemma logit_garbage (line risk : pystr) : logit_of (py "garbage", line, risk) = - 4.117.
Proof.
  change (logit_of (py "garbage", line, risk)) with (BASE_BIAS + - 2.406).
  unfold BASE_BIAS. lra.
Qed.

Lemma logit_other (line risk : pystr) : logit_of (py "other", line, risk) = - 3.992.
Proof.
  change (logit_of (py "other", line, risk)) with (BASE_BIAS + - 2.281).
  unfold BASE_BIAS. lra.
Qed.

Lemma logit_speednode (line risk : pystr) : logit_of (py "speednode", line, risk) = 0.163.
Proof.
  change (logit_of (py "speednode", line, risk)) with (BASE_BIAS + 1.874).
  unfold BASE_BIAS. lra.
Qed.

Lemma logit_tagged (line risk : pystr) :
  logit_of (py "tagged", line, risk)
  = - 0.609 + table_get LINE_W line 0 + table_get RISK_W risk 0.
Proof.
  change (logit_of (py "tagged", line, risk))
    with (BASE_BIAS + 1.102 + table_get LINE_W line 0 + table_get RISK_W risk 0).
  unfold BASE_BIAS. lra.
Qed.

Ltac py_neq := let H := fresh in intros H; subst; vm_compute in H; discriminate.

Lemma line_weight_cases (line : pystr) :
  (line = py "机房" /\ table_get LINE_W line 0 = - 1.534)
  \/ (line <> py "机房" /\ 0 <= table_get LINE_W line 0 <= 1.889).
Proof.
  unfold table_get, LINE_W. cbn [find fst snd]. unfold str_eqb.
  repeat (case_bool_decide; cbn [snd]).
  - right. split; [py_neq | lra].
  - right. split; [py_neq | lra].
  - right. split; [py_neq | lra].
  - left. split; [congruence | lra].
  - right. split; [congruence | lra].
Qed.

Lemma risk_weight_cases (risk : pystr) :
  (risk = py "高风险" /\ table_get RISK_W risk 0 = - 1.281)
  \/ (risk <> py "高风险" /\ 0 <= table_get RISK_W risk 0 <= 1.552).
Proof.
  unfold table_get, RISK_W. cbn [find fst snd]. unfold str_eqb.
  repeat (case_bool_decide; cbn [snd]).
  - left. split; [congruence | lra].
  - right. split; [py_neq | lra].
  - right. split; [py_neq | lra].
  - right. split; [congruence | lra].
Qed.

Lemma exp_m2143 : 0.1172 < exp (- 2.143).
Proof.
  destruct (exp_neg_enclosure 2143 1000 16) as [Hlo _]; [reflexivity ..|].
  replace (- (2143 / 1000)) with (- 2.143) in Hlo by lra.
  assert (E1 : (117200000000000000000000000000 < exp_neg_lo 2143 1000 16)%Z)
    by (vm_compute; reflexivity).
  apply IZR_lt in E1. unfold FX in Hlo.
  change (10 ^ 30)%Z with 1000000000000000000000000000000%Z in Hlo.
  pose proof (Rmult_lt_compat_r (/ 1000000000000000000000000000000) _ _
                ltac:(lra) E1) as H.
  unfold Rdiv in Hlo. lra.
Qed.

Lemma sigmoid_m2143 : 10 < 100 * sigmoid (- 2.143).
Proof.
  rewrite sigmoid_neg by lra. pose proof exp_m2143 as Hlo.
  set (e := exp (- 2.143)) in *.
  apply Rmult_lt_reg_r with (1 + e); [lra|].
  replace (100 * (e / (1 + e)) * (1 + e)) with (100 * e) by (field; lra). lra.
Qed.

(** The score of a name without penalty, by its tags. *)
Lemma base_score_by_tags (name : pystr) :
  let '(kind, line, risk) := parse_name name in
  (kind = py "garbage" /\ base_score name < 10)
  \/ (kind = py "other" /\ base_score name < 10)
  \/ (kind = py "speednode" /\ 50 <= base_score name)
  \/ (kind = py "tagged" /\ line = py "机房" /\ risk = py "高风险" /\ base_score name < 10)
  \/ (kind = py "tagged" /\ ~ (line = py "机房" /\ risk = py "高风险")
      /\ 10 < base_score name).
Proof.
  unfold base_score.
  destruct (parse_name_kind name) as (line & risk & [H|[H|[H|H]]]); rewrite H.
  - left. split; [reflexivity|]. rewrite logit_garbage.
    pose proof (sigmoid_le (- 4.117) (- 3.424) ltac:(lra)).
    pose proof sigmoid_m3424. lra.
  - right; right; left. split; [reflexivity|]. rewrite logit_speednode.
    pose proof (sigmoid_le 0 0.163 ltac:(lra)) as Hs. rewrite sigmoid_0 in Hs. lra.
  - rewrite logit_tagged.
    destruct (line_weight_cases line) as [[Hl Hlw]|[Hl Hlw]],
             (risk_weight_cases risk) as [[Hr Hrw]|[Hr Hrw]].
    + right; right; right; left. repeat split; try assumption.
      rewrite Hlw, Hrw. replace (-0.609 + -1.534 + -1.281) with (- 3.424) by lra.
      pose proof sigmoid_m3424. lra.
    + right; right; right; right. split; [reflexivity|]. split; [tauto|].
      pose proof (sigmoid_le (- 2.143)
                    (-0.609 + table_get LINE_W line 0 + table_get RISK_W risk 0)
                    ltac:(lra)).
      pose proof sigmoid_m2143. lra.
    + right; right; right; right. split; [reflexivity|]. split; [tauto|].
      pose proof (sigmoid_le (- 2.143)
                    (-0.609 + table_get LINE_W line 0 + table_get RISK_W risk 0)
                    ltac:(lra)).
      pose proof sigmoid_m2143. lra.
    + right; right; right; right. split; [reflexivity|]. split; [tauto|].
      pose proof (sigmoid_le (- 2.143)
                    (-0.609 + table_get LINE_W line 0 + table_get RISK_W risk 0)
                    ltac:(lra)).
      pose proof sigmoid_m2143. lra.
  - right; left. split; [reflexivity|]. rewrite logit_other.
    pose proof (sigmoid_le (- 3.992) (- 3.424) ltac:(lra)).
    pose proof sigmoid_m3424. lra.
Qed.

(** X3. Which names can be selected. A name without penalty reaches the
    threshold 10 exactly when it is a speednode name or a tagged name other
    than the pair line 机房, risk 高风险; garbage names, names of kind
    other and tagged 机房 / 高风险 names score below 10, and stay below it
    whatever non-negative penalty they hold. *)
Theorem eligibility_by_tags (ledger : gmap pystr R) (name : pystr) :
  let '(kind, line, risk) := parse_name name in
  let selectable :=
    kind = py "speednode"
    \/ (kind = py "tagged" /\ ~ (line = py "机房" /\ risk = py "高风险")) in
  (penalty_of ledger name = 0 ->
   (SCORE_THRESHOLD <= score_in ledger name <-> selectable))
  /\ (0 <= penalty_of ledger name -> ~ selectable ->
      score_in ledger name < SCORE_THRESHOLD).
Proof.
  pose proof (base_score_by_tags name) as Hb.
  destruct (parse_name name) as [[kind line] risk].
  unfold score_in, SCORE_THRESHOLD.
  assert (Hk1 : py "garbage" <> py "speednode") by (vm_compute; discriminate).
  assert (Hk2 : py "garbage" <> py "tagged") by (vm_compute; discriminate).
  assert (Hk3 : py "other" <> py "speednode") by (vm_compute; discriminate).
  assert (Hk4 : py "other" <> py "tagged") by (vm_compute; discriminate).
  assert (Hk5 : py "speednode" <> py "tagged") by (vm_compute; discriminate).
  split.
  - intros Hz. rewrite Hz.
    destruct Hb as [[-> Hs]|[[-> Hs]|[[-> Hs]|[(-> & -> & -> & Hs)|(-> & Hn & Hs)]]]].
    + split; [lra | intros [H|[H _]]; congruence].
    + split; [lra | intros [H|[H _]]; congruence].
    + split; [intros _; left; reflexivity | lra].
    + split; [lra | intros [H|[_ H]]; [congruence | tauto]].
    + split; [intros _; right; split; [reflexivity | exact Hn] | lra].
  - intros Hp Hns.
    destruct Hb as [[-> Hs]|[[-> Hs]|[[-> Hs]|[(-> & -> & -> & Hs)|(-> & Hn & Hs)]]]];
      try lra.
    + exfalso. apply Hns. left. reflexivity.
    + exfalso. apply Hns. right. split; [reflexivity | exact Hn].
Qed.

(** [eligibility_by_tags] on a 机房 node of unknown risk, which passes, and
    on a name without tags, which does not. *)
Lemma eligibility_by_tags_witness :
  SCORE_THRESHOLD <= score_in ∅ (py "JP｜机房｜")
  /\ score_in ∅ (py "plain-node") < SCORE_THRESHOLD.
Proof.
  split.
  - pose proof (eligibility_by_tags ∅ (py "JP｜机房｜")) as H.
    replace (parse_name (py "JP｜机房｜"))
      with (py "tagged", py "机房", py "unknown") in H by (vm_compute; reflexivity).
    apply (proj1 H eq_refl). right. split; [reflexivity|].
    intros [_ Hr]. vm_compute in Hr. discriminate.
  - pose proof (eligibility_by_tags ∅ (py "plain-node")) as H.
    replace (parse_name (py "plain-node"))
      with (py "other", py "unknown", py "unknown") in H by (vm_compute; reflexivity).
    apply (proj2 H).
    + unfold penalty_of. rewrite lookup_empty. simpl. lra.
    + intros [Hk|[Hk _]]; vm_compute in Hk; discriminate.
Defined.

Ltac exp_bounds num k :=
  let Hlo := fresh "Hlo" in
  let Hhi := fresh "Hhi" in
  destruct (exp_neg_enclosure num 1000 k) as [Hlo Hhi]; [reflexivity ..|];
  let lo := eval vm_compute in (exp_neg_lo num 1000 k) in
  let hi := eval vm_compute in (exp_neg_hi num 1000 k) in
  change (exp_neg_lo num 1000 k) with lo in Hlo;
  change (exp_neg_hi num 1000 k) with hi in Hhi;
  unfold FX in Hlo, Hhi;
  change (10 ^ 30)%Z with 1000000000000000000000000000000%Z in Hlo, Hhi.

Lemma exp_m4117 : 0.016293 < exp (- 4.117) < 0.016294.
Proof.
  exp_bounds 4117%Z 30%nat.
  replace (- (4117 / 1000)) with (- 4.117) in Hlo, Hhi by lra. lra.
Qed.

Lemma exp_m3992 : 0.018462 < exp (- 3.992) < 0.018463.
Proof.
  exp_bounds 3992%Z 30%nat.
  replace (- (3992 / 1000)) with (- 3.992) in Hlo, Hhi by lra. lra.
Qed.

Lemma exp_m0163 : 0.84959 < exp (- 0.163) < 0.84960.
Proof.
  exp_bounds 163%Z 30%nat.
  replace (- (163 / 1000)) with (- 0.163) in Hlo, Hhi by lra. lra.
Qed.

Lemma exp_m2832 : 0.058894 < exp (- 2.832) < 0.058895.
Proof.
  exp_bounds 2832%Z 30%nat.
  replace (- (2832 / 1000)) with (- 2.832) in Hlo, Hhi by lra. lra.
Qed.

(** 100 * sigmoid z from bounds on exp z, below zero, and from bounds on
    exp (- z), from zero on. *)
Lemma sigmoid_neg_bounds (z lo hi a b : R) :
  z < 0 -> lo < exp z < hi -> 0 < lo ->
  a * (1 + lo) < 100 * lo -> 100 * hi < b * (1 + hi) ->
  a < 100 * sigmoid z < b.
Proof.
  intros Hz [Hlo Hhi] Hpos Ha Hb. rewrite sigmoid_neg by exact Hz.
  set (e := exp z) in *.
  assert (He : 0 < 1 + e) by lra.
  split.
  - apply Rmult_lt_reg_r with (1 + e); [exact He|].
    replace (100 * (e / (1 + e)) * (1 + e)) with (100 * e) by (field; lra).
    assert (a < 100) by nra. nra.
  - apply Rmult_lt_reg_r with (1 + e); [exact He|].
    replace (100 * (e / (1 + e)) * (1 + e)) with (100 * e) by (field; lra).
    assert (b < 100 \/ 100 <= b) as [Hb1|Hb1] by lra; nra.
Qed.

Lemma sigmoid_pos_bounds (z lo hi a b : R) :
  0 <= z -> lo < exp (- z) < hi -> 0 < lo ->
  a * (1 + hi) < 100 -> 100 < b * (1 + lo) -> 0 < b ->
  a < 100 * sigmoid z < b.
Proof.
  intros Hz [Hlo Hhi] Hpos Ha Hb Hb0. rewrite sigmoid_nonneg by exact Hz.
  set (e := exp (- z)) in *.
  assert (He : 0 < 1 + e) by lra.
  split.
  - apply Rmult_lt_reg_r with (1 + e); [exact He|].
    replace (100 * (1 / (1 + e)) * (1 + e)) with 100 by (field; lra).
    assert (a < 0 \/ 0 <= a) as [Ha0|Ha0] by lra; nra.
  - apply Rmult_lt_reg_r with (1 + e); [exact He|].
    replace (100 * (1 / (1 + e)) * (1 + e)) with 100 by (field; lra). nra.
Qed.

(** X1. The base score by kind of name. A garbage name scores between
    1.60 and 1.61, a name of kind other between 1.81 and 1.82, a speednode
    name between 54.06 and 54.07, and a tagged name between 3.15 (line
    机房, risk 高风险) and 94.44 (line 商宽, risk 非常安全). So every base
    score lies between 1.6 and 94.44, and every tagged name scores above
    every garbage name and every name of kind other. *)
Theorem base_score_ranges (name : pystr) :
  let '(kind, line, risk) := parse_name name in
  ((kind = py "garbage" /\ 1.60 < base_score name < 1.61)
   \/ (kind = py "other" /\ 1.81 < base_score name < 1.82)
   \/ (kind = py "speednode" /\ 54.06 < base_score name < 54.07)
   \/ (kind = py "tagged" /\ 3.15 < base_score name < 94.44))
  /\ 1.6 < base_score name < 94.44.
Proof.
  unfold base_score.
  assert (Hg : 1.60 < 100 * sigmoid (- 4.117) < 1.61).
  { apply (sigmoid_neg_bounds _ 0.016293 0.016294); try lra. exact exp_m4117. }
  assert (Ho : 1.81 < 100 * sigmoid (- 3.992) < 1.82).
  { apply (sigmoid_neg_bounds _ 0.018462 0.018463); try lra. exact exp_m3992. }
  assert (Hs : 54.06 < 100 * sigmoid 0.163 < 54.07).
  { apply (sigmoid_pos_bounds _ 0.84959 0.84960); try lra.
    replace (- (0.163)) with (- 0.163) by lra. exact exp_m0163. }
  assert (Ht : 100 * sigmoid 2.832 < 94.44).
  { apply (sigmoid_pos_bounds 2.832 0.058894 0.058895 0 94.44); try lra.
    replace (- (2.832)) with (- 2.832) by lra. exact exp_m2832. }
  destruct (parse_name_kind name) as (line & risk & [H|[H|[H|H]]]); rewrite H.
  - rewrite logit_garbage. split; [left; split; [reflexivity | exact Hg] | lra].
  - rewrite logit_speednode.
    split; [right; right; left; split; [reflexivity | exact Hs] | lra].
  - rewrite logit_tagged.
    assert (Hz : - 3.424 <= -0.609 + table_get LINE_W line 0 + table_get RISK_W risk 0
                 <= 2.832).
    { destruct (line_weight_cases line) as [[_ Hl]|[_ Hl]],
               (risk_weight_cases risk) as [[_ Hr]|[_ Hr]]; lra. }
    pose proof (sigmoid_le _ _ (proj1 Hz)) as H1.
    pose proof (sigmoid_le _ _ (proj2 Hz)) as H2.
    pose proof sigmoid_m3424 as H3.
    assert (Hr : 3.15 < 100 * sigmoid (-0.609 + table_get LINE_W line 0
                                       + table_get RISK_W risk 0) < 94.44) by lra.
    split; [right; right; right; split; [reflexivity | exact Hr] | lra].
  - rewrite logit_other. split; [right; left; split; [reflexivity | exact Ho] | lra].
Qed.

End Eligibility.

(* ================================================================== *)
(** * The loop ends *)
(* ================================================================== *)

Section Termination.

Variable E : environment.

Local Open Scope R_scope.

Lemma ledger_nonneg_penalty (m : gmap pystr R) :
  ledger_nonneg m <-> forall n, 0 <= penalty_of m n.
Proof.
  unfold ledger_nonneg, penalty_of. split.
  - intros H n. destruct (m !! n) as [v|] eqn:Hn; simpl; [eapply H; exact Hn | lra].
  - intros H k v Hk. specialize (H k). rewrite Hk in H. exact H.
Qed.

Lemma ledger_nonneg_insert (m : gmap pystr R) (n : pystr) (v : R) :
  ledger_nonneg m -> 0 <= v -> ledger_nonneg (<[n := v]> m).
Proof.
  intros Hm Hv k w Hk. destruct (decide (n = k)) as [->|Hne].
  - rewrite lookup_insert_eq in Hk. injection Hk as <-. exact Hv.
  - rewrite lookup_insert_ne in Hk by exact Hne. eapply Hm, Hk.
Qed.

Lemma Rgeb_iff (a b : R) : Rgeb a b = true <-> b <= a.
Proof. unfold Rgeb. destruct (Rge_dec a b); split; intros; try lra; discriminate. Qed.

Lemma eligible_cons (m : gmap pystr R) (x : pystr) (u : list pystr) :
  eligible m (x :: u)
  = ((if Rgeb (score_in m x) SCORE_THRESHOLD then 1 else 0) + eligible m u)%nat.
Proof.
  unfold eligible. cbn [List.filter].
  destruct (Rgeb (score_in m x) SCORE_THRESHOLD); reflexivity.
Qed.

Lemma eligible_le_length (m : gmap pystr R) (u : list pystr) :
  (eligible m u <= length u)%nat.
Proof. unfold eligible. apply filter_length_le. Qed.

Lemma eligible_mono (m m' : gmap pystr R) (u : list pystr) :
  (forall k, In k u -> penalty_of m k <= penalty_of m' k) ->
  (eligible m' u <= eligible m u)%nat.
Proof.
  induction u as [|x u IH]; intros H; [reflexivity|].
  rewrite !eligible_cons.
  assert (IH' := IH (fun k Hk => H k (or_intror Hk))).
  specialize (H x (or_introl eq_refl)).
  destruct (Rgeb (score_in m' x) SCORE_THRESHOLD) eqn:H1,
           (Rgeb (score_in m x) SCORE_THRESHOLD) eqn:H2; try lia.
  exfalso. apply Rgeb_iff in H1.
  assert (H2' : Rgeb (score_in m x) SCORE_THRESHOLD = true)
    by (apply Rgeb_iff; unfold score_in in *; lra).
  congruence.
Qed.

Lemma eligible_drop (m m' : gmap pystr R) (u : list pystr) (n : pystr) :
  (forall k, In k u -> penalty_of m k <= penalty_of m' k) ->
  In n u ->
  SCORE_THRESHOLD <= score_in m n ->
  score_in m' n < SCORE_THRESHOLD ->
  (eligible m' u < eligible m u)%nat.
Proof.
  intros H Hin Hge Hlt. induction u as [|x u IH]; [destruct Hin|].
  assert (Hu : forall k, In k u -> penalty_of m k <= penalty_of m' k)
    by (intros k Hk; apply H; right; exact Hk).
  pose proof (eligible_mono m m' u Hu) as Hmono.
  specialize (H x (or_introl eq_refl)).
  rewrite !eligible_cons.
  destruct (Rgeb (score_in m' x) SCORE_THRESHOLD) eqn:H1,
           (Rgeb (score_in m x) SCORE_THRESHOLD) eqn:H2.
  - destruct Hin as [->|Hin]; [apply Rgeb_iff in H1; lra|].
    specialize (IH Hu Hin). lia.
  - exfalso. apply Rgeb_iff in H1.
    assert (H2' : Rgeb (score_in m x) SCORE_THRESHOLD = true)
      by (apply Rgeb_iff; unfold score_in in *; lra).
    congruence.
  - lia.
  - destruct Hin as [->|Hin].
    + apply Rgeb_iff in Hge. congruence.
    + specialize (IH Hu Hin). lia.
Qed.

(** One preflight penalty puts any name below zero. *)
Lemma preflight_penalty_score (m : gmap pystr R) (n : pystr) :
  0 <= penalty_of m n ->
  score_in (<[n := penalty_of m n + penalty_amount (py "preflight")]> m) n < 0.
Proof.
  intros Hp. unfold score_in. rewrite penalty_of_insert_eq.
  destruct penalty_amount_table as (-> & _).
  pose proof (base_score_range n). lra.
Qed.

(** A name at or above the threshold is not the empty string. *)
Lemma score_ge_truthy (m : gmap pystr R) (n : pystr) :
  ledger_nonneg m -> SCORE_THRESHOLD <= score_in m n -> truthy (Some n) = true.
Proof.
  intros Hm Hge. destruct n as [|c n]; [|reflexivity]. exfalso.
  pose proof (proj1 (ledger_nonneg_penalty m) Hm []) as Hp.
  pose proof (base_score_by_tags []) as Hb.
  replace (parse_name []) with (py "other", py "unknown", py "unknown") in Hb
    by (vm_compute; reflexivity).
  unfold score_in, SCORE_THRESHOLD in Hge.
  destruct Hb as [[_ Hs]|[[_ Hs]|[[Hk _]|[(Hk & _)|(Hk & _)]]]];
    try lra; vm_compute in Hk; discriminate.
Qed.

Lemma restrict_usable_incl (candidates : list pystr) (alive_map : gmap pystr (option bool)) :
  incl (restrict_usable candidates alive_map) candidates.
Proof.
  unfold restrict_usable.
  destruct (List.filter _ candidates) as [|x l] eqn:Hf; [apply incl_refl|].
  rewrite <- Hf. intros k Hk. apply filter_In in Hk. tauto.
Qed.

Lemma best_candidate_in (m : gmap pystr R) (alive_map : gmap pystr (option bool))
    (candidates : list pystr) (best : pystr) :
  best_candidate m alive_map candidates = Some best -> In best candidates.
Proof.
  unfold best_candidate, py_max. destruct candidates as [|x r]; [discriminate|].
  intros H. injection H as <-. apply max_from_spec.
Qed.

(** The penalty of a failed preflight, on a pool whose ledger has no
    negative entry. *)
Lemma apply_preflight_penalty (n detail : pystr) (s : pool) :
  ledger_nonneg (dyn_penalty s) ->
  exists s',
    apply_penalty n (py "preflight") detail s = Ret tt s'
    /\ lock_held s' = lock_held s
    /\ ledger_nonneg (dyn_penalty s')
    /\ (forall k, penalty_of (dyn_penalty s) k <= penalty_of (dyn_penalty s') k)
    /\ score s' n < 0.
Proof.
  intros Hm. eexists. split; [reflexivity|].
  pose proof (proj1 (ledger_nonneg_penalty _) Hm n) as Hp.
  pose proof (penalty_amount_pos (py "preflight")) as Hpos.
  cbn [set_ledger lock_held dyn_penalty]. split; [reflexivity|].
  split; [apply ledger_nonneg_insert; [exact Hm | lra]|].
  split.
  - intros k. destruct (decide (n = k)) as [->|Hne].
    + rewrite penalty_of_insert_eq. lra.
    + rewrite penalty_of_insert_ne by exact Hne. lra.
  - unfold score. cbn [set_ledger dyn_penalty]. apply preflight_penalty_score, Hp.
Qed.

(** The sticky check returns, and only adds to the ledger. *)
Lemma sticky_check_cases (now : option pystr) (candidates : list pystr) (s : pool) :
  ledger_nonneg (dyn_penalty s) ->
  exists b s',
    sticky_check E now candidates s = Ret b s'
    /\ lock_held s' = lock_held s
    /\ ledger_nonneg (dyn_penalty s')
    /\ (forall k, penalty_of (dyn_penalty s) k <= penalty_of (dyn_penalty s') k).
Proof.
  intros Hm. unfold sticky_check. destruct now as [n|].
  2:{ exists false, s. repeat split; [exact Hm | intros k; lra]. }
  destruct (truthy (Some n) && in_list n candidates
            && Rgeb (score s n) SCORE_THRESHOLD).
  2:{ exists false, s. repeat split; [exact Hm | intros k; lra]. }
  destruct (preflight_frame E s) as (ok & ds & s1 & Hpre & Hl & _ & Hk & _).
  unfold bind at 1. rewrite Hpre. cbn [fst snd]. destruct ok.
  - exists true, s1. unfold ret. rewrite Hl, Hk.
    repeat split; [exact Hm | intros k; lra].
  - assert (Hm1 : ledger_nonneg (dyn_penalty s1)) by (rewrite Hl; exact Hm).
    destruct (apply_preflight_penalty n (hd [] ds) s1 Hm1)
      as (s2 & Hap & Hk2 & Hm2 & Hgrow & _).
    exists false, s2. unfold bind, ret. rewrite Hap.
    split; [reflexivity|]. split; [congruence|]. split; [exact Hm2|].
    intros k. rewrite <- Hl. apply Hgrow.
Qed.

(** The rest of a round neither waits nor loops; when it asks for another
    round, one more name of [u] has left the names at or above the
    threshold. *)
Lemma switch_and_probe_cases (now : option pystr) (candidates : list pystr)
    (alive_map : gmap pystr (option bool)) (s : pool) (u : list pystr) :
  ledger_nonneg (dyn_penalty s) ->
  incl candidates u ->
  match switch_and_probe E now candidates alive_map s with
  | Ret (Some _) s' | Raise _ s' =>
    lock_held s' = lock_held s /\ ledger_nonneg (dyn_penalty s')
  | Ret None s' =>
    lock_held s' = lock_held s
    /\ ledger_nonneg (dyn_penalty s')
    /\ (eligible (dyn_penalty s') u < eligible (dyn_penalty s) u)%nat
  | Blocked _ | Fuel _ => False
  end.
Proof.
  intros Hm Hincl. unfold switch_and_probe.
  destruct (best_candidate (dyn_penalty s) alive_map candidates) as [best|] eqn:Hb;
    [|split; [reflexivity | exact Hm]].
  unfold Rltb. destruct (Rlt_dec (score s best) SCORE_THRESHOLD) as [Hlt|Hge];
    [split; [reflexivity | exact Hm]|].
  assert (Hge' : SCORE_THRESHOLD <= score_in (dyn_penalty s) best)
    by (unfold score in Hge; lra).
  pose proof (score_ge_truthy _ _ Hm Hge') as Htr.
  pose proof (Hincl _ (best_candidate_in _ _ _ _ Hb)) as Hin.
  assert (Hsw : exists r,
    (if bool_decide (Some best = now) then ret now
     else (select_group E best ;; touch_switch_ts E ;; ret (Some best))%pool) s = r
    /\ match r with
       | Ret now' s1 =>
         now' = Some best /\ dyn_penalty s1 = dyn_penalty s
         /\ lock_held s1 = lock_held s
       | Raise _ s1 => lock_held s1 = lock_held s /\ dyn_penalty s1 = dyn_penalty s
       | Blocked _ | Fuel _ => False
       end).
  { eexists. split; [reflexivity|].
    destruct (bool_decide (Some best = now)) eqn:Hd.
    - apply bool_decide_eq_true in Hd. unfold ret. auto.
    - unfold bind, select_group, touch_switch_ts, ret.
      destruct (env_put E (log s) best); cbn; auto. }
  destruct Hsw as (r & Hr & Hcase). unfold bind at 1. rewrite Hr.
  destruct r as [now' s1|e s1|s1|s1]; try exact Hcase.
  2:{ destruct Hcase as [Hk Hl]. rewrite Hl. auto. }
  destruct Hcase as (-> & Hl1 & Hk1).
  destruct (preflight_frame E s1) as (ok & ds & s2 & Hpre & Hl2 & _ & Hk2 & _).
  unfold bind at 1. rewrite Hpre. cbn [fst snd]. destruct ok.
  - unfold ret. split; [congruence|]. rewrite Hl2, Hl1. exact Hm.
  - rewrite Htr.
    assert (Hm2 : ledger_nonneg (dyn_penalty s2)) by (rewrite Hl2, Hl1; exact Hm).
    destruct (apply_preflight_penalty best (hd [] ds) s2 Hm2)
      as (s3 & Hap & Hk3 & Hm3 & Hgrow & Hneg).
    unfold bind, ret. rewrite Hap.
    split; [congruence|]. split; [exact Hm3|].
    apply eligible_drop with best.
    + intros k _. rewrite <- Hl1, <- Hl2. apply Hgrow.
    + exact Hin.
    + exact Hge'.
    + unfold score in Hneg. unfold SCORE_THRESHOLD. lra.
Qed.

(** [_get_group] returns or raises, and touches neither lock nor ledger. *)
Lemma get_group_cases (s : pool) :
  match get_group E s with
  | Ret (now, cands, am) s' =>
    dyn_penalty s' = dyn_penalty s /\ lock_held s' = lock_held s
    /\ exists obj, env_get_proxies E (log s) = inr (JObj obj)
                   /\ parse_group obj = inr (now, cands, am)
  | Raise _ s' => dyn_penalty s' = dyn_penalty s /\ lock_held s' = lock_held s
  | Blocked _ | Fuel _ => False
  end.
Proof.
  unfold get_group, bind, get_proxies.
  destruct (env_get_proxies E (log s)) as [e|j]; [split; reflexivity|].
  destruct j; try (split; reflexivity).
  destruct (parse_group fields) as [e|[[now cands] am]] eqn:Hp; [split; reflexivity|].
  unfold ret. split; [reflexivity|]. split; [reflexivity|].
  exists fields. split; [reflexivity | exact Hp].
Qed.

(** With more rounds allowed than names of [u] at or above the threshold,
    the loop returns or raises. *)
Lemma ensure_loop_settles (u : list pystr) :
  reports_within E u ->
  forall (fuel : nat) (s : pool),
    ledger_nonneg (dyn_penalty s) ->
    (eligible (dyn_penalty s) u < fuel)%nat ->
    settles (ensure_loop E fuel s)
    /\ lock_held (final (ensure_loop E fuel s)) = lock_held s
    /\ ledger_nonneg (dyn_penalty (final (ensure_loop E fuel s))).
Proof.
  intros Hrep. induction fuel as [|fuel IH]; intros s Hm Hfuel; [lia|].
  set (P := fun r : result (option pystr) =>
              settles r /\ lock_held (final r) = lock_held s
              /\ ledger_nonneg (dyn_penalty (final r))).
  change (P (ensure_loop E (S fuel) s)).
  cbn [ensure_loop]. unfold bind at 1.
  pose proof (get_group_cases s) as Hg.
  destruct (get_group E s) as [[[now cands] am] s1|e s1|s1|s1]; try contradiction.
  2:{ destruct Hg as [Hl Hk]. unfold P. cbn. rewrite Hl. auto. }
  destruct Hg as (Hl1 & Hk1 & obj & Henv & Hparse).
  pose proof (Hrep _ _ _ _ _ Henv Hparse) as Hincl.
  destruct cands as [|c cs]; [unfold P; cbn; rewrite Hl1; auto|].
  unfold bind at 1, setdefault_all at 1.
  set (s2 := set_ledger _ s1).
  assert (Hp2 : forall k, penalty_of (dyn_penalty s2) k = penalty_of (dyn_penalty s) k).
  { intros k. unfold s2. cbn [set_ledger dyn_penalty].
    rewrite penalty_of_setdefaults, Hl1. reflexivity. }
  assert (Hm2 : ledger_nonneg (dyn_penalty s2)).
  { apply ledger_nonneg_penalty. intros k. rewrite Hp2.
    apply ledger_nonneg_penalty. exact Hm. }
  assert (Hk2 : lock_held s2 = lock_held s) by exact Hk1.
  destruct (sticky_check_cases now (restrict_usable (c :: cs) am) s2 Hm2)
    as (b & s3 & Hst & Hk3 & Hm3 & Hgrow3).
  unfold bind at 1. rewrite Hst. destruct b.
  - unfold P. cbn. split; [exact I|]. split; [congruence | exact Hm3].
  - assert (He3 : (eligible (dyn_penalty s3) u <= eligible (dyn_penalty s) u)%nat).
    { apply eligible_mono. intros k _. rewrite <- Hp2. apply Hgrow3. }
    assert (Hincl' : incl (restrict_usable (c :: cs) am) u).
    { intros k Hk. apply Hincl. eapply restrict_usable_incl. exact Hk. }
    pose proof (switch_and_probe_cases now _ am s3 u Hm3 Hincl') as Hsw.
    unfold bind at 1.
    destruct (switch_and_probe E now (restrict_usable (c :: cs) am) am s3)
      as [[held|] s4|e s4|s4|s4]; try contradiction.
    + destruct Hsw as [Hk4 Hm4]. unfold P. cbn. split; [exact I|].
      split; [congruence | exact Hm4].
    + destruct Hsw as (Hk4 & Hm4 & He4).
      destruct (IH s4 Hm4 ltac:(lia)) as (Hs & Hk & Hmf).
      unfold P. split; [exact Hs|]. split; [congruence | exact Hmf].
    + destruct Hsw as [Hk4 Hm4]. unfold P. cbn. split; [exact I|].
      split; [congruence | exact Hm4].
Qed.

(** Once the loop settles within a number of rounds, allowing one more
    changes nothing. *)
Lemma ensure_loop_fuel_S : forall (fuel : nat) (s : pool),
  settles (ensure_loop E fuel s) ->
  ensure_loop E (S fuel) s = ensure_loop E fuel s.
Proof.
  induction fuel as [|fuel IH]; intros s Hs; [destruct Hs|].
  cbn [ensure_loop] in *. unfold bind, setdefault_all in *.
  destruct (get_group E s) as [[[now cands] am] s1|e s1|s1|s1]; try reflexivity.
  destruct cands as [|c cs]; [reflexivity|].
  destruct (sticky_check E now (restrict_usable (c :: cs) am) _)
    as [[|] s3|e s3|s3|s3]; try reflexivity.
  destruct (switch_and_probe E now (restrict_usable (c :: cs) am) am s3)
    as [[held|] s4|e s4|s4|s4]; try reflexivity.
  exact (IH s4 Hs).
Qed.

Lemma ensure_loop_fuel_le (fuel fuel' : nat) (s : pool) :
  settles (ensure_loop E fuel s) ->
  (fuel <= fuel')%nat ->
  ensure_loop E fuel' s = ensure_loop E fuel s.
Proof.
  intros Hs Hle. induction Hle as [|f Hle IH]; [reflexivity|].
  rewrite ensure_loop_fuel_S; [exact IH|]. rewrite IH. exact Hs.
Qed.

(** [_maybe_refresh_dynamic] returns; it keeps the lock and a ledger
    without negative entries. *)
Lemma maybe_refresh_cases (s : pool) :
  ledger_nonneg (dyn_penalty s) ->
  exists s',
    maybe_refresh_dynamic E s = Ret tt s'
    /\ lock_held s' = lock_held s
    /\ ledger_nonneg (dyn_penalty s').
Proof.
  intros Hm. unfold maybe_refresh_dynamic.
  destruct (Rltb _ _); [eexists; split; [reflexivity|]; split; [reflexivity | exact Hm]|].
  destruct (negb _).
  - eexists. split; [reflexivity|]. split; [reflexivity | exact Hm].
  - eexists. split; [reflexivity|]. split; [reflexivity|].
    cbn [dyn_penalty record_event set_switch_ts set_ledger].
    intros k v Hk. rewrite (ledger_reset_all_zero _ k v Hk). lra.
Qed.

Section WithSettings.

Variable cfg : settings.

(** [ensure_started] on a free lock returns or raises with the lock free
    again and the ledger as it was. *)
Lemma ensure_started_cases (s : pool) :
  lock_held s = false ->
  match ensure_started E cfg s with
  | Ret _ s' | Raise _ s' => lock_held s' = false /\ dyn_penalty s' = dyn_penalty s
  | Blocked _ | Fuel _ => False
  end.
Proof.
  intros Hk. unfold ensure_started, with_lock.
  destruct (negb (enabled cfg)); [split; [exact Hk | reflexivity]|].
  rewrite Hk. cbn [log set_lock].
  destruct (env_init E (log s)); [destruct (required cfg)|]; split; reflexivity.
Qed.

(** The body of [ensure_proxy_reachable] under its lock. *)
Lemma reachable_body_settles (u : list pystr) (fuel : nat) (s : pool) :
  reports_within E u ->
  ledger_nonneg (dyn_penalty s) ->
  (length u < fuel)%nat ->
  let body f := (maybe_refresh_dynamic E ;; _ <- ensure_loop E f ;; ret tt)%pool in
  settles (body fuel s)
  /\ lock_held (final (body fuel s)) = lock_held s
  /\ ledger_nonneg (dyn_penalty (final (body fuel s)))
  /\ (forall fuel', (fuel <= fuel')%nat -> body fuel' s = body fuel s).
Proof.
  intros Hrep Hm Hfuel body.
  destruct (maybe_refresh_cases s Hm) as (s1 & Hr & Hk1 & Hm1).
  assert (Hbody : forall f,
            body f s = bind (ensure_loop E f) (fun _ => ret tt) s1).
  { intros f. unfold body. unfold bind at 1. rewrite Hr. reflexivity. }
  pose proof (eligible_le_length (dyn_penalty s1) u) as Hle.
  destruct (ensure_loop_settles u Hrep fuel s1 Hm1 ltac:(lia)) as (Hs & Hk & Hmf).
  split; [|split; [|split]].
  - rewrite Hbody. unfold bind. destruct (ensure_loop E fuel s1); try exact Hs; exact I.
  - rewrite Hbody. unfold bind. rewrite <- Hk1, <- Hk.
    destruct (ensure_loop E fuel s1); reflexivity.
  - rewrite Hbody. unfold bind. destruct (ensure_loop E fuel s1); exact Hmf.
  - intros fuel' Hf. rewrite !Hbody. unfold bind.
    rewrite (ensure_loop_fuel_le fuel fuel' s1 Hs Hf). reflexivity.
Qed.

(** [ensure_proxy_reachable] from a free lock, within [length u + 1]
    rounds. *)
Lemma reachable_settles (u : list pystr) (fuel : nat) (s : pool) :
  reports_within E u ->
  ledger_nonneg (dyn_penalty s) ->
  lock_held s = false ->
  (length u < fuel)%nat ->
  settles (ensure_proxy_reachable E cfg fuel s)
  /\ lock_held (final (ensure_proxy_reachable E cfg fuel s)) = false
  /\ ledger_nonneg (dyn_penalty (final (ensure_proxy_reachable E cfg fuel s)))
  /\ (forall fuel', (fuel <= fuel')%nat ->
      ensure_proxy_reachable E cfg fuel' s = ensure_proxy_reachable E cfg fuel s).
Proof.
  intros Hrep Hm Hk Hfuel. unfold ensure_proxy_reachable.
  destruct (negb (enabled cfg)); [cbn; auto|].
  set (body := fun f : nat =>
         (maybe_refresh_dynamic E ;; _ <- ensure_loop E f ;; ret tt)%pool).
  assert (Hrun : forall f,
            (ensure_started E cfg ;; with_lock (body f))%pool s
            = match ensure_started E cfg s with
              | Ret _ s1 => with_lock (body f) s1
              | Raise e s1 => Raise e s1
              | Blocked s1 => Blocked s1
              | Fuel s1 => Fuel s1
              end) by reflexivity.
  change (let run := fun f => (ensure_started E cfg ;; with_lock (body f))%pool s in
          settles (run fuel)
          /\ lock_held (final (run fuel)) = false
          /\ ledger_nonneg (dyn_penalty (final (run fuel)))
          /\ (forall fuel', (fuel <= fuel')%nat -> run fuel' = run fuel)).
  intros run.
  assert (Hrun' : forall f, run f
            = match ensure_started E cfg s with
              | Ret _ s1 => with_lock (body f) s1
              | Raise e s1 => Raise e s1
              | Blocked s1 => Blocked s1
              | Fuel s1 => Fuel s1
              end) by exact Hrun.
  clearbody run. clear Hrun.
  pose proof (ensure_started_cases s Hk) as Hst.
  destruct (ensure_started E cfg s) as [[] s1|e s1|s1|s1]; try contradiction.
  2:{ destruct Hst as [Hk1 Hl1]. rewrite !Hrun'. cbn. rewrite Hl1.
      repeat split; try assumption. intros f _. rewrite Hrun'. reflexivity. }
  destruct Hst as [Hk1 Hl1].
  assert (Hm1 : ledger_nonneg (dyn_penalty (set_lock true s1)))
    by (cbn [set_lock dyn_penalty]; rewrite Hl1; exact Hm).
  destruct (reachable_body_settles u fuel (set_lock true s1) Hrep Hm1 Hfuel)
    as (Hs & Hkb & Hmb & Hind).
  change (settles (body fuel (set_lock true s1))) in Hs.
  change (ledger_nonneg (dyn_penalty (final (body fuel (set_lock true s1))))) in Hmb.
  change (forall fuel', (fuel <= fuel')%nat ->
            body fuel' (set_lock true s1) = body fuel (set_lock true s1)) in Hind.
  clear Hkb.
  assert (Hrun : forall f, run f
            = match body f (set_lock true s1) with
              | Ret a s' => Ret a (set_lock false s')
              | Raise e s' => Raise e (set_lock false s')
              | Blocked s' => Blocked s'
              | Fuel s' => Fuel s'
              end).
  { intros f. rewrite Hrun'. unfold with_lock. rewrite Hk1. reflexivity. }
  split; [|split; [|split]].
  - rewrite Hrun. destruct (body fuel (set_lock true s1)); try exact Hs; exact I.
  - rewrite Hrun. destruct (body fuel (set_lock true s1)); try destruct Hs; reflexivity.
  - rewrite Hrun. destruct (body fuel (set_lock true s1)); exact Hmb.
  - intros fuel' Hf. rewrite !Hrun, (Hind fuel' Hf). reflexivity.
Qed.

(** X4. [ensure_proxy_reachable] ends. Let the controller report only
    candidates from a finite list [u], and let the ledger hold no negative
    entry and the lock be free. Then the call returns or raises after at
    most [length u + 1] rounds of its [while True] loop (a round that
    does not end the call leaves one more name of [u] below the
    threshold): it never waits on its own lock, and a larger round bound
    gives the same outcome. Afterwards the lock is free and the ledger
    still has no negative entry. *)
Theorem ensure_proxy_reachable_settles (u : list pystr) (fuel : nat) (s : pool) :
  reports_within E u ->
  ledger_nonneg (dyn_penalty s) ->
  lock_held s = false ->
  (length u < fuel)%nat ->
  settles (ensure_proxy_reachable E cfg fuel s)
  /\ lock_held (final (ensure_proxy_reachable E cfg fuel s)) = false
  /\ ledger_nonneg (dyn_penalty (final (ensure_proxy_reachable E cfg fuel s)))
  /\ (forall fuel', (fuel <= fuel')%nat ->
      ensure_proxy_reachable E cfg fuel' s = ensure_proxy_reachable E cfg fuel s).
Proof. exact (reachable_settles u fuel s). Qed.

End WithSettings.

End Termination.

Lemma steady_reports_within (clock : list event -> R) (doc : json) (status : Z)
    (now : option pystr) (cands : list pystr) (am : gmap pystr (option bool))
    (u : list pystr) :
  parse_group (doc_fields doc) = inr (now, cands, am) ->
  incl cands u ->
  reports_within (steady_env clock doc status) u.
Proof.
  intros Hp Hincl l obj now' cands' am' Henv Hp'.
  cbn [steady_env env_get_proxies] in Henv. injection Henv as ->.
  cbn [doc_fields] in Hp. rewrite Hp in Hp'. injection Hp' as <- <- <-. exact Hincl.
Qed.

(** [ensure_proxy_reachable_settles] on the controller that offers
    [node_A] and [node_B]: three rounds are enough. *)
Lemma ensure_proxy_reachable_settles_witness :
  settles (ensure_proxy_reachable env_A_selected pool_on 3 (new_pool 0))
  /\ lock_held (final (ensure_proxy_reachable env_A_selected pool_on 3 (new_pool 0)))
     = false.
Proof.
  destruct (ensure_proxy_reachable_settles env_A_selected pool_on
              [node_A; node_B] 3 (new_pool 0)) as (Hs & Hk & _).
  - eapply steady_reports_within; [exact parse_group_A_selected | apply incl_refl].
  - intros k v Hk. cbn [new_pool dyn_penalty] in Hk. rewrite lookup_empty in Hk.
    discriminate.
  - reflexivity.
  - cbn. lia.
  - split; [exact Hs | exact Hk].
Defined.

(* ================================================================== *)
(** * What the outcomes of a call mean *)
(* ================================================================== *)

Section Outcomes.

Variable E : environment.
Variable cfg : settings.

Local Open Scope R_scope.

Lemma sum_R_amounts_nonneg (kinds : list (pystr * pystr)) :
  0 <= sum_R (map (fun kd => penalty_amount (fst kd)) kinds).
Proof.
  induction kinds as [|kd r IH]; cbn; [lra|].
  pose proof (penalty_amount_pos (fst kd)). unfold sum_R in IH. lra.
Qed.

Lemma sum_R_amounts_preflight (kinds : list (pystr * pystr)) :
  In (py "preflight") (map fst kinds) ->
  100 <= sum_R (map (fun kd => penalty_amount (fst kd)) kinds).
Proof.
  induction kinds as [|kd r IH]; [intros []|].
  cbn [map In sum_R fold_right]. intros [Hk|Hin].
  - rewrite Hk. destruct penalty_amount_table as (-> & _).
    pose proof (sum_R_amounts_nonneg r) as Hr. unfold sum_R in Hr. lra.
  - specialize (IH Hin). unfold sum_R in IH.
    pose proof (penalty_amount_pos (fst kd)). lra.
Qed.

(** X5. Penalties add up. After any sequence of [_apply_penalty] calls on
    one name, that name's penalty is what it was plus the sum of the fixed
    amounts of the kinds, in whatever order they came; no other name's
    penalty, nor the timer, the lock or the calls made, has changed. If
    one of the kinds is [preflight] and the ledger had no negative entry,
    the name's score is below zero afterwards. *)
Theorem penalties_accumulate (fuel : nat) (name : pystr) (kinds : list (pystr * pystr)) :
  forall s : pool,
  exists s',
    run_calls E cfg fuel
      (map (fun kd => CallApplyPenalty name (fst kd) (snd kd)) kinds) s = s'
    /\ penalty_of (dyn_penalty s') name
       = penalty_of (dyn_penalty s) name
         + sum_R (map (fun kd => penalty_amount (fst kd)) kinds)
    /\ (forall k, k <> name ->
          penalty_of (dyn_penalty s') k = penalty_of (dyn_penalty s) k)
    /\ log s' = log s
    /\ last_switch_ts s' = last_switch_ts s
    /\ lock_held s' = lock_held s
    /\ (ledger_nonneg (dyn_penalty s) ->
        In (py "preflight") (map fst kinds) ->
        score s' name < 0).
Proof.
  intros s. eexists. split; [reflexivity|].
  assert (Hmain : forall (l : list (pystr * pystr)) (s0 : pool),
    let s' := run_calls E cfg fuel
                (map (fun kd => CallApplyPenalty name (fst kd) (snd kd)) l) s0 in
    penalty_of (dyn_penalty s') name
    = penalty_of (dyn_penalty s0) name + sum_R (map (fun kd => penalty_amount (fst kd)) l)
    /\ (forall k, k <> name ->
          penalty_of (dyn_penalty s') k = penalty_of (dyn_penalty s0) k)
    /\ log s' = log s0 /\ last_switch_ts s' = last_switch_ts s0
    /\ lock_held s' = lock_held s0).
  { induction l as [|kd r IH]; intros s0.
    - cbn. repeat split; lra.
    - cbn [map run_calls run_call]. unfold apply_penalty. cbv beta iota.
      set (s1 := set_ledger _ s0).
      destruct (IH s1) as (Hn & Ho & Hl & Ht & Hk).
      cbv zeta. split; [|split; [|repeat split]].
      + rewrite Hn. unfold s1. cbn [set_ledger dyn_penalty sum_R fold_right].
        rewrite penalty_of_insert_eq. unfold sum_R. lra.
      + intros k Hne. rewrite (Ho k Hne). unfold s1. cbn [set_ledger dyn_penalty].
        apply penalty_of_insert_ne. congruence.
      + rewrite Hl. reflexivity.
      + rewrite Ht. reflexivity.
      + rewrite Hk. reflexivity. }
  destruct (Hmain kinds s) as (Hn & Ho & Hl & Ht & Hk).
  repeat split; try assumption.
  intros Hm Hin. unfold score, score_in. rewrite Hn.
  pose proof (sum_R_amounts_preflight kinds Hin).
  pose proof (proj1 (ledger_nonneg_penalty _) Hm name).
  pose proof (base_score_range name). lra.
Qed.

(** A passed preflight leaves its probes as the last calls made. *)
Lemma preflight_passed (s s' : pool) (ds : list pystr) :
  preflight E s = Ret (true, ds) s' ->
  ends_with_passed_preflight E (log s').
Proof.
  intros Hrun.
  destruct (preflight_from_spec E PREFLIGHT_URLS [] s)
    as (ok & ds' & s1 & Hrun' & _ & _ & _ & Hok & _).
  unfold preflight in Hrun. rewrite Hrun in Hrun'. injection Hrun' as <- _ <-.
  destruct (Hok eq_refl) as (Hpass & Hlog & _).
  exists (log s). split; [exact Hlog|].
  intros i u Hu. specialize (Hpass i u Hu).
  unfold probe_passes in Hpass.
  destruct (env_probe E (probe_hist PREFLIGHT_URLS i (log s)) u) as [e|status];
    [discriminate|].
  exists status. split; [reflexivity | apply status_ok_iff; exact Hpass].
Qed.

Lemma sticky_check_true_probed (now : option pystr) (candidates : list pystr)
    (s s' : pool) :
  sticky_check E now candidates s = Ret true s' ->
  ends_with_passed_preflight E (log s').
Proof.
  unfold sticky_check. destruct now as [n|]; [|discriminate].
  destruct (truthy (Some n) && in_list n candidates
            && Rgeb (score s n) SCORE_THRESHOLD); [|discriminate].
  intros H. apply bind_ret_inv in H as ([ok ds] & s1 & Hpre & Hk).
  cbn [fst snd] in Hk. destruct ok.
  - injection Hk as <-. eapply preflight_passed, Hpre.
  - apply bind_ret_inv in Hk as (_ & s2 & _ & Hk). discriminate.
Qed.

Lemma switch_and_probe_some_probed (now : option pystr) (candidates : list pystr)
    (alive_map : gmap pystr (option bool)) (s s' : pool) (held : option pystr) :
  switch_and_probe E now candidates alive_map s = Ret (Some held) s' ->
  ends_with_passed_preflight E (log s').
Proof.
  unfold switch_and_probe.
  destruct (best_candidate (dyn_penalty s) alive_map candidates) as [best|];
    [|discriminate].
  destruct (Rltb (score s best) SCORE_THRESHOLD); [discriminate|].
  intros H. apply bind_ret_inv in H as (now' & s1 & _ & H).
  apply bind_ret_inv in H as ([ok ds] & s2 & Hpre & H).
  cbn [fst snd] in H. destruct ok.
  - injection H as _ <-. eapply preflight_passed, Hpre.
  - destruct now' as [n|]; [|discriminate].
    destruct (truthy (Some n)); [|discriminate].
    apply bind_ret_inv in H as (_ & s3 & _ & H). discriminate.
Qed.

Lemma ensure_loop_returns_probed (fuel : nat) :
  forall (s s' : pool) (held : option pystr),
    ensure_loop E fuel s = Ret held s' ->
    ends_with_passed_preflight E (log s').
Proof.
  induction fuel as [|fuel IH]; intros s s' held H; [discriminate|].
  cbn [ensure_loop] in H.
  apply bind_ret_inv in H as ([[now candidates] alive_map] & s1 & _ & H).
  destruct candidates as [|c cs]; [discriminate|].
  apply bind_ret_inv in H as (_ & s2 & _ & H).
  apply bind_ret_inv in H as (stuck & s3 & Hst & H).
  destruct stuck.
  - injection H as _ <-. eapply sticky_check_true_probed, Hst.
  - apply bind_ret_inv in H as (r & s4 & Hsw & H).
    destruct r as [held'|].
    + injection H as _ <-. eapply switch_and_probe_some_probed, Hsw.
    + eapply IH, H.
Qed.

(** X6. When [ensure_proxy_reachable] returns on an enabled pool, the
    last calls it made are the probes of the whole preflight list, in
    order, each answered with a status from 200 to 399; the lock is free.
    It never returns on anything less: not on a switch alone, and not on a
    preflight of which some probe failed. *)
Theorem reachable_return_means_preflight (fuel : nat) (s s' : pool) :
  enabled cfg = true ->
  ensure_proxy_reachable E cfg fuel s = Ret tt s' ->
  ends_with_passed_preflight E (log s') /\ lock_held s' = false.
Proof.
  intros Hen H. unfold ensure_proxy_reachable in H. rewrite Hen in H. cbn [negb] in H.
  apply bind_ret_inv in H as ([] & s1 & _ & H).
  unfold with_lock in H. destruct (lock_held s1); [discriminate|].
  destruct ((maybe_refresh_dynamic E ;; _ <- ensure_loop E fuel ;; ret tt)%pool
              (set_lock true s1)) as [[] s2|e s2|s2|s2] eqn:Hbody; try discriminate.
  injection H as <-. cbn [log lock_held set_lock]. split; [|reflexivity].
  apply bind_ret_inv in Hbody as ([] & s3 & _ & Hbody).
  apply bind_ret_inv in Hbody as (held & s4 & Hloop & Hbody).
  injection Hbody as <-. eapply ensure_loop_returns_probed, Hloop.
Qed.

End Outcomes.

(** [reachable_return_means_preflight] on the first selection of
    [node_A]. *)
Lemma reachable_return_means_preflight_witness :
  exists s',
    ensure_proxy_reachable env_none_selected pool_on 1 (new_pool 0) = Ret tt s'
    /\ ends_with_passed_preflight env_none_selected (log s')
    /\ lock_held s' = false.
Proof.
  destruct ensure_reachable_first_selection as (s' & Hrun & _).
  exists s'. split; [exact Hrun|].
  exact (reachable_return_means_preflight env_none_selected pool_on 1 (new_pool 0) s'
           eq_refl Hrun).
Defined.

Section Liveness.

Variable E : environment.

Local Open Scope R_scope.

Lemma alive_rank_2 (v : option bool) : alive_rank v = 2%Z <-> v = Some true.
Proof. destruct v as [[|]|]; cbn; split; intros H; congruence. Qed.

Lemma alive_rank_range (v : option bool) : (1 <= alive_rank v <= 2)%Z.
Proof. destruct v as [[|]|]; cbn; lia. Qed.

Lemma best_candidate_max (m : gmap pystr R) (alive_map : gmap pystr (option bool))
    (candidates : list pystr) :
  candidates <> [] ->
  exists best,
    best_candidate m alive_map candidates = Some best
    /\ In best candidates
    /\ forall c, In c candidates ->
         key_gtb (rank_key m alive_map c) (rank_key m alive_map best) = false.
Proof.
  destruct candidates as [|x r]; [congruence|]. intros _.
  destruct (max_from_spec (rank_key m alive_map) r x) as (Hin & Hself & Hrest).
  eexists. split; [reflexivity|]. split; [exact Hin|].
  intros c [<-|Hc]; [exact Hself | apply Hrest; exact Hc].
Qed.

Lemma restrict_usable_split (candidates : list pystr)
    (alive_map : gmap pystr (option bool)) :
  ((exists a, In a candidates /\ alive_get alive_map a <> Some false)
   /\ forall n, In n (restrict_usable candidates alive_map)
        <-> In n candidates /\ alive_get alive_map n <> Some false)
  \/ ((forall a, In a candidates -> alive_get alive_map a = Some false)
      /\ restrict_usable candidates alive_map = candidates).
Proof.
  unfold restrict_usable.
  destruct (List.filter _ candidates) as [|x l] eqn:Hf.
  - right. split; [|reflexivity]. intros a Ha.
    destruct (decide (alive_get alive_map a = Some false)) as [Hd|Hd]; [exact Hd|].
    exfalso. assert (Hin : In a []).
    { rewrite <- Hf. apply filter_In. split; [exact Ha|].
      apply negb_true_iff, bool_decide_eq_false. exact Hd. }
    destruct Hin.
  - left. rewrite <- Hf.
    assert (Hspec : forall n,
              In n (List.filter
                      (fun n => negb (bool_decide (alive_get alive_map n = Some false)))
                      candidates)
              <-> In n candidates /\ alive_get alive_map n <> Some false).
    { intros n. rewrite filter_In, negb_true_iff, bool_decide_eq_false. reflexivity. }
    split; [|exact Hspec].
    exists x. apply Hspec. rewrite Hf. left. reflexivity.
Qed.

(** X7. A node the controller marks as dead is never the best pick while
    some candidate is not marked dead: the pick is then a candidate whose
    liveness is true or unknown. Only when every candidate is marked dead
    does the code fall back to picking among all of them. *)
Theorem dead_node_not_picked (ledger : gmap pystr R)
    (alive_map : gmap pystr (option bool)) (candidates : list pystr) :
  candidates <> [] ->
  exists best,
    best_candidate ledger alive_map (restrict_usable candidates alive_map) = Some best
    /\ In best candidates
    /\ ((exists a, In a candidates /\ alive_get alive_map a <> Some false) ->
        alive_get alive_map best <> Some false)
    /\ ((forall a, In a candidates -> alive_get alive_map a = Some false) ->
        forall c, In c candidates ->
          score_in ledger c < score_in ledger best
          \/ (score_in ledger c = score_in ledger best /\ str_gtb c best = false)).
Proof.
  intros Hne.
  assert (Hne' : restrict_usable candidates alive_map <> []).
  { destruct (restrict_usable_split candidates alive_map)
      as [[(a & Ha & Hd) Hspec]|[_ ->]]; [|exact Hne].
    intros Hnil. assert (Hin : In a (restrict_usable candidates alive_map))
      by (apply Hspec; split; assumption).
    rewrite Hnil in Hin. destruct Hin. }
  destruct (best_candidate_max ledger alive_map _ Hne') as (best & Hb & Hin & Hmax).
  exists best. split; [exact Hb|].
  split; [eapply restrict_usable_incl, Hin|]. split.
  - intros (a & Ha & Hd).
    destruct (restrict_usable_split candidates alive_map)
      as [[_ Hspec]|[Hall _]].
    + apply Hspec in Hin. tauto.
    + exfalso. apply Hd, Hall, Ha.
  - intros Hall c Hc.
    destruct (restrict_usable_split candidates alive_map)
      as [[(a & Ha & Hd) _]|[_ Heq]]; [exfalso; apply Hd, Hall, Ha|].
    rewrite Heq in Hmax, Hin. specialize (Hmax c Hc). unfold rank_key in Hmax.
    apply key_gtb_false in Hmax as (_ & Hs & Hn).
    rewrite (Hall c Hc), (Hall best Hin) in Hs, Hn.
    specialize (Hs eq_refl). destruct Hs as [Hlt|Heq']; [left; exact Hlt|].
    right. split; [exact Heq' | exact (Hn eq_refl Heq')].
Qed.

(** X8. Liveness outranks the score, in the best pick but not in the
    sticky check. Take a round in which some candidate is reported alive
    and every candidate reported alive scores below the threshold. The
    round makes no switch call. Either it returns on the current
    selection, which is then a candidate of unknown liveness that scores
    at least the threshold, or it raises the exhaustion error with the
    score of an alive candidate; and it raises whenever the current
    selection is not a usable candidate at or above the threshold: a
    candidate of unknown liveness that is not the current selection is
    not tried, whatever it scores. *)
Theorem exhausted_when_alive_nodes_spent (fuel : nat) (s s1 : pool)
    (now : option pystr) (candidates : list pystr)
    (alive_map : gmap pystr (option bool)) :
  get_group E s = Ret (now, candidates, alive_map) s1 ->
  (exists a, In a candidates /\ alive_get alive_map a = Some true) ->
  (forall a, In a candidates -> alive_get alive_map a = Some true ->
     score s a < SCORE_THRESHOLD) ->
  ((exists n s',
      now = Some n
      /\ ensure_loop E (S fuel) s = Ret (Some n) s'
      /\ In n candidates
      /\ alive_get alive_map n = None
      /\ SCORE_THRESHOLD <= score s n
      /\ puts_of (log s') = puts_of (log s))
   \/ (exists best s',
         ensure_loop E (S fuel) s = Raise (PoolExhausted (score s' best)) s'
         /\ In best candidates
         /\ alive_get alive_map best = Some true
         /\ score s' best < SCORE_THRESHOLD
         /\ puts_of (log s') = puts_of (log s)))
  /\ ((forall n, now = Some n ->
         ~ In n (restrict_usable candidates alive_map)
         \/ score s n < SCORE_THRESHOLD) ->
      exists best s',
        ensure_loop E (S fuel) s = Raise (PoolExhausted (score s' best)) s'
        /\ In best candidates
        /\ alive_get alive_map best = Some true
        /\ score s' best < SCORE_THRESHOLD
        /\ puts_of (log s') = puts_of (log s)).
Proof.
  intros Hg (a & Ha & Hal) Hlow.
  assert (Hne : candidates <> []) by (intros ->; destruct Ha).
  destruct (get_group_keeps E s s1 _ Hg) as [_ Hl1].
  set (usable := restrict_usable candidates alive_map).
  set (s2 := final (setdefault_all candidates s1)).
  assert (Hsc2 : forall k, score s2 k = score s k).
  { intros k. unfold score, score_in, s2, setdefault_all.
    cbn [final dyn_penalty set_ledger]. rewrite penalty_of_setdefaults, Hl1.
    reflexivity. }
  destruct (sticky_check_returns E now usable s2) as (b & s3 & Hst & _ & _).
  destruct (round_puts_of E s s1 s3 now candidates alive_map b Hg Hst)
    as [Hputs Hgrow].
  destruct (restrict_usable_split candidates alive_map) as [[_ Hspec]|[Hall _]].
  2:{ rewrite (Hall a Ha) in Hal. discriminate. }
  assert (Hsticky : b = true ->
            exists n, now = Some n /\ In n usable /\ SCORE_THRESHOLD <= score s n
                      /\ ensure_loop E (S fuel) s = Ret (Some n) s3).
  { intros ->.
    destruct (sticky_check_true E _ _ _ _ Hst) as (n & Hn & Hin & Hsc & Hl3).
    exists n. split; [exact Hn|]. split; [exact Hin|].
    split.
    - rewrite <- Hsc2. unfold score in *. rewrite <- Hl3. exact Hsc.
    - rewrite <- Hn. apply (ensure_round_sticky E fuel s s1 s3 _ _ _ Hg Hne Hst). }
  assert (Hraise : b = false ->
            exists best s',
              ensure_loop E (S fuel) s = Raise (PoolExhausted (score s' best)) s'
              /\ In best candidates
              /\ alive_get alive_map best = Some true
              /\ score s' best < SCORE_THRESHOLD
              /\ puts_of (log s') = puts_of (log s)).
  { intros ->.
    assert (Hau : In a usable)
      by (apply Hspec; split; [exact Ha | rewrite Hal; discriminate]).
    assert (Hne' : usable <> [])
      by (intros Hnil; rewrite Hnil in Hau; destruct Hau).
    destruct (best_candidate_max (dyn_penalty s3) alive_map usable Hne')
      as (best & Hb & Hin & Hmax).
    specialize (Hmax a Hau). unfold rank_key in Hmax.
    apply key_gtb_false in Hmax as (Hr & _).
    rewrite Hal in Hr. cbn [alive_rank] in Hr.
    pose proof (alive_rank_range (alive_get alive_map best)) as Hrange.
    assert (Hbest : alive_get alive_map best = Some true)
      by (apply alive_rank_2; lia).
    assert (Hinc : In best candidates) by (apply Hspec in Hin; tauto).
    assert (Hsc : score s3 best < SCORE_THRESHOLD).
    { pose proof (Hlow best Hinc Hbest) as Hs. specialize (Hgrow best).
      unfold score, score_in in *. lra. }
    exists best, s3. split; [|repeat split; assumption].
    apply (ensure_round_exhausted E fuel s s1 s3 _ _ _ best Hg Hne Hst Hb Hsc). }
  split.
  - destruct b.
    + left. destruct (Hsticky eq_refl) as (n & Hn & Hin & Hsc & Hrun).
      exists n, s3. split; [exact Hn|]. split; [exact Hrun|].
      apply Hspec in Hin as [Hinc Hnf].
      split; [exact Hinc|]. split; [|split; [exact Hsc | exact Hputs]].
      destruct (alive_get alive_map n) as [[|]|] eqn:Hn'; [|contradiction | reflexivity].
      exfalso. pose proof (Hlow n Hinc Hn'). lra.
    + right. apply Hraise. reflexivity.
  - intros Hnot. destruct b; [|apply Hraise; reflexivity].
    exfalso. destruct (Hsticky eq_refl) as (n & Hn & Hin & Hsc & _).
    destruct (Hnot n Hn) as [H1|H1]; [contradiction | lra].
Qed.

End Liveness.

(** [exhausted_when_alive_nodes_spent] with nothing selected, where
    [node_B], reported alive, scores about 3 and [node_A], of unknown
    liveness, about 89: the first round raises the exhaustion error with
    the score of [node_B]. *)
Lemma exhausted_when_alive_nodes_spent_witness :
  exists s',
    ensure_loop env_none_B_alive 1 (new_pool 0)
    = Raise (PoolExhausted (score s' node_B)) s'
    /\ (score s' node_B < SCORE_THRESHOLD)%R
    /\ (SCORE_THRESHOLD <= score (new_pool 0) node_A)%R
    /\ puts_of (log s') = [].
Proof.
  assert (HB : (score (new_pool 0) node_B < SCORE_THRESHOLD)%R).
  { pose proof (score_node_B (new_pool 0) eq_refl). unfold SCORE_THRESHOLD. lra. }
  destruct only_B_alive_flags as (HaA & HaB & _).
  destruct (exhausted_when_alive_nodes_spent env_none_B_alive 0 (new_pool 0)
              (record_event EvGetProxies (new_pool 0)) None [node_A; node_B]
              only_B_alive)
    as [_ Hraise].
  - apply (get_group_at env_none_B_alive (new_pool 0)
             (doc_fields (group_doc None [node_A; node_B] [(node_B, true)])) _
             eq_refl parse_group_none_B_alive).
  - exists node_B. split; [right; left; reflexivity | exact HaB].
  - intros a [<-|[<-|[]]] Hal; [rewrite HaA in Hal; discriminate | exact HB].
  - destruct Hraise as (best & s' & Hrun & Hin & Hal & Hlt & Hputs);
      [intros n Hn; discriminate|].
    assert (Hbest : best = node_B).
    { destruct Hin as [<-|[<-|[]]]; [rewrite HaA in Hal; discriminate | reflexivity]. }
    subst best. exists s'. split; [exact Hrun|]. split; [exact Hlt|].
    split; [|exact Hputs].
    pose proof (score_node_A (new_pool 0) eq_refl). unfold SCORE_THRESHOLD. lra.
Defined.

(** [dead_node_not_picked] where the higher-scoring [node_A] is marked
    dead: [node_B] is picked. *)
Lemma dead_node_not_picked_witness :
  exists best,
    best_candidate ∅ {[ node_A := Some false ]}
      (restrict_usable [node_A; node_B] {[ node_A := Some false ]}) = Some best
    /\ best = node_B.
Proof.
  destruct (dead_node_not_picked ∅ {[ node_A := Some false ]} [node_A; node_B])
    as (best & Hb & Hin & Hlive & _); [discriminate|].
  exists best. split; [exact Hb|].
  assert (HaA : alive_get {[ node_A := Some false ]} node_A = Some false)
    by (vm_compute; reflexivity).
  assert (HaB : alive_get {[ node_A := Some false ]} node_B = None)
    by (vm_compute; reflexivity).
  assert (Hl : alive_get {[ node_A := Some false ]} best <> Some false).
  { apply Hlive. exists node_B. split; [right; left; reflexivity|].
    rewrite HaB. discriminate. }
  destruct Hin as [<-|[<-|[]]]; [contradiction | reflexivity].
Defined.

(* ================================================================== *)
(** * Reading the group *)
(* ================================================================== *)

Section Group.

Lemma all_strings_map (l : list pystr) : all_strings (map JStr l) = Some l.
Proof. induction l as [|x l IH]; [reflexivity|]. cbn. rewrite IH. reflexivity. Qed.

Lemma all_strings_some (items : list json) (l : list pystr) :
  all_strings items = Some l <-> items = map JStr l.
Proof.
  split; [|intros ->; apply all_strings_map].
  revert l. induction items as [|j r IH]; intros l H.
  - injection H as <-. reflexivity.
  - destruct j; try discriminate. cbn in H.
    destruct (all_strings r) as [l'|]; [|discriminate].
    injection H as <-. cbn. f_equal. apply IH. reflexivity.
Qed.

Lemma alive_map_lookup (proxies : gmap pystr json) (cands : list pystr) :
  forall (m0 : gmap pystr (option bool)) (n : pystr),
    fold_left (fun m n => <[n := alive_of proxies n]> m) cands m0 !! n
    = if in_list n cands then Some (alive_of proxies n) else m0 !! n.
Proof.
  induction cands as [|x r IH]; intros m0 n; [reflexivity|].
  cbn [fold_left]. rewrite IH. unfold in_list. cbn [existsb].
  fold (in_list n r). destruct (in_list n r); [rewrite orb_true_r; reflexivity|].
  rewrite orb_false_r. unfold str_eqb. case_bool_decide as Hd.
  - subst x. rewrite lookup_insert_eq. reflexivity.
  - rewrite lookup_insert_ne by congruence. reflexivity.
Qed.

Lemma is_sentinel_spec (n : pystr) :
  is_sentinel n = false <-> n <> py "DIRECT" /\ n <> py "REJECT".
Proof.
  unfold is_sentinel, str_eqb. rewrite orb_false_iff, !bool_decide_eq_false.
  reflexivity.
Qed.

(** X9. What [_get_group] makes of the controller's document. A missing
    [proxies] key counts as an empty object, so the error is that the
    group is not found; a [proxies] value that is no object is the format
    error. In the group, a missing [all] gives no candidates and no error;
    an [all] that is not a list of strings is the format error. Otherwise
    the candidates are [all] without DIRECT and REJECT, order and
    repetitions kept; the liveness map has exactly the candidates as keys,
    each with the node's [alive] flag when that is a JSON boolean and
    unknown otherwise; and [now] is the group's [now] when that is a
    string, whether or not it is a candidate. *)
Theorem parse_group_spec (pj : gmap pystr json) :
  (pj !! py "proxies" = None -> parse_group pj = inl GroupNotFound)
  /\ (forall v, pj !! py "proxies" = Some v -> (forall m, v <> JObj m) ->
        parse_group pj = inl MissingProxiesObject)
  /\ (forall proxies, pj !! py "proxies" = Some (JObj proxies) ->
        ((forall g, proxies !! GROUP_NAME <> Some (JObj g)) ->
         parse_group pj = inl GroupNotFound)
        /\ (forall g, proxies !! GROUP_NAME = Some (JObj g) ->
              let now := match g !! py "now" with Some (JStr n) => Some n | _ => None end in
              (g !! py "all" = None -> parse_group pj = inr (now, [], ∅))
              /\ (forall v, g !! py "all" = Some v ->
                    (forall all, v <> JArr (map JStr all)) ->
                    parse_group pj = inl BadGroupFormat)
              /\ (forall all, g !! py "all" = Some (JArr (map JStr all)) ->
                    exists alive_map,
                      parse_group pj
                      = inr (now, List.filter (fun n => negb (is_sentinel n)) all, alive_map)
                      /\ (forall n, In n all -> n <> py "DIRECT" -> n <> py "REJECT" ->
                            alive_map !! n = Some (alive_of proxies n))
                      /\ (forall n, (~ In n all \/ n = py "DIRECT" \/ n = py "REJECT") ->
                            alive_map !! n = None)))).
Proof.
  split; [|split].
  - intros Hp. unfold parse_group. rewrite Hp. unfold default, Datatypes.id.
    rewrite lookup_empty. reflexivity.
  - intros v Hp Hv. unfold parse_group. rewrite Hp. unfold default, Datatypes.id.
    destruct v; try reflexivity. exfalso. eapply Hv. reflexivity.
  - intros proxies Hp. split.
    + intros Hg. unfold parse_group. rewrite Hp. unfold default, Datatypes.id.
      destruct (proxies !! GROUP_NAME) as [[| | | | |g]|] eqn:Hgr; try reflexivity.
      exfalso. eapply Hg. reflexivity.
    + intros g Hg now. split; [|split].
      * intros Hall. unfold parse_group. rewrite Hp. unfold default, Datatypes.id.
        rewrite Hg, Hall. reflexivity.
      * intros v Hall Hv. unfold parse_group. rewrite Hp. unfold default, Datatypes.id.
        rewrite Hg, Hall. unfold default, Datatypes.id.
        destruct v as [| | | |items|]; try reflexivity.
        destruct (all_strings items) as [l|] eqn:Hs; [|reflexivity].
        exfalso. apply all_strings_some in Hs. eapply Hv. rewrite Hs. reflexivity.
      * intros all Hall. eexists. unfold parse_group. rewrite Hp. unfold default, Datatypes.id.
        rewrite Hg, Hall. unfold default, Datatypes.id. rewrite all_strings_map.
        split; [reflexivity|].
        assert (Hin : forall n,
                  in_list n (List.filter (fun n => negb (is_sentinel n)) all) = true
                  <-> In n all /\ n <> py "DIRECT" /\ n <> py "REJECT").
        { intros n. rewrite in_list_In, filter_In, negb_true_iff, is_sentinel_spec.
          reflexivity. }
        split.
        -- intros n H1 H2 H3. rewrite alive_map_lookup.
           rewrite (proj2 (Hin n)) by auto. reflexivity.
        -- intros n Hn. rewrite alive_map_lookup.
           destruct (in_list n _) eqn:Hi; [|apply lookup_empty].
           apply Hin in Hi. exfalso. tauto.
Qed.

End Group.

(* ================================================================== *)
(** * Reporting a failure *)
(* ================================================================== *)

Section Report.

Variable E : environment.
Variable cfg : settings.

Local Open Scope R_scope.

(** The kinds [classify_failure] returns. *)
Lemma classify_failure_kind (e : pystr) :
  fst (classify_failure e) = py "mail"
  \/ fst (classify_failure e) = py "risk"
  \/ fst (classify_failure e) = py "proxy"
  \/ fst (classify_failure e) = py "other".
Proof.
  unfold classify_failure. destruct (strip e) as [|c r]; [auto|].
  destruct (mail_hit _ _); [auto|].
  destruct (first_marker risk_markers _); [auto|].
  destruct (first_marker proxy_markers _); auto.
Qed.

(** The amount charged for a classified failure. *)
Lemma classified_amount (e : pystr) :
  let kind := fst (classify_failure e) in
  (kind = py "mail" /\ penalty_amount kind = 5)
  \/ (kind = py "proxy" /\ penalty_amount kind = 30)
  \/ (kind = py "risk" /\ penalty_amount kind = 60)
  \/ (kind = py "other" /\ penalty_amount kind = 60).
Proof.
  destruct penalty_amount_table as (_ & Hr & Hp & Hm & Ho & _).
  cbv zeta. destruct (classify_failure_kind e) as [H|[H|[H|H]]]; rewrite H; auto 6.
Qed.

(** X10. A failure reported by the registration loop while a node is
    selected. The error text is classified, and the selected node alone is
    charged the fixed amount of its kind: 5 for a mail failure, 30 for a
    proxy failure, 60 for a risk failure and also 60 for a failure of no
    recognised kind; never the 100 of a failed preflight. The lock is
    released before the reselection, which then ends as a call of
    [ensure_proxy_reachable] does: within [length u + 1] rounds, lock
    free. *)
Theorem report_failure_charges_selected (u : list pystr) (fuel : nat) (error : pystr)
    (s : pool) (obj : gmap pystr json) (n : pystr) (candidates : list pystr)
    (alive_map : gmap pystr (option bool)) :
  enabled cfg = true ->
  lock_held s = false ->
  env_init E (log s) = None \/ required cfg = false ->
  env_get_proxies E (EvInit :: log s) = inr (JObj obj) ->
  parse_group obj = inr (Some n, candidates, alive_map) ->
  n <> [] ->
  reports_within E u ->
  ledger_nonneg (dyn_penalty s) ->
  (length u < fuel)%nat ->
  exists s1 amount,
    report_failure E cfg fuel error s = ensure_proxy_reachable E cfg fuel s1
    /\ penalty_of (dyn_penalty s1) n = penalty_of (dyn_penalty s) n + amount
    /\ (forall k, k <> n -> penalty_of (dyn_penalty s1) k = penalty_of (dyn_penalty s) k)
    /\ (let kind := fst (classify_failure (or_str error (py "automation failed"))) in
        (kind = py "mail" /\ amount = 5)
        \/ (kind = py "proxy" /\ amount = 30)
        \/ (kind = py "risk" /\ amount = 60)
        \/ (kind = py "other" /\ amount = 60))
    /\ lock_held s1 = false
    /\ settles (report_failure E cfg fuel error s)
    /\ lock_held (final (report_failure E cfg fuel error s)) = false.
Proof.
  intros Hen Hlock Hinit Hdoc Hg Hne Hrep Hm Hfuel.
  unfold report_failure.
  pose proof (classified_amount (or_str error (py "automation failed"))) as Hamt.
  destruct (classify_failure (or_str error (py "automation failed")))
    as [kind detail] eqn:Hc.
  cbn [fst] in *.
  destruct (on_failure_selected E cfg fuel kind detail s obj n candidates alive_map
              Hen Hlock Hinit Hdoc Hg Hne)
    as (s1 & Hrun & Hpn & Hpo & Hk1 & _).
  exists s1, (penalty_amount kind).
  assert (Hm1 : ledger_nonneg (dyn_penalty s1)).
  { apply ledger_nonneg_penalty. intros k.
    pose proof (proj1 (ledger_nonneg_penalty _) Hm k) as Hk.
    destruct (decide (k = n)) as [->|Hkn].
    - rewrite Hpn. pose proof (penalty_amount_pos kind). lra.
    - rewrite (Hpo k Hkn). exact Hk. }
  destruct (reachable_settles E cfg u fuel s1 Hrep Hm1 Hk1 Hfuel) as (Hs & Hkf & _).
  rewrite Hrun. repeat split; assumption.
Qed.

End Report.

(** [report_failure_charges_selected] for a connect timeout while [node_A]
    is selected: 30 is charged. *)
Lemma report_failure_charges_selected_witness :
  exists s1,
    report_failure env_A_selected pool_on 3 (py "connect timeout") (new_pool 0)
    = ensure_proxy_reachable env_A_selected pool_on 3 s1
    /\ penalty_of (dyn_penalty s1) node_A = 30%R
    /\ settles (report_failure env_A_selected pool_on 3 (py "connect timeout")
                  (new_pool 0)).
Proof.
  destruct (report_failure_charges_selected env_A_selected pool_on [node_A; node_B] 3
              (py "connect timeout") (new_pool 0)
              (doc_fields (group_doc (Some node_A) [node_A; node_B] [(node_A, true)]))
              node_A [node_A; node_B]
              (<[node_B := None]> (<[node_A := Some true]> ∅)))
    as (s1 & amount & Hrun & Hpn & _ & Hkind & _ & Hs & _).
  - reflexivity.
  - reflexivity.
  - left. reflexivity.
  - reflexivity.
  - exact parse_group_A_selected.
  - intros H. vm_compute in H. discriminate.
  - eapply steady_reports_within; [exact parse_group_A_selected | apply incl_refl].
  - intros k v Hk. cbn [new_pool dyn_penalty] in Hk. rewrite lookup_empty in Hk.
    discriminate.
  - cbn. lia.
  - exists s1. split; [exact Hrun|]. split; [|exact Hs].
    rewrite Hpn.
    replace (fst (classify_failure (or_str (py "connect timeout") (py "automation failed"))))
      with (py "proxy") in Hkind by (vm_compute; reflexivity).
    cbv zeta in Hkind. cbn [new_pool dyn_penalty].
    unfold penalty_of at 1. rewrite lookup_empty. cbn.
    destruct Hkind as [[Hk _]|[[_ ->]|[[Hk _]|[Hk _]]]];
      try (vm_compute in Hk; discriminate).
    lra.
Defined.

(* ================================================================== *)
(** * De-duplication: the whole loop *)
(* ================================================================== *)

Section DedupLoop.

Context {yval : Type} `{YamlValue yval}.

Lemma fingerprint_insert_name (p : gmap pystr yval) (v : yval) :
  fingerprint (<[py "name" := v]> p) = fingerprint p.
Proof. unfold fingerprint. rewrite delete_insert_eq. reflexivity. Qed.

Lemma count_named_app (x : pystr) (l1 l2 : list (gmap pystr yval)) :
  count_named x (l1 ++ l2) = (count_named x l1 + count_named x l2)%nat.
Proof. unfold count_named. rewrite List.filter_app, length_app. reflexivity. Qed.

Lemma count_named_single (x : pystr) (p : gmap pystr yval) :
  count_named x [p] = if bool_decide (entry_name p = x) then 1%nat else 0%nat.
Proof. unfold count_named. cbn. destruct (bool_decide _); reflexivity. Qed.

Lemma dedup_inv_init : dedup_inv dedup_init [].
Proof.
  unfold dedup_inv, dedup_init. cbn.
  split; [reflexivity|]. split; [intros i p Hp; discriminate|].
  split; [intros x; apply lookup_empty|].
  split; [intros p Hp; inversion Hp|].
  exists []. split; [reflexivity|]. split; [constructor|].
  intros fp. rewrite elem_of_empty, elem_of_nil. reflexivity.
Qed.

(** Writing [p] under the name the loop gives it keeps the invariant. *)
Lemma dedup_inv_push (acc : dedup_acc) (kept : list (gmap pystr yval))
    (p : gmap pystr yval) (fp : pystr) (k' : nat) :
  dedup_inv acc kept ->
  entry_name p <> [] ->
  fingerprint p = Some fp ->
  fp ∉ seen_fp acc ->
  k' = count_named (entry_name p) kept ->
  dedup_inv
    {| seen_fp := {[ fp ]} ∪ seen_fp acc;
       name_seen := <[entry_name p := k']> (name_seen acc);
       out := out acc
              ++ [<[py "name" := yval_of_str (dup_name (entry_name p) k')]> p] |}
    (kept ++ [p]).
Proof.
  intros (Hlen & Hout & Hseen & Hnames & fps & Hfps & Hnd & Hset) Hne Hfp Hnew ->.
  unfold dedup_inv. cbn [out name_seen seen_fp].
  split; [rewrite !length_app, Hlen; reflexivity|].
  split; [|split; [|split]].
  - intros i q Hq.
    destruct (decide (i < length kept)%nat) as [Hi|Hi].
    + rewrite lookup_app_l in Hq by exact Hi.
      rewrite lookup_app_l by (rewrite Hlen; exact Hi).
      rewrite take_app_le by lia. apply Hout, Hq.
    + assert (Hi' : i = length kept).
      { apply lookup_lt_Some in Hq. rewrite length_app in Hq. cbn in Hq. lia. }
      subst i. rewrite list_lookup_middle in Hq by reflexivity.
      injection Hq as <-.
      rewrite list_lookup_middle by (symmetry; exact Hlen).
      rewrite take_app_length. reflexivity.
  - intros x. rewrite count_named_app, count_named_single.
    case_bool_decide as Hx.
    + subst x. rewrite lookup_insert_eq.
      replace (count_named (entry_name p) kept + 1)%nat
        with (S (count_named (entry_name p) kept)) by lia.
      reflexivity.
    + rewrite lookup_insert_ne by exact Hx. rewrite Nat.add_0_r. apply Hseen.
  - intros q Hq. apply elem_of_app in Hq as [Hq|Hq]; [apply Hnames, Hq|].
    apply list_elem_of_singleton in Hq. subst q. exact Hne.
  - exists (fps ++ [fp]). split; [|split].
    + rewrite !fmap_app, Hfps. cbn. rewrite Hfp. reflexivity.
    + apply NoDup_app. split; [exact Hnd|]. split; [|apply NoDup_singleton].
      intros y Hy Hy'. apply list_elem_of_singleton in Hy'. subst y.
      apply Hnew, Hset, Hy.
    + intros y. rewrite elem_of_union, elem_of_singleton, elem_of_app,
        list_elem_of_singleton, Hset. tauto.
Qed.

(** One round of the loop: the entry is skipped, or written. *)
Lemma dedup_step_inv (acc acc' : dedup_acc) (kept : list (gmap pystr yval))
    (p : gmap pystr yval) :
  dedup_inv acc kept ->
  dedup_step acc p = Some acc' ->
  (acc' = acc
   /\ (entry_name p = []
       \/ exists fp, fingerprint p = Some fp /\ fp ∈ seen_fp acc))
  \/ (dedup_inv acc' (kept ++ [p])
      /\ entry_name p <> []
      /\ exists fp, fingerprint p = Some fp /\ fp ∈ seen_fp acc').
Proof.
  intros Hinv Hstep. unfold dedup_step in Hstep.
  destruct (entry_name p) as [|c x] eqn:Hname.
  { injection Hstep as <-. left. auto. }
  destruct (fingerprint p) as [fp|] eqn:Hfp; [|discriminate].
  case_bool_decide as Hseen.
  { injection Hstep as <-. left. split; [reflexivity|]. right. eauto. }
  right.
  assert (Hne : entry_name p <> []) by (rewrite Hname; discriminate).
  pose proof Hinv as (_ & _ & Hcount & _).
  specialize (Hcount (c :: x)). rewrite <- Hname in Hcount, Hstep |- *.
  destruct (name_seen acc !! entry_name p) as [k|] eqn:Hk.
  - injection Hstep as <-.
    destruct (count_named (entry_name p) kept) as [|k0] eqn:Hc; [discriminate|].
    injection Hcount as ->.
    split; [|split; [exact Hne|]].
    + apply (dedup_inv_push acc kept p fp (S k0) Hinv Hne Hfp Hseen).
      symmetry. exact Hc.
    + exists fp. split; [reflexivity|]. cbn. apply elem_of_union_l, elem_of_singleton.
      reflexivity.
  - injection Hstep as <-.
    destruct (count_named (entry_name p) kept) as [|k0] eqn:Hc; [|discriminate].
    split; [|split; [exact Hne|]].
    + apply (dedup_inv_push acc kept p fp O Hinv Hne Hfp Hseen).
      symmetry. exact Hc.
    + exists fp. split; [reflexivity|]. cbn. apply elem_of_union_l, elem_of_singleton.
      reflexivity.
Qed.

Lemma dedup_step_seen_mono (acc acc' : dedup_acc) (p : gmap pystr yval) (fp : pystr) :
  dedup_step acc p = Some acc' -> fp ∈ seen_fp acc -> fp ∈ seen_fp acc'.
Proof.
  unfold dedup_step. destruct (entry_name p); [intros [= <-]; auto|].
  destruct (fingerprint p); [|discriminate].
  case_bool_decide; [intros [= <-]; auto|].
  destruct (name_seen acc !! _); intros [= <-] Hin; cbn;
    apply elem_of_union_r, Hin.
Qed.

Lemma dedup_from_seen_mono (merged : list (gmap pystr yval)) :
  forall (acc acc' : dedup_acc) (fp : pystr),
    dedup_from acc merged = Some acc' -> fp ∈ seen_fp acc -> fp ∈ seen_fp acc'.
Proof.
  induction merged as [|p rest IH]; intros acc acc' fp Hrun Hin.
  - injection Hrun as <-. exact Hin.
  - cbn [dedup_from] in Hrun.
    destruct (dedup_step acc p) as [acc1|] eqn:Hstep; [|discriminate].
    eapply IH; [exact Hrun|]. eapply dedup_step_seen_mono; eassumption.
Qed.

(** The whole loop. *)
Lemma dedup_from_inv (merged : list (gmap pystr yval)) :
  forall (acc acc' : dedup_acc) (kept : list (gmap pystr yval)),
    dedup_inv acc kept ->
    dedup_from acc merged = Some acc' ->
    exists kept',
      dedup_inv acc' (kept ++ kept')
      /\ kept' `sublist_of` merged
      /\ (forall p, p ∈ merged -> entry_name p <> [] ->
            exists fp, fingerprint p = Some fp /\ fp ∈ seen_fp acc').
Proof.
  induction merged as [|p rest IH]; intros acc acc' kept Hinv Hrun.
  - injection Hrun as <-. exists []. rewrite app_nil_r.
    split; [exact Hinv|]. split; [constructor|]. intros p Hp. inversion Hp.
  - cbn [dedup_from] in Hrun.
    destruct (dedup_step acc p) as [acc1|] eqn:Hstep; [|discriminate].
    destruct (dedup_step_inv acc acc1 kept p Hinv Hstep)
      as [[-> Hskip]|(Hinv1 & Hne & fp & Hfp & Hin1)].
    + destruct (IH acc acc' kept Hinv Hrun) as (kept' & Hinv' & Hsub & Hcov).
      exists kept'. split; [exact Hinv'|]. split; [constructor; exact Hsub|].
      intros q Hq Hqn. apply elem_of_cons in Hq as [->|Hq]; [|apply Hcov; assumption].
      destruct Hskip as [Hempty|(fp & Hfp & Hin)]; [contradiction|].
      exists fp. split; [exact Hfp|]. eapply dedup_from_seen_mono; eassumption.
    + destruct (IH acc1 acc' (kept ++ [p]) Hinv1 Hrun) as (kept' & Hinv' & Hsub & Hcov).
      exists (p :: kept'). rewrite <- app_assoc in Hinv'. cbn [app] in Hinv'.
      split; [exact Hinv'|]. split; [constructor; exact Hsub|].
      intros q Hq Hqn. apply elem_of_cons in Hq as [->|Hq]; [|apply Hcov; assumption].
      exists fp. split; [exact Hfp|]. eapply dedup_from_seen_mono; eassumption.
Qed.

(** The output against the entries kept. *)
Lemma dedup_kept (merged out_l : list (gmap pystr yval)) :
  dedup merged = Some out_l ->
  exists acc kept,
    out acc = out_l
    /\ dedup_inv acc kept
    /\ kept `sublist_of` merged
    /\ (forall p, p ∈ merged -> entry_name p <> [] ->
          exists fp, fingerprint p = Some fp /\ fp ∈ seen_fp acc).
Proof.
  unfold dedup. destruct (dedup_from dedup_init merged) as [acc|] eqn:Hrun; [|discriminate].
  cbn. intros [= <-].
  destruct (dedup_from_inv merged dedup_init acc [] dedup_inv_init Hrun)
    as (kept & Hinv & Hsub & Hcov).
  exists acc, kept. auto.
Qed.

Lemma dedup_inv_fingerprints (acc : dedup_acc) (kept : list (gmap pystr yval)) :
  dedup_inv acc kept -> fingerprint <$> out acc = fingerprint <$> kept.
Proof.
  intros (Hlen & Hout & _). apply list_eq. intros i.
  rewrite !list_lookup_fmap.
  destruct (kept !! i) as [p|] eqn:Hp.
  - rewrite (Hout i p Hp). cbn. rewrite fingerprint_insert_name. reflexivity.
  - apply lookup_ge_None in Hp. rewrite <- Hlen in Hp.
    apply lookup_ge_None in Hp. rewrite Hp. reflexivity.
Qed.

(** X11. The output of the de-duplication holds exactly one entry for
    each fingerprint found among the fetched entries that have a name: no
    two output entries share a fingerprint, every named fetched entry has
    its fingerprint in the output, and the output is no longer than the
    input. *)
Theorem dedup_one_per_fingerprint (merged out_l : list (gmap pystr yval)) :
  dedup merged = Some out_l ->
  exists fps,
    fingerprint <$> out_l = Some <$> fps
    /\ NoDup fps
    /\ (forall fp, fp ∈ fps <->
          exists p, p ∈ merged /\ entry_name p <> [] /\ fingerprint p = Some fp)
    /\ (length out_l <= length merged)%nat.
Proof.
  intros Hd. destruct (dedup_kept merged out_l Hd) as (acc & kept & <- & Hinv & Hsub & Hcov).
  pose proof (dedup_inv_fingerprints acc kept Hinv) as Hfo.
  destruct Hinv as (Hlen & _ & _ & Hnames & fps & Hfps & Hnd & Hset).
  exists fps. split; [rewrite Hfo; exact Hfps|]. split; [exact Hnd|]. split.
  - intros fp. split.
    + intros Hin. apply list_elem_of_lookup in Hin as [i Hi].
      assert (Hk : (fingerprint <$> kept) !! i = Some (Some fp))
        by (rewrite Hfps, list_lookup_fmap, Hi; reflexivity).
      rewrite list_lookup_fmap in Hk.
      destruct (kept !! i) as [p|] eqn:Hp; [|discriminate].
      cbn in Hk. injection Hk as Hk.
      assert (Hpk : p ∈ kept) by (eapply list_elem_of_lookup_2, Hp).
      exists p. split; [|split; [apply Hnames, Hpk | exact Hk]].
      eapply elem_of_sublist; eassumption.
    + intros (p & Hp & Hne & Hfp).
      destruct (Hcov p Hp Hne) as (fp' & Hfp' & Hin).
      rewrite Hfp in Hfp'. injection Hfp' as <-. apply Hset, Hin.
  - rewrite Hlen. apply sublist_length, Hsub.
Qed.

(** X12. The output keeps the order of the fetched entries and changes
    nothing but names. It is a subsequence [kept] of the input, each entry
    written with its own fields and the name field set: to its name (with
    trailing blanks removed) when no earlier kept entry has that name,
    and to that name followed by [__dup] and [k] when [k] earlier kept
    entries have it. *)
Theorem dedup_keeps_order_and_fields (merged out_l : list (gmap pystr yval)) :
  dedup merged = Some out_l ->
  exists kept,
    kept `sublist_of` merged
    /\ length out_l = length kept
    /\ forall i p, kept !! i = Some p ->
         entry_name p <> []
         /\ out_l !! i
            = Some (<[py "name" :=
                        yval_of_str (dup_name (entry_name p)
                                       (count_named (entry_name p) (take i kept)))]> p).
Proof.
  intros Hd. destruct (dedup_kept merged out_l Hd) as (acc & kept & <- & Hinv & Hsub & _).
  destruct Hinv as (Hlen & Hout & _ & Hnames & _).
  exists kept. split; [exact Hsub|]. split; [exact Hlen|].
  intros i p Hp. split; [|apply Hout, Hp].
  apply Hnames. eapply list_elem_of_lookup_2, Hp.
Qed.

Lemma dedup_from_unnamed (merged : list (gmap pystr yval)) (acc : dedup_acc) :
  (forall p, p ∈ merged -> entry_name p = []) -> dedup_from acc merged = Some acc.
Proof.
  induction merged as [|p rest IH]; intros Hall; [reflexivity|].
  cbn [dedup_from]. unfold dedup_step.
  rewrite (Hall p) by (left). apply IH. intros q Hq. apply Hall. right. exact Hq.
Qed.

Lemma dedup_from_fails (merged : list (gmap pystr yval)) :
  forall acc : dedup_acc,
    dedup_from acc merged = None
    <-> exists p, p ∈ merged /\ entry_name p <> [] /\ fingerprint p = None.
Proof.
  induction merged as [|p rest IH]; intros acc.
  - split; [discriminate|]. intros (p & Hp & _). inversion Hp.
  - cbn [dedup_from].
    destruct (dedup_step acc p) as [acc1|] eqn:Hstep.
    + rewrite IH. split.
      * intros (q & Hq & Hne & Hf). exists q. split; [right; exact Hq | auto].
      * intros (q & Hq & Hne & Hf). apply elem_of_cons in Hq as [->|Hq]; [|eauto].
        exfalso. unfold dedup_step in Hstep.
        destruct (entry_name p); [contradiction|]. rewrite Hf in Hstep. discriminate.
    + split; [|reflexivity]. intros _. exists p. split; [left|].
      unfold dedup_step in Hstep. destruct (entry_name p); [discriminate|].
      split; [discriminate|].
      destruct (fingerprint p); [|reflexivity].
      case_bool_decide; [discriminate|].
      destruct (name_seen acc !! _); discriminate.
Qed.

(** X13. The edges of the de-duplication. Entries without a name are
    dropped without a word, so the output is empty exactly when no fetched
    entry has a name, though entries were fetched; and the loop fails, with
    nothing produced, exactly when some named entry cannot be
    serialised. *)
Theorem dedup_empty_or_fails (merged : list (gmap pystr yval)) :
  (dedup merged = Some [] <-> forall p, p ∈ merged -> entry_name p = [])
  /\ (dedup merged = None <->
      exists p, p ∈ merged /\ entry_name p <> [] /\ fingerprint p = None).
Proof.
  split.
  - split.
    + intros Hd p Hp.
      destruct (dedup_kept merged [] Hd) as (acc & kept & Ho & Hinv & _ & Hcov).
      destruct (entry_name p) as [|c x] eqn:Hn; [reflexivity|]. exfalso.
      destruct (Hcov p Hp) as (fp & _ & Hin); [rewrite Hn; discriminate|].
      destruct Hinv as (Hlen & _ & _ & _ & fps & Hfps & _ & Hset).
      rewrite Ho in Hlen. destruct kept; [|discriminate].
      destruct fps; [|discriminate]. apply Hset in Hin. inversion Hin.
    + intros Hall. unfold dedup. rewrite dedup_from_unnamed by exact Hall. reflexivity.
  - unfold dedup. rewrite <- (dedup_from_fails merged dedup_init).
    destruct (dedup_from dedup_init merged); cbn; split; congruence.
Qed.

(** X14. The names written are not always distinct. When three fetched
    entries with three different fingerprints are named [x], [x] and
    [x__dup1], the second is renamed [x__dup1] and the third keeps its own
    name: two entries of the output carry the name [x__dup1]. *)
Theorem dedup_names_can_collide (p1 p2 p3 : gmap pystr yval) (x fp1 fp2 fp3 : pystr) :
  x <> [] ->
  entry_name p1 = x ->
  entry_name p2 = x ->
  entry_name p3 = x ++ py "__dup1" ->
  fingerprint p1 = Some fp1 ->
  fingerprint p2 = Some fp2 ->
  fingerprint p3 = Some fp3 ->
  fp1 <> fp2 -> fp1 <> fp3 -> fp2 <> fp3 ->
  dedup [p1; p2; p3]
  = Some [<[py "name" := yval_of_str x]> p1;
          <[py "name" := yval_of_str (x ++ py "__dup1")]> p2;
          <[py "name" := yval_of_str (x ++ py "__dup1")]> p3].
Proof.
  intros Hx H1 H2 H3 Hf1 Hf2 Hf3 H12 H13 H23.
  assert (Hx3 : x ++ py "__dup1" <> x).
  { intros Heq. apply (f_equal (@length N)) in Heq. rewrite length_app in Heq.
    assert (Hl : length (py "__dup1") = 6%nat) by (vm_compute; reflexivity).
    rewrite Hl in Heq. lia. }
  assert (Hx3' : x ++ py "__dup1" <> []) by (destruct x; discriminate).
  assert (Hd : py "__dup" ++ str_of_nat 1 = py "__dup1") by (vm_compute; reflexivity).
  unfold dedup. cbn [dedup_from].
  rewrite (dedup_first_step p1 x fp1 Hx H1 Hf1).
  unfold dedup_step at 1. rewrite H2, Hf2.
  destruct x as [|c x']; [contradiction|].
  cbn [seen_fp name_seen out].
  rewrite bool_decide_eq_false_2
    by (rewrite elem_of_union, elem_of_singleton, elem_of_empty;
        intros [?|[]]; congruence).
  rewrite lookup_insert_eq.
  unfold dedup_step. rewrite H3, Hf3. cbn [app].
  cbn [seen_fp name_seen out].
  rewrite bool_decide_eq_false_2
    by (rewrite !elem_of_union, !elem_of_singleton, elem_of_empty;
        intros [?|[?|[]]]; congruence).
  change (c :: x' ++ py "__dup1") with ((c :: x') ++ py "__dup1").
  rewrite lookup_insert_ne by congruence.
  rewrite lookup_insert_ne by congruence.
  rewrite lookup_empty, Hd. reflexivity.
Qed.

End DedupLoop.

(** [dedup_one_per_fingerprint] on "X" fetched twice and once more on
    another port: two fingerprints, two entries. *)
Lemma dedup_one_per_fingerprint_witness :
  exists fps,
    fingerprint <$> default [] (dedup [entry_X; entry_X; entry_X_other]) = Some <$> fps
    /\ NoDup fps
    /\ length fps = 2%nat.
Proof.
  destruct (dedup_one_per_fingerprint [entry_X; entry_X; entry_X_other]
              (default [] (dedup [entry_X; entry_X; entry_X_other])))
    as (fps & Hf & Hnd & _ & _); [vm_compute; reflexivity|].
  exists fps. split; [exact Hf|]. split; [exact Hnd|].
  apply (f_equal length) in Hf. rewrite !length_fmap in Hf. rewrite <- Hf.
  vm_compute. reflexivity.
Defined.

(** [dedup_keeps_order_and_fields] on the same input: the second copy is
    the one left out. *)
Lemma dedup_keeps_order_and_fields_witness :
  exists kept,
    kept `sublist_of` [entry_X; entry_X; entry_X_other]
    /\ length kept = 2%nat.
Proof.
  destruct (dedup_keeps_order_and_fields [entry_X; entry_X; entry_X_other]
              (default [] (dedup [entry_X; entry_X; entry_X_other])))
    as (kept & Hsub & Hlen & _); [vm_compute; reflexivity|].
  exists kept. split; [exact Hsub|]. rewrite <- Hlen. vm_compute. reflexivity.
Defined.

(** [dedup_names_can_collide] on "X", "X" on another port, and "X__dup1". *)
Lemma dedup_names_can_collide_witness :
  names_of <$> dedup [entry_X; entry_X_other; entry_X_dup1]
  = Some [Some (py "X"); Some (py "X__dup1"); Some (py "X__dup1")].
Proof.
  rewrite (dedup_names_can_collide entry_X entry_X_other entry_X_dup1 (py "X")
             (default [] (fingerprint entry_X))
             (default [] (fingerprint entry_X_other))
             (default [] (fingerprint entry_X_dup1))).
  - vm_compute. reflexivity.
  - vm_compute. discriminate.
  - vm_compute. reflexivity.
  - vm_compute. reflexivity.
  - vm_compute. reflexivity.
  - vm_compute. reflexivity.
  - vm_compute. reflexivity.
  - vm_compute. reflexivity.
  - vm_compute. discriminate.
  - vm_compute. discriminate.
  - vm_compute. discriminate.
Defined.

(* ================================================================== *)
(** * Configuration and the provider fetch *)
(* ================================================================== *)

(** X15. Whatever the configured source index, the sources
    [fetch_provider] asks for lie between 1 and 6: a pool built by
    [from_config] merges all six when the index is missing, zero or out of
    the range 0..6, and asks for the one configured source otherwise. *)
Theorem configured_sources_in_range (enabled_attr required_attr : option bool)
    (ip_attr : option Z) :
  let ips := provider_ips (from_config enabled_attr required_attr ip_attr) in
  ips <> []
  /\ NoDup ips
  /\ (forall ip, In ip ips -> (1 <= ip <= 6)%Z)
  /\ (forall v, ip_attr = Some v -> (1 <= v <= 6)%Z -> ips = [v])
  /\ ((ip_attr = None \/ exists v, ip_attr = Some v /\ (v <= 0 \/ 6 < v)%Z) ->
      ips = [1; 2; 3; 4; 5; 6]%Z).
Proof.
  cbv zeta. unfold provider_ips, from_config. cbn [chromego_ip].
  set (ip := default 0%Z ip_attr).
  assert (Hall : NoDup [1; 2; 3; 4; 5; 6]%Z).
  { repeat (apply NoDup_cons; split;
            [rewrite ?elem_of_cons, elem_of_nil; intros Hx; intuition lia|]).
    apply NoDup_nil. exact I. }
  destruct (Z.ltb_spec ip 0) as [Hlo|Hlo]; cbn [orb].
  - cbn [Z.eqb]. split; [discriminate|]. split; [exact Hall|].
    split; [cbn; intros x Hx; intuition lia|].
    split; [|reflexivity].
    intros v -> Hv. unfold ip in Hlo. cbn in Hlo. lia.
  - destruct (Z.ltb_spec 6 ip) as [Hhi|Hhi].
    + cbn [Z.eqb]. split; [discriminate|]. split; [exact Hall|].
      split; [cbn; intros x Hx; intuition lia|].
      split; [|reflexivity].
      intros v -> Hv. unfold ip in Hhi. cbn in Hhi. lia.
    + destruct (Z.eqb_spec ip 0) as [Hz|Hz].
      * split; [discriminate|]. split; [exact Hall|].
        split; [cbn; intros x Hx; intuition lia|].
        split; [|reflexivity].
        intros v -> Hv. unfold ip in Hz. cbn in Hz. lia.
      * split; [discriminate|]. split; [apply NoDup_singleton|].
        split; [intros x [<-|[]]; lia|].
        split.
        -- intros v -> _. reflexivity.
        -- intros [->|(v & -> & Hv)]; unfold ip in *; cbn in *; lia.
Qed.

Section ProviderFetchFacts.

Context {yval : Type} `{YamlValue yval} `{YamlShape yval}.

(** The loop over the sources, from any point. *)
Lemma fetch_sources_ok (pe : provider_env) (ips : list Z) :
  forall merged : list (gmap pystr yval),
    (forall ip, In ip ips -> exists d, pe_fetch pe ip = inr d) ->
    fetch_sources pe ips merged
    = (ips, inr (merged ++ flat_map (source_entries pe) ips)).
Proof.
  induction ips as [|ip rest IH]; intros merged Hall.
  - cbn. rewrite app_nil_r. reflexivity.
  - cbn [fetch_sources flat_map]. unfold source_entries at 1.
    destruct (Hall ip (or_introl eq_refl)) as [d Hd]. rewrite Hd.
    rewrite IH by (intros j Hj; apply Hall; right; exact Hj).
    rewrite <- app_assoc. reflexivity.
Qed.

Lemma fetch_sources_fails (pe : provider_env) (done : list Z) (ip : Z)
    (rest : list Z) (e : pystr) :
  forall merged : list (gmap pystr yval),
    (forall j, In j done -> exists d, pe_fetch pe j = inr d) ->
    pe_fetch pe ip = inl e ->
    fetch_sources pe (done ++ ip :: rest) merged = (done ++ [ip], inl e).
Proof.
  induction done as [|j done IH]; intros merged Hdone Hip.
  - cbn. rewrite Hip. reflexivity.
  - cbn [app fetch_sources].
    destruct (Hdone j (or_introl eq_refl)) as [d Hd]. rewrite Hd.
    rewrite IH; [reflexivity | | exact Hip].
    intros k Hk. apply Hdone. right. exact Hk.
Qed.

(** X16. The ways [fetch_provider] ends. A provider file younger than
    six hours ends it at once: no source is fetched. Otherwise the sources
    are fetched in order, and the first one that fails ends the fetch:
    no later source is asked, and whatever the earlier ones delivered is
    discarded; the call then returns, leaving the existing file, when one
    exists, and raises that source's exception when none does. When every
    source delivers, their entries are merged in source order: without
    any entry the call raises; otherwise the de-duplicated list is what is
    written. *)
Theorem fetch_provider_spec (cfg : settings) (pe : provider_env) :
  (forall e, pe_ensure_dirs pe = Some e ->
     fetch_provider cfg pe = ([], ProviderRaised (ProviderError e)))
  /\ (pe_ensure_dirs pe = None ->
      (forall age, pe_cache pe = Some (Some age) ->
         (0 <= age < PROVIDER_REFRESH_MIN_SECONDS)%R ->
         fetch_provider cfg pe = ([], CacheHit))
      /\ (cache_is_fresh pe = false ->
          (forall done ip rest e,
             provider_ips cfg = done ++ ip :: rest ->
             (forall j, In j done -> exists d, pe_fetch pe j = inr d) ->
             pe_fetch pe ip = inl e ->
             fetch_provider cfg pe
             = (done ++ [ip],
                if pe_cached_after pe then KeptCache e
                else ProviderRaised (ProviderError e)))
          /\ ((forall ip, In ip (provider_ips cfg) -> exists d, pe_fetch pe ip = inr d) ->
              let merged := flat_map (source_entries pe) (provider_ips cfg) in
              (merged = [] ->
               fetch_provider cfg pe
               = (provider_ips cfg, ProviderRaised NoProxiesFetched))
              /\ (merged <> [] ->
                  fetch_provider cfg pe
                  = (provider_ips cfg,
                     match dedup merged with
                     | None => ProviderRaised DumpsError
                     | Some entries =>
                       match pe_write pe entries with
                       | Some e => ProviderRaised (ProviderError e)
                       | None => Written entries
                       end
                     end))))).
Proof.
  split.
  - intros e He. unfold fetch_provider. rewrite He. reflexivity.
  - intros Hdirs. split; [|intros Hstale; split].
    + intros age Hage [Hlo Hhi]. unfold fetch_provider, cache_is_fresh.
      rewrite Hdirs, Hage, Rgeb_true, Rltb_true by lra. reflexivity.
    + intros done ip rest e Hips Hdone Hip. unfold fetch_provider.
      rewrite Hdirs, Hstale, Hips.
      rewrite (fetch_sources_fails pe done ip rest e [] Hdone Hip). reflexivity.
    + intros Hall merged. unfold fetch_provider. rewrite Hdirs, Hstale.
      rewrite (fetch_sources_ok pe (provider_ips cfg) [] Hall). cbn [app].
      fold merged. split.
      * intros ->. reflexivity.
      * intros Hne. destruct merged as [|p l]; [contradiction | reflexivity].
Qed.

End ProviderFetchFacts.

(* ================================================================== *)
(** * The registration loop *)
(* ================================================================== *)

Section Headroom.

Local Open Scope R_scope.

Lemma up_le (x y : R) : x <= y -> (up x <= up y)%Z.
Proof.
  intros Hxy. destruct (archimed x) as [_ Hx], (archimed y) as [Hy _].
  assert (Hlt : IZR (up x) < IZR (up y + 1)) by (rewrite plus_IZR; lra).
  apply lt_IZR in Hlt. lia.
Qed.

Lemma up_drop (x y : R) : x + 1 <= y -> (up x < up y)%Z.
Proof.
  intros Hxy. destruct (archimed x) as [_ Hx], (archimed y) as [Hy _].
  apply lt_IZR. lra.
Qed.

Lemma up_pos (x : R) : 0 <= x -> (0 < up x)%Z.
Proof. intros Hx. destruct (archimed x) as [Hu _]. apply lt_IZR. lra. Qed.

Lemma penalty_amount_ge (kind : pystr) : PENALTY_MAIL <= penalty_amount kind.
Proof.
  unfold penalty_amount, PENALTY_PREFLIGHT, PENALTY_RISK, PENALTY_PROXY, PENALTY_MAIL.
  repeat match goal with |- context [str_eqb ?a ?b] => destruct (str_eqb a b) end; lra.
Qed.

Lemma headroom_mono (m m' : gmap pystr R) (n : pystr) :
  penalty_of m n <= penalty_of m' n -> (headroom m' n <= headroom m n)%nat.
Proof.
  intros Hp. unfold headroom.
  destruct (Rgeb (score_in m' n) SCORE_THRESHOLD) eqn:H1; [|lia].
  apply Rgeb_iff in H1.
  rewrite Rgeb_true by (unfold score_in in *; lra).
  apply Z2Nat.inj_le.
  - pose proof (up_pos ((score_in m' n - SCORE_THRESHOLD) / PENALTY_MAIL)) as Hu.
    unfold PENALTY_MAIL in *. lapply Hu; [lia|].
    apply Rmult_le_pos; lra.
  - pose proof (up_pos ((score_in m n - SCORE_THRESHOLD) / PENALTY_MAIL)) as Hu.
    unfold PENALTY_MAIL, score_in in *. lapply Hu; [lia|].
    apply Rmult_le_pos; lra.
  - apply up_le. unfold PENALTY_MAIL, score_in in *. lra.
Qed.

Lemma headroom_drop (m m' : gmap pystr R) (n : pystr) :
  SCORE_THRESHOLD <= score_in m n ->
  penalty_of m n + PENALTY_MAIL <= penalty_of m' n ->
  (headroom m' n < headroom m n)%nat.
Proof.
  intros Hge Hp. unfold headroom. rewrite (Rgeb_true _ _ Hge).
  pose proof (up_pos ((score_in m n - SCORE_THRESHOLD) / PENALTY_MAIL)) as Hu.
  lapply Hu; [clear Hu; intros Hu | unfold PENALTY_MAIL; apply Rmult_le_pos; lra].
  destruct (Rgeb (score_in m' n) SCORE_THRESHOLD) eqn:H1; [|lia].
  apply Rgeb_iff in H1.
  pose proof (up_pos ((score_in m' n - SCORE_THRESHOLD) / PENALTY_MAIL)) as Hu'.
  lapply Hu'; [clear Hu'; intros Hu' | unfold PENALTY_MAIL; apply Rmult_le_pos; lra].
  apply Z2Nat.inj_lt; [lia | lia |].
  apply up_drop. unfold PENALTY_MAIL, score_in in *. lra.
Qed.

Lemma headroom_bound (m : gmap pystr R) (n : pystr) :
  ledger_nonneg m -> (headroom m n <= 18)%nat.
Proof.
  intros Hm. unfold headroom.
  destruct (Rgeb (score_in m n) SCORE_THRESHOLD) eqn:H1; [|lia].
  apply Rgeb_iff in H1.
  pose proof (proj1 (ledger_nonneg_penalty m) Hm n) as Hp.
  pose proof (base_score_range n) as Hb.
  destruct (archimed ((score_in m n - SCORE_THRESHOLD) / PENALTY_MAIL)) as [_ Hu].
  assert (Hlt : IZR (up ((score_in m n - SCORE_THRESHOLD) / PENALTY_MAIL)) < IZR 19).
  { unfold PENALTY_MAIL, SCORE_THRESHOLD, score_in in *. lra. }
  apply lt_IZR in Hlt. lia.
Qed.

Lemma total_headroom_mono (m m' : gmap pystr R) (u : list pystr) :
  (forall k, In k u -> penalty_of m k <= penalty_of m' k) ->
  (total_headroom m' u <= total_headroom m u)%nat.
Proof.
  unfold total_headroom. induction u as [|x u IH]; intros H; [reflexivity|].
  cbn [map list_sum fold_right].
  pose proof (headroom_mono m m' x (H x (or_introl eq_refl))).
  specialize (IH (fun k Hk => H k (or_intror Hk))). unfold list_sum in IH. lia.
Qed.

Lemma total_headroom_drop (m m' : gmap pystr R) (u : list pystr) (n : pystr) :
  (forall k, In k u -> penalty_of m k <= penalty_of m' k) ->
  In n u ->
  SCORE_THRESHOLD <= score_in m n ->
  penalty_of m n + PENALTY_MAIL <= penalty_of m' n ->
  (total_headroom m' u < total_headroom m u)%nat.
Proof.
  intros H Hin Hge Hp. unfold total_headroom.
  induction u as [|x u IH]; [destruct Hin|].
  cbn [map list_sum fold_right].
  pose proof (total_headroom_mono m m' u (fun k Hk => H k (or_intror Hk))) as Hmono.
  unfold total_headroom, list_sum in Hmono.
  pose proof (headroom_mono m m' x (H x (or_introl eq_refl))) as Hx.
  destruct Hin as [->|Hin].
  - pose proof (headroom_drop m m' n Hge Hp). lia.
  - specialize (IH (fun k Hk => H k (or_intror Hk)) Hin). unfold list_sum in IH. lia.
Qed.

Lemma total_headroom_bound (m : gmap pystr R) (u : list pystr) :
  ledger_nonneg m -> (total_headroom m u <= 18 * length u)%nat.
Proof.
  intros Hm. unfold total_headroom. induction u as [|x u IH]; [cbn; lia|].
  cbn [map list_sum fold_right length]. pose proof (headroom_bound m x Hm).
  unfold list_sum in IH. lia.
Qed.

End Headroom.

Section Following.

Variable E : environment.
Variable cfg : settings.
Variable now0 : option pystr.
Variable u : list pystr.
Variable t0 : R.

Hypothesis Hfollow : controller_follows E now0 u.
Hypothesis Hclock : clock_within E t0.

Local Open Scope R_scope.

Lemma reported_now_probe_hist (urls : list pystr) (i : nat) (h : list event) :
  reported_now E now0 (probe_hist urls i h) = reported_now E now0 h.
Proof.
  unfold probe_hist. revert i h. induction urls as [|x rest IH]; intros i h.
  - rewrite take_nil. reflexivity.
  - destruct i as [|i]; [reflexivity|].
    cbn [take map rev]. rewrite <- app_assoc. cbn [app].
    rewrite IH. reflexivity.
Qed.

Lemma follows_within : reports_within E u.
Proof.
  intros l obj now cands am He Hp. exact (proj2 (Hfollow l obj now cands am He Hp)).
Qed.

(** Without an idle period behind it, [_maybe_refresh_dynamic] only
    reads the clock. *)
Lemma maybe_refresh_quiet (s : pool) :
  t0 <= last_switch_ts s ->
  maybe_refresh_dynamic E s = Ret tt (record_event EvClock s).
Proof.
  intros Hts. unfold maybe_refresh_dynamic.
  rewrite Rltb_true; [reflexivity|].
  destruct (Hclock (log s)) as [_ Hhi]. lra.
Qed.

Lemma preflight_quiet (s : pool) :
  exists ok ds s',
    preflight E s = Ret (ok, ds) s'
    /\ dyn_penalty s' = dyn_penalty s
    /\ last_switch_ts s' = last_switch_ts s
    /\ lock_held s' = lock_held s
    /\ reported_now E now0 (log s') = reported_now E now0 (log s).
Proof.
  destruct (preflight_from_spec E PREFLIGHT_URLS [] s)
    as (ok & ds & s' & Hrun & Hl & Ht & Hk & Hok & Hfail).
  exists ok, ds, s'. repeat split; try assumption.
  destruct ok.
  - destruct (Hok eq_refl) as (_ & -> & _). apply reported_now_probe_hist.
  - destruct (Hfail eq_refl) as (i & x & _ & _ & _ & -> & _).
    apply reported_now_probe_hist.
Qed.

(** What a step of the loop keeps. *)
Lemma sticky_check_follow (now : option pystr) (candidates : list pystr) (s : pool) :
  ledger_nonneg (dyn_penalty s) ->
  exists b s',
    sticky_check E now candidates s = Ret b s'
    /\ lock_held s' = lock_held s
    /\ last_switch_ts s' = last_switch_ts s
    /\ ledger_nonneg (dyn_penalty s')
    /\ (forall k, penalty_of (dyn_penalty s) k <= penalty_of (dyn_penalty s') k)
    /\ reported_now E now0 (log s') = reported_now E now0 (log s)
    /\ (b = true ->
        exists n, now = Some n /\ In n candidates /\ SCORE_THRESHOLD <= score s' n).
Proof.
  intros Hm. unfold sticky_check. destruct now as [n|].
  2:{ exists false, s. repeat split; [exact Hm | intros k; lra | discriminate]. }
  destruct (truthy (Some n) && in_list n candidates
            && Rgeb (score s n) SCORE_THRESHOLD) eqn:Hc.
  2:{ exists false, s. repeat split; [exact Hm | intros k; lra | discriminate]. }
  apply andb_true_iff in Hc as [Hc Hge]. apply andb_true_iff in Hc as [_ Hin].
  apply Rgeb_iff in Hge. apply in_list_In in Hin.
  destruct (preflight_quiet s) as (ok & ds & s1 & Hpre & Hl & Ht & Hk & Hrn).
  unfold bind at 1. rewrite Hpre. cbn [fst snd]. destruct ok.
  - exists true, s1. unfold ret. rewrite Hl.
    repeat split; try assumption; [intros k; lra|].
    intros _. exists n. repeat split; [exact Hin|]. unfold score in *. rewrite Hl. exact Hge.
  - assert (Hm1 : ledger_nonneg (dyn_penalty s1)) by (rewrite Hl; exact Hm).
    destruct (apply_preflight_penalty n (hd [] ds) s1 Hm1)
      as (s2 & Hap & Hk2 & Hm2 & Hgrow & _).
    exists false, s2. unfold bind, ret. rewrite Hap.
    unfold apply_penalty in Hap. injection Hap as <-.
    cbn [set_ledger lock_held last_switch_ts log dyn_penalty] in *.
    repeat split; try assumption; try discriminate.
    intros k. rewrite <- Hl. apply Hgrow.
Qed.

Lemma switch_and_probe_follow (now : option pystr) (candidates : list pystr)
    (alive_map : gmap pystr (option bool)) (s : pool) :
  ledger_nonneg (dyn_penalty s) ->
  incl candidates u ->
  t0 <= last_switch_ts s ->
  now = reported_now E now0 (log s) ->
  forall r s',
    switch_and_probe E now candidates alive_map s = Ret r s' ->
    lock_held s' = lock_held s
    /\ t0 <= last_switch_ts s'
    /\ ledger_nonneg (dyn_penalty s')
    /\ (forall k, penalty_of (dyn_penalty s) k <= penalty_of (dyn_penalty s') k)
    /\ (forall held, r = Some held ->
          exists n, held = Some n
                    /\ reported_now E now0 (log s') = Some n
                    /\ In n u
                    /\ SCORE_THRESHOLD <= score s' n).
Proof.
  intros Hm Hincl Hts Hnow r s' Hrun. unfold switch_and_probe in Hrun.
  destruct (best_candidate (dyn_penalty s) alive_map candidates) as [best|] eqn:Hb;
    [|discriminate].
  unfold Rltb in Hrun. destruct (Rlt_dec (score s best) SCORE_THRESHOLD) as [Hlt|Hge];
    [discriminate|].
  assert (Hge' : SCORE_THRESHOLD <= score_in (dyn_penalty s) best)
    by (unfold score in Hge; lra).
  pose proof (score_ge_truthy _ _ Hm Hge') as Htr.
  pose proof (Hincl _ (best_candidate_in _ _ _ _ Hb)) as Hin.
  apply bind_ret_inv in Hrun as (now' & s1 & Hsw & Hrun).
  assert (Hs1 : now' = Some best
                /\ dyn_penalty s1 = dyn_penalty s
                /\ lock_held s1 = lock_held s
                /\ t0 <= last_switch_ts s1
                /\ reported_now E now0 (log s1) = Some best).
  { destruct (bool_decide (Some best = now)) eqn:Hd.
    - apply bool_decide_eq_true in Hd. injection Hsw as <- <-.
      repeat split; try assumption; congruence.
    - apply bind_ret_inv in Hsw as ([] & s2 & Hsel & Hsw).
      apply bind_ret_inv in Hsw as ([] & s3 & Htouch & Hsw).
      injection Hsw as <- <-.
      unfold select_group in Hsel.
      destruct (env_put E (log s) best) eqn:Hput; [discriminate|].
      injection Hsel as <-.
      unfold touch_switch_ts in Htouch. injection Htouch as <-.
      cbn [dyn_penalty lock_held last_switch_ts log set_switch_ts record_event
           reported_now].
      rewrite Hput. repeat split. apply Hclock. }
  destruct Hs1 as (-> & Hl1 & Hk1 & Hts1 & Hrn1).
  destruct (preflight_quiet s1) as (ok & ds & s2 & Hpre & Hl2 & Ht2 & Hk2 & Hrn2).
  apply bind_ret_inv in Hrun as ([ok' ds'] & s2' & Hpre' & Hrun).
  rewrite Hpre in Hpre'. injection Hpre' as <- <- <-.
  cbn [fst snd] in Hrun. destruct ok.
  - injection Hrun as <- <-.
    split; [congruence|]. split; [rewrite Ht2; exact Hts1|].
    split; [rewrite Hl2, Hl1; exact Hm|].
    split; [intros k; rewrite Hl2, Hl1; lra|].
    intros held [= <-]. exists best. split; [reflexivity|].
    split; [rewrite Hrn2; exact Hrn1|]. split; [exact Hin|].
    unfold score. rewrite Hl2, Hl1. exact Hge'.
  - rewrite Htr in Hrun.
    assert (Hm2 : ledger_nonneg (dyn_penalty s2)) by (rewrite Hl2, Hl1; exact Hm).
    destruct (apply_preflight_penalty best (hd [] ds) s2 Hm2)
      as (s3 & Hap & Hk3 & Hm3 & Hgrow & _).
    apply bind_ret_inv in Hrun as ([] & s3' & Hap' & Hrun).
    rewrite Hap in Hap'. injection Hap' as <-. injection Hrun as <- <-.
    unfold apply_penalty in Hap. injection Hap as <-.
    cbn [set_ledger lock_held last_switch_ts log dyn_penalty] in *.
    split; [congruence|]. split; [rewrite Ht2; exact Hts1|].
    split; [exact Hm3|].
    split; [intros k; rewrite <- Hl1, <- Hl2; apply Hgrow|].
    intros held [=].
Qed.

Lemma ensure_loop_follow (fuel : nat) :
  forall (s s' : pool) (held : option pystr),
    ledger_nonneg (dyn_penalty s) ->
    t0 <= last_switch_ts s ->
    ensure_loop E fuel s = Ret held s' ->
    lock_held s' = lock_held s
    /\ t0 <= last_switch_ts s'
    /\ ledger_nonneg (dyn_penalty s')
    /\ (forall k, penalty_of (dyn_penalty s) k <= penalty_of (dyn_penalty s') k)
    /\ exists n, held = Some n
                 /\ reported_now E now0 (log s') = Some n
                 /\ In n u
                 /\ SCORE_THRESHOLD <= score s' n.
Proof.
  induction fuel as [|fuel IH]; intros s s' held Hm Hts H; [discriminate|].
  cbn [ensure_loop] in H.
  apply bind_ret_inv in H as ([[now candidates] alive_map] & s1 & Hg & H).
  pose proof (get_group_cases E s) as Hgc. rewrite Hg in Hgc.
  destruct Hgc as (Hl1 & Hk1 & obj & Henv & Hparse).
  destruct (Hfollow _ _ _ _ _ Henv Hparse) as [Hnow Hincl].
  assert (Hlog1 : reported_now E now0 (log s1) = reported_now E now0 (log s)).
  { unfold get_group in Hg. apply bind_ret_inv in Hg as (pj & sg & Hgp & Hg).
    unfold get_proxies in Hgp.
    destruct (env_get_proxies E (log s)) as [e|[| | | | |o]]; try discriminate.
    injection Hgp as <- <-.
    destruct (parse_group o); [discriminate|]. injection Hg as _ <-. reflexivity. }
  assert (Hts1 : last_switch_ts s1 = last_switch_ts s).
  { unfold get_group in Hg. apply bind_ret_inv in Hg as (pj & sg & Hgp & Hg).
    unfold get_proxies in Hgp.
    destruct (env_get_proxies E (log s)) as [e|[| | | | |o]]; try discriminate.
    injection Hgp as <- <-.
    destruct (parse_group o); [discriminate|]. injection Hg as _ <-. reflexivity. }
  destruct candidates as [|c cs]; [discriminate|].
  apply bind_ret_inv in H as ([] & s2 & Hsd & H).
  unfold setdefault_all in Hsd. injection Hsd as <-.
  set (s2 := set_ledger _ s1) in *.
  assert (Hp2 : forall k, penalty_of (dyn_penalty s2) k = penalty_of (dyn_penalty s) k).
  { intros k. unfold s2. cbn [set_ledger dyn_penalty].
    rewrite penalty_of_setdefaults, penalty_of_setdefault, Hl1. reflexivity. }
  assert (Hm2 : ledger_nonneg (dyn_penalty s2)).
  { apply ledger_nonneg_penalty. intros k. rewrite Hp2.
    apply ledger_nonneg_penalty. exact Hm. }
  destruct (sticky_check_follow now (restrict_usable (c :: cs) alive_map) s2 Hm2)
    as (b & s3 & Hst & Hk3 & Ht3 & Hm3 & Hgrow3 & Hrn3 & Htrue).
  apply bind_ret_inv in H as (stuck & s3' & Hst' & H).
  rewrite Hst in Hst'. injection Hst' as <- <-.
  assert (Hincl' : incl (restrict_usable (c :: cs) alive_map) u).
  { intros k Hk. apply Hincl. eapply restrict_usable_incl. exact Hk. }
  destruct b.
  - injection H as <- <-.
    destruct (Htrue eq_refl) as (n & -> & Hin & Hsc).
    split; [rewrite Hk3; exact Hk1|].
    split; [rewrite Ht3; unfold s2; cbn [set_ledger last_switch_ts]; rewrite Hts1;
            exact Hts|].
    split; [exact Hm3|].
    split; [intros k; rewrite <- Hp2; apply Hgrow3|].
    exists n. split; [reflexivity|].
    split; [rewrite Hrn3; unfold s2; cbn [set_ledger log]; rewrite Hlog1;
            symmetry; exact Hnow|].
    split; [apply Hincl', Hin | exact Hsc].
  - apply bind_ret_inv in H as (r & s4 & Hsw & H).
    assert (Hts3 : t0 <= last_switch_ts s3).
    { rewrite Ht3. unfold s2. cbn [set_ledger last_switch_ts]. rewrite Hts1. exact Hts. }
    assert (Hnow3 : now = reported_now E now0 (log s3)).
    { rewrite Hrn3. unfold s2. cbn [set_ledger log]. rewrite Hlog1. exact Hnow. }
    destruct (switch_and_probe_follow now _ alive_map s3 Hm3 Hincl' Hts3 Hnow3 r s4 Hsw)
      as (Hk4 & Hts4 & Hm4 & Hgrow4 & Hheld).
    assert (Hgrow : forall k, penalty_of (dyn_penalty s) k <= penalty_of (dyn_penalty s4) k).
    { intros k. specialize (Hgrow3 k). specialize (Hgrow4 k). rewrite Hp2 in Hgrow3. lra. }
    destruct r as [held'|].
    + injection H as <- <-.
      split; [rewrite Hk4, Hk3; exact Hk1|]. split; [exact Hts4|].
      split; [exact Hm4|]. split; [exact Hgrow|].
      apply Hheld. reflexivity.
    + destruct (IH s4 s' held Hm4 Hts4 H) as (Hk5 & Hts5 & Hm5 & Hgrow5 & Hn).
      split; [rewrite Hk5, Hk4, Hk3; exact Hk1|]. split; [exact Hts5|].
      split; [exact Hm5|].
      split; [intros k; specialize (Hgrow k); specialize (Hgrow5 k); lra|].
      exact Hn.
Qed.

(** [ensure_proxy_reachable], when it returns: the controller holds a
    node of [u] that scores at least the threshold, no penalty has gone
    down, and the pool is as ready as before. *)
Lemma ensure_proxy_reachable_follow (fuel : nat) (s s' : pool) :
  enabled cfg = true ->
  ledger_nonneg (dyn_penalty s) ->
  t0 <= last_switch_ts s ->
  ensure_proxy_reachable E cfg fuel s = Ret tt s' ->
  lock_held s' = false
  /\ t0 <= last_switch_ts s'
  /\ ledger_nonneg (dyn_penalty s')
  /\ (forall k, penalty_of (dyn_penalty s) k <= penalty_of (dyn_penalty s') k)
  /\ exists n, reported_now E now0 (log s') = Some n
               /\ n <> []
               /\ In n u
               /\ SCORE_THRESHOLD <= score s' n.
Proof.
  intros Hen Hm Hts H. unfold ensure_proxy_reachable in H. rewrite Hen in H.
  cbn [negb] in H.
  apply bind_ret_inv in H as ([] & s1 & Hst & H).
  assert (Hs1 : dyn_penalty s1 = dyn_penalty s /\ last_switch_ts s1 = last_switch_ts s).
  { unfold ensure_started, with_lock in Hst. rewrite Hen in Hst. cbn [negb] in Hst.
    destruct (lock_held s); [discriminate|].
    cbn [log set_lock] in Hst.
    destruct (env_init E (log s)); [destruct (required cfg); [discriminate|]|];
      injection Hst as <-; split; reflexivity. }
  destruct Hs1 as [Hl1 Ht1].
  unfold with_lock in H. destruct (lock_held s1); [discriminate|].
  destruct ((maybe_refresh_dynamic E ;; _ <- ensure_loop E fuel ;; ret tt)%pool
              (set_lock true s1)) as [[] s2|e s2|s2|s2] eqn:Hbody; try discriminate.
  injection H as <-.
  apply bind_ret_inv in Hbody as ([] & s3 & Hrf & Hbody).
  rewrite maybe_refresh_quiet in Hrf
    by (cbn [set_lock last_switch_ts]; rewrite Ht1; exact Hts).
  injection Hrf as <-.
  apply bind_ret_inv in Hbody as (held & s4 & Hloop & Hbody).
  injection Hbody as <-.
  apply ensure_loop_follow in Hloop as (Hk & Hts' & Hm' & Hgrow & n & -> & Hrn & Hin & Hsc).
  - cbn [set_lock lock_held last_switch_ts dyn_penalty log record_event] in *.
    split; [reflexivity|]. split; [exact Hts'|]. split; [exact Hm'|].
    split; [intros k; rewrite <- Hl1; apply Hgrow|].
    exists n. split; [exact Hrn|]. split; [|split; [exact Hin | exact Hsc]].
    pose proof (score_ge_truthy _ _ Hm' Hsc) as Htr.
    intros ->. discriminate.
  - cbn [set_lock record_event dyn_penalty]. rewrite Hl1. exact Hm.
  - cbn [set_lock record_event last_switch_ts]. rewrite Ht1. exact Hts.
Qed.

Lemma on_failure_from_group (fuel : nat) (kind detail : pystr) (s : pool) (n : pystr) :
  enabled cfg = true ->
  lock_held s = false ->
  reported_now E now0 (log s) = Some n ->
  n <> [] ->
  env_init E (log s) = None \/ required cfg = false ->
  (exists e s', on_failure E cfg fuel kind detail s = Raise e s' /\ lock_held s' = false)
  \/ (exists s1,
        on_failure E cfg fuel kind detail s = ensure_proxy_reachable E cfg fuel s1
        /\ lock_held s1 = false
        /\ last_switch_ts s1 = last_switch_ts s
        /\ penalty_of (dyn_penalty s1) n = penalty_of (dyn_penalty s) n + penalty_amount kind
        /\ (forall k, k <> n -> penalty_of (dyn_penalty s1) k = penalty_of (dyn_penalty s) k)).
Proof.
  intros Hen Hlock Hrn Hne Hinit.
  set (s1 := set_lock true (set_lock false (record_event EvInit (set_lock true s)))).
  assert (Hraise : forall e,
            get_group E s1 = Raise e (record_event EvGetProxies s1) ->
            exists e' s', on_failure E cfg fuel kind detail s = Raise e' s'
                          /\ lock_held s' = false).
  { intros e Hg. unfold on_failure. rewrite Hen. cbn [negb]. unfold bind at 1.
    rewrite (ensure_started_ok E cfg s Hen Hlock Hinit).
    unfold bind at 1. unfold with_lock at 1. cbn [lock_held set_lock].
    unfold bind at 1. fold s1. rewrite Hg. eexists. eexists. split; reflexivity. }
  destruct (env_get_proxies E (EvInit :: log s)) as [e|j] eqn:Hdoc.
  { left. apply (Hraise (External e)).
    unfold get_group, bind, get_proxies. cbn [log s1 set_lock record_event].
    rewrite Hdoc. reflexivity. }
  destruct j as [| | | | |obj];
    try (left; apply (Hraise UnexpectedResponse);
         unfold get_group, bind, get_proxies; cbn [log s1 set_lock record_event];
         rewrite Hdoc; reflexivity).
  destruct (parse_group obj) as [e|[[now cands] am]] eqn:Hparse.
  { left. apply (Hraise e).
    unfold get_group, bind, get_proxies. cbn [log s1 set_lock record_event].
    rewrite Hdoc, Hparse. reflexivity. }
  destruct (Hfollow _ _ _ _ _ Hdoc Hparse) as [Hnow _].
  cbn [reported_now] in Hnow. rewrite Hrn in Hnow. subst now.
  right.
  destruct (on_failure_selected E cfg fuel kind detail s obj n cands am
              Hen Hlock Hinit Hdoc Hparse Hne)
    as (s2 & Hrun & Hpn & Hpo & Hk & Ht & _).
  exists s2. repeat split; assumption.
Qed.

(** [on_failure] while the controller holds [n]: it raises, or charges
    [n] and goes on as [ensure_proxy_reachable]; it does not wait on the
    lock. *)
Lemma on_failure_follow (fuel : nat) (kind detail : pystr) (s : pool) (n : pystr) :
  enabled cfg = true ->
  lock_held s = false ->
  reported_now E now0 (log s) = Some n ->
  n <> [] ->
  (exists e s', on_failure E cfg fuel kind detail s = Raise e s' /\ lock_held s' = false)
  \/ (exists s1,
        on_failure E cfg fuel kind detail s = ensure_proxy_reachable E cfg fuel s1
        /\ lock_held s1 = false
        /\ last_switch_ts s1 = last_switch_ts s
        /\ penalty_of (dyn_penalty s1) n = penalty_of (dyn_penalty s) n + penalty_amount kind
        /\ (forall k, k <> n -> penalty_of (dyn_penalty s1) k = penalty_of (dyn_penalty s) k)).
Proof.
  intros Hen Hlock Hrn Hne.
  destruct (env_init E (log s)) as [e|] eqn:Hinit.
  - destruct (required cfg) eqn:Hreq.
    + left. unfold on_failure, bind, ensure_started, with_lock.
      rewrite Hen. cbn [negb]. rewrite Hlock. cbn [log set_lock].
      rewrite Hinit, Hreq. eexists. eexists. split; reflexivity.
    + apply (on_failure_from_group fuel kind detail s n Hen Hlock Hrn Hne).
      right. exact Hreq.
  - apply (on_failure_from_group fuel kind detail s n Hen Hlock Hrn Hne).
    left. exact Hinit.
Qed.

Lemma register_loop_returns (W : register_env) (fuel : nat) :
  enabled cfg = true ->
  (length u < fuel)%nat ->
  forall (attempts : nat) (s : pool),
    lock_held s = false ->
    ledger_nonneg (dyn_penalty s) ->
    t0 <= last_switch_ts s ->
    (total_headroom (dyn_penalty s) u < attempts)%nat ->
    exists r s',
      register_loop E cfg W fuel attempts s = Ret r s' /\ lock_held s' = false.
Proof.
  intros Hen Hfuel. induction attempts as [|attempts IH]; intros s Hk Hm Hts Hroom; [lia|].
  cbn [register_loop].
  destruct (reachable_settles E cfg u fuel s follows_within Hm Hk Hfuel)
    as (Hs & Hkf & _).
  destruct (ensure_proxy_reachable E cfg fuel s) as [[] s1|e s1|s1|s1] eqn:Hrun;
    try (destruct Hs).
  2:{ eexists. eexists. split; [reflexivity | exact Hkf]. }
  destruct (ensure_proxy_reachable_follow fuel s s1 Hen Hm Hts Hrun)
    as (Hk1 & Hts1 & Hm1 & Hgrow1 & n & Hrn & Hne & Hin & Hsc).
  destruct (re_automation W (log s1)) as [err|];
    [|eexists; eexists; split; [reflexivity | exact Hk1]].
  unfold report_failure.
  destruct (classify_failure (or_str err (py "automation failed"))) as [kind detail].
  destruct (on_failure_follow fuel kind detail s1 n Hen Hk1 Hrn Hne)
    as [(e & s' & Hr & Hk')|(s1' & Hr & Hk' & Ht' & Hpn & Hpo)].
  { rewrite Hr. eexists. eexists. split; [reflexivity | exact Hk']. }
  rewrite Hr.
  pose proof (penalty_amount_ge kind) as Hamt.
  assert (Hgrow' : forall k, penalty_of (dyn_penalty s1) k <= penalty_of (dyn_penalty s1') k).
  { intros k. destruct (decide (k = n)) as [->|Hkn].
    - rewrite Hpn. unfold PENALTY_MAIL in Hamt. lra.
    - rewrite (Hpo k Hkn). lra. }
  assert (Hm1' : ledger_nonneg (dyn_penalty s1')).
  { apply ledger_nonneg_penalty. intros k.
    pose proof (proj1 (ledger_nonneg_penalty _) Hm1 k). specialize (Hgrow' k). lra. }
  assert (Hts1' : t0 <= last_switch_ts s1') by (rewrite Ht'; exact Hts1).
  destruct (reachable_settles E cfg u fuel s1' follows_within Hm1' Hk' Hfuel)
    as (Hs2 & Hkf2 & _).
  destruct (ensure_proxy_reachable E cfg fuel s1') as [[] s2|e s2|s2|s2] eqn:Hrun2;
    try (destruct Hs2).
  2:{ eexists. eexists. split; [reflexivity | exact Hkf2]. }
  destruct (ensure_proxy_reachable_follow fuel s1' s2 Hen Hm1' Hts1' Hrun2)
    as (Hk2 & Hts2 & Hm2 & Hgrow2 & _).
  apply IH; try assumption.
  pose proof (total_headroom_mono (dyn_penalty s) (dyn_penalty s1) u
                (fun k _ => Hgrow1 k)) as H1.
  pose proof (total_headroom_drop (dyn_penalty s1) (dyn_penalty s1') u n
                (fun k _ => Hgrow' k) Hin Hsc) as H2.
  lapply H2; [clear H2; intros H2 | rewrite Hpn; lra].
  pose proof (total_headroom_mono (dyn_penalty s1') (dyn_penalty s2) u
                (fun k _ => Hgrow2 k)) as H3.
  lia.
Qed.

(** X17. The registration loop ends, and the dead-lock of [on_failure]
    is out of its reach. Let the controller follow the switch calls (the
    [now] it reports is the target of the last switch call it accepted)
    with candidates from a finite list [u], and let no idle period pass.
    Then [_register_one] with an enabled pool returns one of its results,
    the lock free, after at most [18 * length u + 1] automation attempts,
    however the automation, the probes and the controller's other answers
    turn out: every failed attempt charges the node the controller holds at
    least 5, and a node scoring below 100 takes at most 18 such charges
    before it falls below the threshold. *)
Theorem register_one_returns (W : register_env) (fuel attempts : nat) (s : pool) :
  enabled cfg = true ->
  lock_held s = false ->
  ledger_nonneg (dyn_penalty s) ->
  t0 <= last_switch_ts s ->
  (length u < fuel)%nat ->
  (18 * length u < attempts)%nat ->
  exists r s',
    register_one E cfg W fuel attempts s = Ret r s' /\ lock_held s' = false.
Proof.
  intros Hen Hk Hm Hts Hfuel Hatt. unfold register_one. rewrite Hen.
  destruct (reachable_settles E cfg u fuel s follows_within Hm Hk Hfuel)
    as (Hs & Hkf & _).
  destruct (ensure_proxy_reachable E cfg fuel s) as [[] s1|e s1|s1|s1] eqn:Hrun;
    try (destruct Hs).
  2:{ eexists. eexists. split; [reflexivity | exact Hkf]. }
  destruct (ensure_proxy_reachable_follow fuel s s1 Hen Hm Hts Hrun)
    as (Hk1 & Hts1 & Hm1 & _).
  destruct (re_mail W (log s1));
    [|eexists; eexists; split; [reflexivity | exact Hk1]].
  apply register_loop_returns; try assumption.
  pose proof (total_headroom_bound (dyn_penalty s1) u Hm1). lia.
Qed.

End Following.

Lemma reported_now_ext (E1 E2 : environment) (now0 : option pystr) (l : list event) :
  (forall h n, env_put E1 h n = env_put E2 h n) ->
  reported_now E1 now0 l = reported_now E2 now0 l.
Proof.
  intros Hput. induction l as [|e l IH]; [reflexivity|].
  destruct e; cbn [reported_now]; try exact IH.
  rewrite Hput, IH. reflexivity.
Qed.

Lemma parse_group_group_doc (now : option pystr) (all : list pystr)
    (flags : list (pystr * bool)) :
  exists am,
    parse_group (doc_fields (group_doc now all flags))
    = inr (now, List.filter (fun n => negb (is_sentinel n)) all, am).
Proof.
  assert (Hkeys : py "all" <> py "now") by (vm_compute; discriminate).
  unfold group_doc, doc_fields, parse_group.
  rewrite lookup_singleton_eq. unfold default, Datatypes.id.
  rewrite lookup_insert_eq, lookup_insert_eq, lookup_insert_ne by exact Hkeys.
  rewrite all_strings_map.
  destruct now as [n|]; rewrite lookup_singleton_eq; eexists; reflexivity.
Qed.

Lemma following_env_follows (now0 : option pystr) (all : list pystr) (status : Z)
    (u : list pystr) :
  incl all u ->
  controller_follows (following_env now0 all status) now0 u.
Proof.
  intros Hincl l obj now cands am Henv Hp.
  cbn [following_env env_get_proxies] in Henv.
  destruct (parse_group_group_doc (last_put now0 l) all []) as [am' Hpg].
  assert (Hobj : obj = doc_fields (group_doc (last_put now0 l) all []))
    by (unfold group_doc in *; injection Henv as <-; reflexivity).
  subst obj. rewrite Hpg in Hp. injection Hp as <- <- <-.
  split.
  - unfold last_put. apply reported_now_ext. intros h n. reflexivity.
  - intros k Hk. apply Hincl. apply filter_In in Hk. tauto.
Qed.

(** [register_one_returns] with two candidates and an automation that
    fails every time: the call returns. *)
Lemma register_one_returns_witness :
  exists r s',
    register_one (following_env (Some node_A) [node_A; node_B] 204) pool_on
      {| re_mail := fun _ => true;
         re_automation := fun _ => Some (py "connect timeout") |}
      3 37 (new_pool 0)
    = Ret r s'
    /\ lock_held s' = false.
Proof.
  apply (register_one_returns (following_env (Some node_A) [node_A; node_B] 204)
           pool_on (Some node_A) [node_A; node_B] 0%R).
  - apply following_env_follows, incl_refl.
  - intros l. cbn. unfold REFRESH_IDLE_SECONDS. lra.
  - reflexivity.
  - reflexivity.
  - intros k v Hk. cbn [new_pool dyn_penalty] in Hk. rewrite lookup_empty in Hk.
    discriminate.
  - cbn. lra.
  - cbn. lia.
  - cbn. lia.
Defined.

(* ================================================================== *)
(** * How often a call switches *)
(* ================================================================== *)

Section Churn.

Variable E : environment.

Local Open Scope R_scope.

Lemma eligible_pos (m : gmap pystr R) (u : list pystr) (n : pystr) :
  In n u -> SCORE_THRESHOLD <= score_in m n -> (1 <= eligible m u)%nat.
Proof.
  intros Hin Hsc. induction u as [|x u IH]; [destruct Hin|].
  rewrite eligible_cons. destruct Hin as [->|Hin].
  - rewrite (proj2 (Rgeb_iff _ _) Hsc). lia.
  - specialize (IH Hin). lia.
Qed.

Lemma puts_length_cons (e : event) (l : list event) :
  length (puts_of (e :: l))
  = (length (puts_of l) + match e with EvPut _ _ => 1 | _ => 0 end)%nat.
Proof. rewrite puts_of_cons, length_app. destruct e; reflexivity. Qed.

(** The rest of a round makes at most one switch call, to a name that
    held the threshold; when it asks for another round that name no longer
    does. *)
Lemma switch_and_probe_puts (now : option pystr) (candidates : list pystr)
    (alive_map : gmap pystr (option bool)) (s : pool) (u : list pystr) :
  ledger_nonneg (dyn_penalty s) ->
  incl candidates u ->
  match switch_and_probe E now candidates alive_map s with
  | Ret None s' =>
    (length (puts_of (log s')) + eligible (dyn_penalty s') u
     <= length (puts_of (log s)) + eligible (dyn_penalty s) u)%nat
  | r =>
    (length (puts_of (log (final r)))
     <= length (puts_of (log s)) + eligible (dyn_penalty s) u)%nat
  end.
Proof.
  intros Hm Hincl.
  assert (Hterm : forall r : result (option (option pystr)),
            (length (puts_of (log (final r)))
             <= length (puts_of (log s)) + eligible (dyn_penalty s) u)%nat ->
            match r with
            | Ret None s' => True
            | r' => (length (puts_of (log (final r')))
                     <= length (puts_of (log s)) + eligible (dyn_penalty s) u)%nat
            end).
  { intros [[h|] s'|e s'|s'|s'] Hr; auto. }
  unfold switch_and_probe.
  destruct (best_candidate (dyn_penalty s) alive_map candidates) as [best|] eqn:Hb;
    [|cbn; lia].
  unfold Rltb. destruct (Rlt_dec (score s best) SCORE_THRESHOLD) as [Hlt|Hge];
    [cbn; lia|].
  assert (Hge' : SCORE_THRESHOLD <= score_in (dyn_penalty s) best)
    by (unfold score in Hge; lra).
  pose proof (score_ge_truthy _ _ Hm Hge') as Htr.
  pose proof (Hincl _ (best_candidate_in _ _ _ _ Hb)) as Hin.
  pose proof (eligible_pos _ _ _ Hin Hge') as Hpos.
  assert (Hsw : exists r,
    (if bool_decide (Some best = now) then ret now
     else (select_group E best ;; touch_switch_ts E ;; ret (Some best))%pool) s = r
    /\ match r with
       | Ret now' s1 =>
         now' = Some best /\ dyn_penalty s1 = dyn_penalty s
         /\ (length (puts_of (log s1)) <= length (puts_of (log s)) + 1)%nat
       | Raise _ s1 =>
         (length (puts_of (log s1)) <= length (puts_of (log s)) + 1)%nat
       | Blocked _ | Fuel _ => False
       end).
  { eexists. split; [reflexivity|].
    destruct (bool_decide (Some best = now)) eqn:Hd.
    - apply bool_decide_eq_true in Hd. unfold ret. repeat split; [congruence | lia].
    - unfold bind, select_group, touch_switch_ts, ret.
      destruct (env_put E (log s) best);
        cbn [log dyn_penalty set_switch_ts record_event];
        rewrite ?puts_length_cons; repeat split; lia. }
  destruct Hsw as (r & Hr & Hcase). unfold bind at 1. rewrite Hr.
  destruct r as [now' s1|e s1|s1|s1]; try contradiction.
  2:{ cbn [final]. lia. }
  destruct Hcase as (-> & Hl1 & Hp1).
  destruct (preflight_frame E s1) as (ok & ds & s2 & Hpre & Hl2 & _ & _ & Hp2 & _).
  unfold bind at 1. rewrite Hpre. cbn [fst snd]. destruct ok.
  - unfold ret. cbn [final]. rewrite Hp2. lia.
  - rewrite Htr.
    assert (Hm2 : ledger_nonneg (dyn_penalty s2)) by (rewrite Hl2, Hl1; exact Hm).
    destruct (apply_preflight_penalty best (hd [] ds) s2 Hm2)
      as (s3 & Hap & _ & _ & Hgrow & Hneg).
    unfold bind, ret. rewrite Hap.
    assert (Hlog : log s3 = log s2)
      by (unfold apply_penalty in Hap; injection Hap as <-; reflexivity).
    rewrite Hlog, Hp2.
    assert (Hdrop : (eligible (dyn_penalty s3) u < eligible (dyn_penalty s) u)%nat).
    { apply eligible_drop with best.
      - intros k _. rewrite <- Hl1, <- Hl2. apply Hgrow.
      - exact Hin.
      - exact Hge'.
      - unfold score in Hneg. unfold SCORE_THRESHOLD. lra. }
    lia.
Qed.

Lemma get_group_puts (s : pool) :
  length (puts_of (log (final (get_group E s)))) = length (puts_of (log s)).
Proof.
  unfold get_group, bind, get_proxies.
  destruct (env_get_proxies E (log s)) as [e|j];
    [cbn [final log record_event]; rewrite puts_length_cons; lia|].
  destruct j; try (cbn [final log record_event]; rewrite puts_length_cons; lia).
  destruct (parse_group fields);
    cbn [raise ret final log record_event]; rewrite puts_length_cons; lia.
Qed.

Lemma ensure_loop_puts (u : list pystr) :
  reports_within E u ->
  forall (fuel : nat) (s : pool),
    ledger_nonneg (dyn_penalty s) ->
    (length (puts_of (log (final (ensure_loop E fuel s))))
     <= length (puts_of (log s)) + eligible (dyn_penalty s) u)%nat.
Proof.
  intros Hrep. induction fuel as [|fuel IH]; intros s Hm; [cbn; lia|].
  cbn [ensure_loop]. unfold bind at 1.
  pose proof (get_group_cases E s) as Hg.
  pose proof (get_group_puts s) as Hp1.
  destruct (get_group E s) as [[[now cands] am] s1|e s1|s1|s1] eqn:Hgg;
    try contradiction; cbn [final] in Hp1.
  2:{ cbn [final]. lia. }
  destruct Hg as (Hl1 & _ & obj & Henv & Hparse).
  pose proof (Hrep _ _ _ _ _ Henv Hparse) as Hincl.
  destruct cands as [|c cs]; [cbn [raise final]; lia|].
  unfold bind at 1, setdefault_all at 1.
  set (s2 := set_ledger _ s1).
  assert (Hp2 : forall k, penalty_of (dyn_penalty s2) k = penalty_of (dyn_penalty s) k).
  { intros k. unfold s2. cbn [set_ledger dyn_penalty].
    rewrite penalty_of_setdefaults, Hl1. reflexivity. }
  assert (Hm2 : ledger_nonneg (dyn_penalty s2)).
  { apply ledger_nonneg_penalty. intros k. rewrite Hp2.
    apply ledger_nonneg_penalty. exact Hm. }
  assert (Hst : exists b s3,
            sticky_check E now (restrict_usable (c :: cs) am) s2 = Ret b s3
            /\ ledger_nonneg (dyn_penalty s3)
            /\ (forall k, penalty_of (dyn_penalty s2) k <= penalty_of (dyn_penalty s3) k)
            /\ length (puts_of (log s3)) = length (puts_of (log s2))).
  { destruct (sticky_check_cases E now (restrict_usable (c :: cs) am) s2 Hm2)
      as (b & s3 & Hrun & _ & Hm3 & Hgrow).
    exists b, s3. repeat split; try assumption.
    unfold sticky_check in Hrun. destruct now as [n|]; [|injection Hrun as _ <-; reflexivity].
    destruct (truthy (Some n) && in_list n (restrict_usable (c :: cs) am)
              && Rgeb (score s2 n) SCORE_THRESHOLD);
      [|injection Hrun as _ <-; reflexivity].
    destruct (preflight_frame E s2) as (ok & ds & sp & Hpre & _ & _ & _ & Hpp & _).
    unfold bind at 1 in Hrun. rewrite Hpre in Hrun. cbn [fst snd] in Hrun.
    destruct ok.
    - injection Hrun as _ <-. rewrite Hpp. reflexivity.
    - unfold bind, apply_penalty, ret in Hrun. injection Hrun as _ <-.
      cbn [set_ledger log]. rewrite Hpp. reflexivity. }
  destruct Hst as (b & s3 & Hst & Hm3 & Hgrow3 & Hp3).
  unfold bind at 1. rewrite Hst.
  assert (Hp3' : length (puts_of (log s3)) = length (puts_of (log s)))
    by (rewrite Hp3; exact Hp1).
  destruct b; [cbn [ret final]; lia|].
  assert (He3 : (eligible (dyn_penalty s3) u <= eligible (dyn_penalty s) u)%nat).
  { apply eligible_mono. intros k _. rewrite <- Hp2. apply Hgrow3. }
  assert (Hincl' : incl (restrict_usable (c :: cs) am) u).
  { intros k Hk. apply Hincl. eapply restrict_usable_incl. exact Hk. }
  pose proof (switch_and_probe_puts now _ am s3 u Hm3 Hincl') as Hsw.
  pose proof (switch_and_probe_cases E now _ am s3 u Hm3 Hincl') as Hsc.
  unfold bind at 1.
  destruct (switch_and_probe E now (restrict_usable (c :: cs) am) am s3)
    as [[held|] s4|e s4|s4|s4]; try contradiction; cbn [final ret] in *; try lia.
  destruct Hsc as (_ & Hm4 & _).
  specialize (IH s4 Hm4). lia.
Qed.

(** X18. One call switches at most as often as there are names. With a
    ledger without negative entries and a controller that reports only
    candidates from the list [u], the switch calls [ensure_proxy_reachable]
    makes before it ends, however it ends, number at most [length u]: a
    name switched to either ends the call or is charged a failed preflight
    and is not switched to again. *)
Theorem switches_per_call_bounded (cfg : settings) (u : list pystr) (fuel : nat)
    (s : pool) :
  reports_within E u ->
  ledger_nonneg (dyn_penalty s) ->
  (length (puts_of (log (final (ensure_proxy_reachable E cfg fuel s))))
   <= length (puts_of (log s)) + length u)%nat.
Proof.
  intros Hrep Hm. unfold ensure_proxy_reachable.
  destruct (negb (enabled cfg)); [cbn; lia|].
  unfold bind at 1.
  assert (Hst : length (puts_of (log (final (ensure_started E cfg s))))
                = length (puts_of (log s))
                /\ dyn_penalty (final (ensure_started E cfg s)) = dyn_penalty s).
  { unfold ensure_started, with_lock.
    destruct (negb (enabled cfg)); [split; reflexivity|].
    destruct (lock_held s); [split; reflexivity|]. cbn [log set_lock].
    destruct (env_init E (log s)); [destruct (required cfg)|];
      cbn [final log set_lock record_event dyn_penalty];
      rewrite puts_length_cons; split; try reflexivity; lia. }
  destruct Hst as [Hp1 Hl1].
  destruct (ensure_started E cfg s) as [[] s1|e s1|s1|s1]; cbn [final] in *; try lia.
  unfold with_lock. destruct (lock_held s1); [cbn [final]; lia|].
  assert (Hm1 : ledger_nonneg (dyn_penalty (set_lock true s1)))
    by (cbn [set_lock dyn_penalty]; rewrite Hl1; exact Hm).
  destruct (maybe_refresh_cases E (set_lock true s1) Hm1) as (s2 & Hrf & _ & Hm2).
  assert (Hp2 : length (puts_of (log s2)) = length (puts_of (log s1))).
  { unfold maybe_refresh_dynamic in Hrf.
    destruct (Rltb _ _);
      [injection Hrf as <-; cbn [log record_event set_lock];
       rewrite puts_length_cons; cbn; lia|].
    destruct (negb _).
    - unfold touch_switch_ts in Hrf. injection Hrf as <-.
      cbn [log set_switch_ts record_event set_lock].
      rewrite !puts_length_cons. cbn. lia.
    - unfold bind, touch_switch_ts in Hrf. injection Hrf as <-.
      cbn [log set_switch_ts record_event set_lock set_ledger].
      rewrite !puts_length_cons. cbn. lia. }
  pose proof (ensure_loop_puts u Hrep fuel s2 Hm2) as Hloop.
  pose proof (eligible_le_length (dyn_penalty s2) u) as Hle.
  unfold bind at 1. rewrite Hrf. unfold bind, ret.
  destruct (ensure_loop E fuel s2) as [held s3|e s3|s3|s3];
    cbn [final log set_lock] in *; lia.
Qed.

End Churn.

(** [switches_per_call_bounded] on the first selection among one
    candidate: one switch call. *)
Lemma switches_per_call_bounded_witness :
  (length (puts_of (log (final (ensure_proxy_reachable env_none_selected pool_on 1
                                  (new_pool 0)))))
   <= 1)%nat.
Proof.
  pose proof (switches_per_call_bounded env_none_selected pool_on [node_A] 1
                (new_pool 0)) as H.
  apply H.
  - eapply steady_reports_within; [exact parse_group_none_selected | apply incl_refl].
  - intros k v Hk. cbn [new_pool dyn_penalty] in Hk. rewrite lookup_empty in Hk.
    discriminate.
Defined.
